(** * onedrive_to_aws_sync: a shallow embedding of [onedrive_to_aws_sync.py]

    The script mirrors a OneDrive folder into an S3 bucket.  It walks the
    Microsoft Graph delta feed ([delta_gather]), keeps the relevant records in
    a dictionary keyed by item id, stores the feed's [deltaLink] in the bucket
    and then stages and uploads every changed file ([onedrive_download]).

    Python exceptions are modelled by the type [result]; the outside world
    (Graph, Azure AD, S3, the local [/tmp] folder, standard output) by an
    explicit [world] that is threaded through every call, together with the
    list of [event]s the call produced. *)

From Stdlib Require Import String Ascii List Bool Arith Lia.
From stdpp Require Import base strings gmap list.

Import ListNotations.
Local Open Scope string_scope.
Local Open Scope list_scope.

(** ** Exceptions *)

Inductive exn : Type :=
| KeyError (key : string)            (* d[key] on a dict without that key *)
| HTTPError                          (* requests.exceptions.HTTPError *)
| ConnectionError                    (* any other requests exception *)
| JSONDecodeError                    (* json.loads / json.load on non-JSON text *)
| OSError                            (* open / write / os.remove failed *)
| FileNotFoundError (path : string)  (* the named local file does not exist *)
| S3Error                            (* boto3 upload_file / download_file failed *)
| UnboundLocalError (var : string)   (* a local name read before assignment *)
| RecursionError.                    (* maximum recursion depth exceeded *)

Inductive result (A : Type) : Type :=
| Ret (a : A)
| Raise (e : exn).
Arguments Ret {A} a.
Arguments Raise {A} e.

(** [except requests.exceptions.HTTPError] catches this class only;
    [except Exception] and a bare [except] catch every [exn]. *)
Definition is_HTTPError (e : exn) : bool :=
  match e with HTTPError => true | _ => false end.

(** ** JSON data of the Graph delta feed

    A key that may be absent from a JSON object is an [option]: reading it
    with [d[key]] raises [KeyError], testing it with [key in d] does not. *)

Record parent_reference : Type := ParentReference {
  pr_driveId : option string;          (* 'driveId' *)
  pr_path : option string;             (* 'path' *)
  pr_path_relative : option string     (* 'path_relative', added by delta_gather *)
}.

Record drive_item : Type := DriveItem {
  i_id : option string;                        (* 'id' *)
  i_name : option string;                      (* 'name' *)
  i_parentReference : option parent_reference; (* 'parentReference' *)
  i_file : bool                                (* 'file' in item *)
}.

Record delta_page : Type := DeltaPage {
  p_value : option (list drive_item);  (* 'value' *)
  p_nextLink : option string;          (* '@odata.nextLink' *)
  p_deltaLink : option string          (* '@odata.deltaLink' *)
}.

(** The JSON answer of the Azure AD token endpoint. *)
Record token_response : Type := TokenResponse {
  access_token : option string
}.

Record headers : Type := Headers {
  Content_Type : string;
  Accept : string;
  Authorization : string
}.

Definition bearer_headers (aadToken : string) : headers :=
  {| Content_Type := "application/json";
     Accept := "application/json";
     Authorization := "Bearer " +:+ aadToken |}.

(** ** Strings *)

(** A Python [str] is a sequence of characters (code points).  A Rocq string
    holds its UTF-8 text, one byte per [ascii]: a character is one byte
    followed by its continuation bytes, the bytes 10xxxxxx. *)
Definition is_continuation (a : ascii) : bool :=
  match a with Ascii _ _ _ _ _ _ b6 b7 => b7 && negb b6 end.

(** The string begins in the middle of a character. *)
Definition continues (s : string) : bool :=
  match s with
  | String a _ => is_continuation a
  | EmptyString => false
  end.

(** The characters of a text, each with its own bytes. *)
Fixpoint chars (s : string) : list string :=
  match s with
  | EmptyString => []
  | String a s' =>
      match chars s' with
      | g :: gs =>
          if continues g then String a g :: gs
          else String a EmptyString :: g :: gs
      | [] => [String a EmptyString]
      end
  end.

(** The text made of a list of characters. *)
Definition str_join (l : list string) : string := fold_right String.append EmptyString l.

(** Python [len(s)]. *)
Definition str_len (s : string) : nat := List.length (chars s).

(** Python [s[n:]]: the text without its first [n] characters. *)
Definition str_drop (n : nat) (s : string) : string := str_join (skipn n (chars s)).

(** Python [sub in s] on two strings. *)
Fixpoint str_contains (sub s : string) : bool :=
  String.prefix sub s ||
  match s with
  | EmptyString => false
  | String _ s' => str_contains sub s'
  end.

(** ** The change dictionary

    [change_array] is a Python dict: keys are unique, iteration follows the
    order of first insertion, and [d.update({k: v})] on a key that is present
    replaces the value in place. *)

Definition dict (V : Type) : Type := list (string * V).

Fixpoint dict_update {V} (k : string) (v : V) (d : dict V) : dict V :=
  match d with
  | [] => [(k, v)]
  | (k', v') :: d' =>
      if String.eqb k' k then (k, v) :: d' else (k', v') :: dict_update k v d'
  end.

Fixpoint dict_get {V} (k : string) (d : dict V) : option V :=
  match d with
  | [] => None
  | (k', v') :: d' => if String.eqb k' k then Some v' else dict_get k d'
  end.

Definition dict_keys {V} (d : dict V) : list string := map fst d.

(** ** The relevance filter of delta_gather (source lines 109-114) *)

(** [i['parentReference'].update({'path_relative': path_relative})] *)
Definition set_path_relative (rel : string) (i : drive_item) : drive_item :=
  match i_parentReference i with
  | Some pr =>
      {| i_id := i_id i; i_name := i_name i;
         i_parentReference :=
           Some {| pr_driveId := pr_driveId pr; pr_path := pr_path pr;
                   pr_path_relative := Some rel |};
         i_file := i_file i |}
  | None => i
  end.

(** The body of the [for i in delta_resp['value']] loop. *)
Definition filter_record (target_folder target_driveID : string)
    (change_array : dict drive_item) (i : drive_item) : result (dict drive_item) :=
  match i_parentReference i with
  | None => Raise (KeyError "parentReference")
  | Some pr =>
      match pr_path pr with
      | None => Ret change_array
      | Some p =>
          match i_name i with
          | None => Raise (KeyError "name")
          | Some n =>
              if String.eqb n target_folder || str_contains target_driveID p then
                let path_relative := str_drop 80 p in
                let i' := set_path_relative path_relative i in
                match i_id i with
                | None => Raise (KeyError "id")
                | Some k => Ret (dict_update k i' change_array)
                end
              else Ret change_array
          end
      end
  end.

(** The whole loop: records are taken in list order, the first exception
    leaves the loop. *)
Fixpoint filter_records (target_folder target_driveID : string)
    (change_array : dict drive_item) (value : list drive_item)
    : result (dict drive_item) :=
  match value with
  | [] => Ret change_array
  | i :: rest =>
      match filter_record target_folder target_driveID change_array i with
      | Ret change_array' =>
          filter_records target_folder target_driveID change_array' rest
      | Raise e => Raise e
      end
  end.

(** ** The outside world *)

(** What a file in [/tmp] or an object in the bucket holds: raw bytes
    written with [file.write], or the JSON text written by [json.dump]. *)
Inductive content : Type :=
| Bytes (b : string)                 (* onedrive_resp.content *)
| DeltaLinkJson (deltaLink : string) (* json.dump({'deltaLink': ...}) *)
| ItemJson (i : drive_item).         (* json.dump(file_metadata) *)

(** The form posted to the Azure AD token endpoint. *)
Record token_request : Type := TokenRequest {
  client_id : string;
  client_secret : string;
  grant_type : string;
  scope : string
}.

(** Calls on the local file system and on the bucket; each of them can fail
    for a reason outside the program (permissions, network, ...). *)
Inductive io_call : Type :=
| IoWrite (path : string)            (* open(path, 'w'/'wb') and write *)
| IoRead (path : string)             (* open(path) and read *)
| IoRemove (path : string)           (* os.remove(path) *)
| IoUpload (filename key : string)   (* s3.meta.client.upload_file *)
| IoDownload (filename key : string). (* s3.meta.client.download_file *)

(** The lines written to standard output, one constructor per [print]. *)
Inductive line : Type :=
| LScriptStarted                     (* "Script has started." *)
| LTokenError                        (* "Error occured when attempting to obtain MS token. ..." *)
| LExn (e : exn)                     (* print(e) *)
| LS3Error (action filename_local : string)
                                     (* "Error occured when attempting to {action} the file {filename_local} to or from the S3 bucket. ..." *)
| LS3Success (action filename_local : string)
                                     (* "The attempt to {action} the file {filename_local} to or from the S3 bucket was successful." *)
| LDownloadError (name : string)     (* "Error occured when attempting to download {name} from OneDrive. ..." *)
| LAcquiringToken                    (* "Acquiring new token then try to download contents again." *)
| LSaveError                         (* "Error occured when attempting to save files locally. ..." *)
| LRemoveError                       (* "Error when trying to remove files \nException details:" *)
| LDeltaQueryError                   (* "Error occured when attempting to query deltaLink. ..." *)
| LDeltaRemoveError                  (* "Error when trying to remove files" *)
| LDeltaFileError                    (* "Error occured when attempting to download/remove the deltaLink file. ..." *)
| LScriptExited.                     (* "Script exited successfully." *)

(** Every interaction with the outside, with its outcome. *)
Inductive event : Type :=
| EvGetFeed (url : string) (h : headers) (r : result delta_page)
| EvGetContent (url : string) (h : headers) (r : result string)
| EvPostToken (url : string) (body : token_request) (r : result token_response)
| EvWrite (path : string) (c : content) (r : result unit)
| EvRead (path : string) (r : result content)
| EvRemove (path : string) (r : result unit)
| EvUpload (filename key : string) (r : result content)
| EvDownload (filename key : string) (r : result content)
| EvPrint (l : line).

(** The remote services answer as they please.  Their state [R] is abstract;
    each call returns an answer and the next state, so the same request can be
    answered differently the second time. *)
Record oracle (R : Type) : Type := Oracle {
  (* json.loads(requests.get(url, headers=headers).content) *)
  graph_get_json : string -> headers -> R -> result delta_page * R;
  (* requests.get(url, headers=headers) of an item's /content *)
  graph_get_content : string -> headers -> R -> result string * R;
  (* json.loads(requests.post(url, data=body).content) *)
  aad_post : string -> token_request -> R -> result token_response * R;
  (* an injected failure of a file-system or bucket call *)
  io_fault : io_call -> R -> option exn * R
}.
Arguments graph_get_json {R} _ _ _ _.
Arguments graph_get_content {R} _ _ _ _.
Arguments aad_post {R} _ _ _ _.
Arguments io_fault {R} _ _ _.

Record world (R : Type) : Type := World {
  ext : R;                             (* state of the remote services *)
  tmp : gmap string content;           (* the local files *)
  bucket : gmap string content         (* 'rub-backoffice-invoice-prod' *)
}.
Arguments World {R} _ _ _.
Arguments ext {R} _.
Arguments tmp {R} _.
Arguments bucket {R} _.

(** ** Computations: state, exceptions and the events produced *)

Record outcome (R A : Type) : Type := Out {
  res : result A;
  final : world R;
  events : list event
}.
Arguments Out {R A} _ _ _.
Arguments res {R A} _.
Arguments final {R A} _.
Arguments events {R A} _.

Definition M (R A : Type) : Type := world R -> outcome R A.

Definition ret {R A} (a : A) : M R A := fun w => Out (Ret a) w [].

Definition raise {R A} (e : exn) : M R A := fun w => Out (Raise e) w [].

Definition bind {R A B} (m : M R A) (f : A -> M R B) : M R B := fun w =>
  let o := m w in
  match res o with
  | Ret a =>
      let o' := f a (final o) in
      Out (res o') (final o') (events o ++ events o')
  | Raise e => Out (Raise e) (final o) (events o)
  end.

(** [try: m except Exception as e: ...]: the caller receives the exception
    as a value. *)
Definition try {R A} (m : M R A) : M R (result A) := fun w =>
  let o := m w in Out (Ret (res o)) (final o) (events o).

Definition lift {R A} (r : result A) : M R A := fun w => Out r w [].

Notation "'let!' x ':=' c1 'in' c2" := (bind c1 (fun x => c2))
  (at level 10, x name, c1 at level 100, c2 at level 200).
Notation "c1 ;; c2" := (bind c1 (fun _ => c2))
  (at level 100, c2 at level 200, right associativity).

Definition print {R} (l : line) : M R unit := fun w => Out (Ret tt) w [EvPrint l].

(** ** The program *)

Section Program.

Context {R : Type}.
Variable net : oracle R.

(** [os.environ]. *)
Variable environ : gmap string string.

Definition getenv (k : string) : M R string :=
  match environ !! k with
  | Some v => ret v
  | None => raise (KeyError k)
  end.

(** *** Primitive calls *)

Definition requests_get_json (url : string) (h : headers) : M R delta_page := fun w =>
  let '(r, x) := graph_get_json net url h (ext w) in
  Out r (World x (tmp w) (bucket w)) [EvGetFeed url h r].

Definition requests_get_content (url : string) (h : headers) : M R string := fun w =>
  let '(r, x) := graph_get_content net url h (ext w) in
  Out r (World x (tmp w) (bucket w)) [EvGetContent url h r].

Definition requests_post_json (url : string) (body : token_request)
    : M R token_response := fun w =>
  let '(r, x) := aad_post net url body (ext w) in
  Out r (World x (tmp w) (bucket w)) [EvPostToken url body r].

(** [with open(path, mode) as f: f.write(c)] or [json.dump(c, f)]. *)
Definition open_write (path : string) (c : content) : M R unit := fun w =>
  let '(f, x) := io_fault net (IoWrite path) (ext w) in
  match f with
  | Some e => Out (Raise e) (World x (tmp w) (bucket w)) [EvWrite path c (Raise e)]
  | None => Out (Ret tt) (World x (<[path := c]> (tmp w)) (bucket w))
                [EvWrite path c (Ret tt)]
  end.

(** [with open(path) as f: json.load(f)]: the text must be JSON. *)
Definition json_load (path : string) : M R content := fun w =>
  let '(f, x) := io_fault net (IoRead path) (ext w) in
  let r := match f with
           | Some e => Raise e
           | None =>
               match tmp w !! path with
               | None => Raise (FileNotFoundError path)
               | Some (Bytes _) => Raise JSONDecodeError
               | Some c => Ret c
               end
           end in
  Out r (World x (tmp w) (bucket w)) [EvRead path r].

Definition os_remove (path : string) : M R unit := fun w =>
  let '(f, x) := io_fault net (IoRemove path) (ext w) in
  let r := match f with
           | Some e => Raise e
           | None =>
               match tmp w !! path with
               | None => Raise (FileNotFoundError path)
               | Some _ => Ret tt
               end
           end in
  Out r (World x (match r with
                  | Ret _ => delete path (tmp w)
                  | Raise _ => tmp w
                  end) (bucket w))
      [EvRemove path r].

Definition os_path_exists (path : string) : M R bool := fun w =>
  Out (Ret (bool_decide (is_Some (tmp w !! path)))) w [].

(** [s3.meta.client.upload_file(Filename, Bucket, Key)] *)
Definition upload_file (filename key : string) : M R unit := fun w =>
  let '(f, x) := io_fault net (IoUpload filename key) (ext w) in
  let r := match f with
           | Some e => Raise e
           | None =>
               match tmp w !! filename with
               | None => Raise (FileNotFoundError filename)
               | Some c => Ret c
               end
           end in
  Out (match r with Ret _ => Ret tt | Raise e => Raise e end)
      (World x (tmp w) (match r with
                        | Ret c => <[key := c]> (bucket w)
                        | Raise _ => bucket w
                        end))
      [EvUpload filename key r].

(** [s3.meta.client.download_file(Filename, Bucket, Key)] *)
Definition download_file (filename key : string) : M R unit := fun w =>
  let '(f, x) := io_fault net (IoDownload filename key) (ext w) in
  let r := match f with
           | Some e => Raise e
           | None =>
               match bucket w !! key with
               | None => Raise S3Error
               | Some c => Ret c
               end
           end in
  Out (match r with Ret _ => Ret tt | Raise e => Raise e end)
      (World x (match r with
                | Ret c => <[filename := c]> (tmp w)
                | Raise _ => tmp w
                end) (bucket w))
      [EvDownload filename key r].

(** *** s3_ops (source lines 16-36) *)

Definition s3_ops (filename_local filename_s3 action : string) : M R bool :=
  let! _ := getenv "aws_bucket_key_id" in
  let! _ := getenv "aws_bucket_secret_key" in
  let! r := try (if String.eqb action "upload" then
                   upload_file filename_local filename_s3
                 else if String.eqb action "download" then
                   download_file filename_local filename_s3
                 else ret tt) in
  match r with
  | Raise e =>
      print (LS3Error action filename_local);;
      print (LExn e);;
      ret false
  | Ret _ =>
      print (LS3Success action filename_local);;
      ret true
  end.

(** *** token_gains (source lines 136-154) *)

Definition token_gains : M R string :=
  let! appId := getenv "appId" in
  let! appSecret := getenv "appSecret" in
  let! tenantId := getenv "tenantId" in
  let url := "https://login.microsoftonline.com/" +:+ tenantId +:+ "/oauth2/v2.0/token" in
  let body := {| client_id := appId; client_secret := appSecret;
                 grant_type := "client_credentials";
                 scope := "https://graph.microsoft.com/.default" |} in
  let! resp := requests_post_json url body in
  match access_token resp with
  | Some t => ret t
  | None => raise (KeyError "access_token")
  end.

(** *** onedrive_download (source lines 40-90) *)

(** [d[key]] on an optional key. *)
Definition subscript {A} (key : string) (o : option A) : result A :=
  match o with
  | Some a => Ret a
  | None => Raise (KeyError key)
  end.

(** Lines 41-43: the content URL of an item. *)
Definition content_url (file_metadata : drive_item) : result string :=
  match subscript "parentReference" (i_parentReference file_metadata) with
  | Raise e => Raise e
  | Ret pr =>
      match subscript "driveId" (pr_driveId pr) with
      | Raise e => Raise e
      | Ret driveId =>
          match subscript "id" (i_id file_metadata) with
          | Raise e => Raise e
          | Ret itemId =>
              Ret ("https://graph.microsoft.com/v1.0/drives/" +:+ driveId +:+
                   "/items/" +:+ itemId +:+ "/content")
          end
      end
  end.

(** Lines 44-58: fetch the content; on any exception log it, acquire a new
    token and fetch once more, this time outside any [try]. *)
Definition fetch_content (h : headers) (file_metadata : drive_item)
    (onedrive_url : string) : M R string :=
  let! r := try (requests_get_content onedrive_url h) in
  match r with
  | Ret onedrive_resp => ret onedrive_resp
  | Raise e =>
      let! name := lift (subscript "name" (i_name file_metadata)) in
      print (LDownloadError name);;
      print (LExn e);;
      print LAcquiringToken;;
      let! aadToken := token_gains in
      requests_get_content onedrive_url (bearer_headers aadToken)
  end.

(** Lines 65-75: both files are written inside one [try]. *)
Definition stage_files (local_path onedrive_resp : string)
    (file_metadata : drive_item) : M R unit :=
  let! r := try (open_write local_path (Bytes onedrive_resp);;
                 open_write (local_path +:+ ".json") (ItemJson file_metadata)) in
  match r with
  | Ret _ => ret tt
  | Raise e => print LSaveError;; print (LExn e)
  end.

(** Line 78: the key of the content object in the bucket. *)
Definition filename_s3_of (file_metadata : drive_item) (local_filename : string)
    : result string :=
  match subscript "parentReference" (i_parentReference file_metadata) with
  | Raise e => Raise e
  | Ret pr =>
      match subscript "path_relative" (pr_path_relative pr) with
      | Raise e => Raise e
      | Ret rel => Ret (rel +:+ "/" +:+ local_filename)
      end
  end.

(** Lines 85-90: both removals are inside one [try]. *)
Definition cleanup (local_path : string) : M R unit :=
  let! r := try (os_remove local_path;; os_remove (local_path +:+ ".json")) in
  match r with
  | Ret _ => ret tt
  | Raise e => print LRemoveError;; print (LExn e)
  end.

Definition onedrive_download (h : headers) (file_metadata : drive_item) : M R unit :=
  let! onedrive_url := lift (content_url file_metadata) in
  let! onedrive_resp := fetch_content h file_metadata onedrive_url in
  let! local_filename := lift (subscript "name" (i_name file_metadata)) in
  let local_path := "/tmp/" +:+ local_filename in
  stage_files local_path onedrive_resp file_metadata;;
  let! filename_s3 := lift (filename_s3_of file_metadata local_filename) in
  s3_ops local_path filename_s3 "upload";;
  s3_ops (local_path +:+ ".json") (filename_s3 +:+ ".json") "upload";;
  cleanup local_path.

(** *** delta_gather (source lines 93-134) *)

(** Lines 94-100: only [requests.exceptions.HTTPError] is caught; the second
    request uses the same [headers] and is outside any [try]. *)
Definition fetch_page (url : string) (h : headers) : M R delta_page :=
  let! r := try (requests_get_json url h) in
  match r with
  | Ret delta_resp => ret delta_resp
  | Raise e =>
      if is_HTTPError e then
        print LDeltaQueryError;;
        print (LExn e);;
        requests_get_json url h
      else raise e
  end.

(** Lines 122-133: write the deltaLink to [/tmp], upload it, and remove the
    local file when the upload succeeded. *)
Definition save_deltaLink (deltaLink : string) : M R unit :=
  open_write "/tmp/deltaLink.json" (DeltaLinkJson deltaLink);;
  let! uploaded := s3_ops "/tmp/deltaLink.json" "deltaLink.json" "upload" in
  if uploaded then
    let! r := try (os_remove "/tmp/deltaLink.json") in
    match r with
    | Ret _ => ret tt
    | Raise _ => print LDeltaRemoveError
    end
  else ret tt.

(** The function is recursive on the pages of the feed, which the remote
    service chooses; Python bounds the depth of the recursion and raises
    [RecursionError] beyond it.  [depth] is the number of nested calls that
    are still allowed.  [change_array] is one dict mutated in place by every
    call: here each call returns the updated dict to its caller. *)
Fixpoint delta_gather (depth : nat) (url : string) (h : headers)
    (change_array : dict drive_item) : M R (dict drive_item) :=
  match depth with
  | O => raise RecursionError
  | S depth' =>
      let! delta_resp := fetch_page url h in
      let! target_folder := getenv "target_folder_prod" in
      let! target_driveID := getenv "target_driveID_prod" in
      let! value := lift (subscript "value" (p_value delta_resp)) in
      if Nat.ltb 0 (List.length value) then
        let! change_array :=
          lift (filter_records target_folder target_driveID change_array value) in
        let! change_array :=
          match p_nextLink delta_resp with
          | Some nextLink => delta_gather depth' nextLink h change_array
          | None => ret change_array
          end in
        match p_deltaLink delta_resp with
        | Some deltaLink => save_deltaLink deltaLink
        | None => ret tt
        end;;
        ret change_array
      else ret change_array
  end.

(** *** main (source lines 157-210) *)

(** Lines 187-198.  The whole block is one [try]; [delta_url] keeps the
    value it had when the exception was raised, so an exception of the final
    [os.remove] leaves the stored link in [delta_url]. *)
Definition load_deltaLink (delta_url : string) : M R string :=
  let! r := try (s3_ops "/tmp/deltaLink.json" "deltaLink.json" "download") in
  match r with
  | Raise e => print LDeltaFileError;; print (LExn e);; ret delta_url
  | Ret false => ret delta_url
  | Ret true =>
      let! present := os_path_exists "/tmp/deltaLink.json" in
      if present then
        let! r := try (let! deltaLink_file := json_load "/tmp/deltaLink.json" in
                       match deltaLink_file with
                       | DeltaLinkJson l => ret l
                       | _ => raise (KeyError "deltaLink")
                       end) in
        match r with
        | Raise e => print LDeltaFileError;; print (LExn e);; ret delta_url
        | Ret l =>
            let! r := try (os_remove "/tmp/deltaLink.json") in
            match r with
            | Raise e => print LDeltaFileError;; print (LExn e);; ret l
            | Ret _ => ret l
            end
        end
      else ret delta_url
  end.

(** Lines 205-208: [for key, value in change_array.items()]. *)
Fixpoint transfer_changes (h : headers) (change_array : dict drive_item) : M R unit :=
  match change_array with
  | [] => ret tt
  | (key, value) :: rest =>
      (if i_file value then onedrive_download h value else ret tt);;
      transfer_changes h rest
  end.

Definition main (recursion_limit : nat) : M R unit :=
  print LScriptStarted;;
  let! r := try token_gains in
  let! aadToken := match r with
                   | Ret t => ret (Some t)
                   | Raise e => print LTokenError;; print (LExn e);; ret None
                   end in
  let! h := match aadToken with
            | Some t => ret (bearer_headers t)
            | None => raise (UnboundLocalError "aadToken")
            end in
  let! driveID := getenv "driveId_prod" in
  let delta_url := "https://graph.microsoft.com/v1.0/drives/" +:+ driveID +:+ "/root/delta" in
  let! delta_url := load_deltaLink delta_url in
  let! change_array := delta_gather recursion_limit delta_url h [] in
  transfer_changes h change_array;;
  print LScriptExited.

End Program.

(** * Vocabulary of the properties *)

(** The entries stored under a key, in dictionary order. *)
Definition dict_entries {V} (k : string) (d : dict V) : list V :=
  map snd (List.filter (fun kv => String.eqb (fst kv) k) d).

(** The record's parent path, when it carries one. *)
Definition parent_path (i : drive_item) : option string :=
  match i_parentReference i with
  | Some pr => pr_path pr
  | None => None
  end.

(** Relevance in the words of the specification: the record carries a parent
    path, and its name is the target folder name or its parent path contains
    the target drive id. *)
Definition relevant (target_folder target_driveID : string) (i : drive_item) : Prop :=
  exists p, parent_path i = Some p /\
    (i_name i = Some target_folder \/ exists a b, p = a +:+ target_driveID +:+ b).

(** The record as delta_gather stores it. *)
Definition stored (i : drive_item) : drive_item :=
  match parent_path i with
  | Some p => set_path_relative (str_drop 80 p) i
  | None => i
  end.

(** An item that carries every key onedrive_download reads. *)
Definition transferable (file_metadata : drive_item) : Prop :=
  is_Some (i_id file_metadata) /\ is_Some (i_name file_metadata) /\
  exists pr, i_parentReference file_metadata = Some pr /\
             is_Some (pr_driveId pr) /\ is_Some (pr_path_relative pr).

(** The bucket credentials are configured. *)
Definition aws_env_ok (environ : gmap string string) : Prop :=
  is_Some (environ !! "aws_bucket_key_id") /\
  is_Some (environ !! "aws_bucket_secret_key").

(** ** Reading a list of events *)

Definition fetched_page (e : event) : option delta_page :=
  match e with
  | EvGetFeed _ _ (Ret p) => Some p
  | _ => None
  end.

Definition page_records (p : delta_page) : list drive_item :=
  match p_value p with
  | Some v => v
  | None => []
  end.

(** The records of the pages that were read, in the order they were read. *)
Definition records_of (evs : list event) : list drive_item :=
  flat_map (fun e => match fetched_page e with
                     | Some p => page_records p
                     | None => []
                     end) evs.

Definition is_feed_fetch (e : event) : Prop :=
  match e with EvGetFeed _ _ _ => True | _ => False end.

(** The start of an item transfer. *)
Definition is_content_fetch (e : event) : Prop :=
  match e with EvGetContent _ _ _ => True | _ => False end.

(** Writing the cursor: the scratch file or the object in the bucket. *)
Definition is_cursor_save (e : event) : Prop :=
  match e with
  | EvWrite _ (DeltaLinkJson _) _ => True
  | EvUpload _ key _ => key = "deltaLink.json"
  | _ => False
  end.

(** The bucket after the uploads recorded in a list of events. *)
Definition apply_upload (b : gmap string content) (e : event) : gmap string content :=
  match e with
  | EvUpload _ key (Ret c) => <[key := c]> b
  | _ => b
  end.

Definition replay_bucket (evs : list event) (b : gmap string content)
    : gmap string content :=
  fold_left apply_upload evs b.

(** ** The events of each block of the program *)

(** s3_ops with action "upload". *)
Inductive upload_trace (filename key : string) : list event -> bool -> Prop :=
| upload_done c :
    upload_trace filename key
      [EvUpload filename key (Ret c); EvPrint (LS3Success "upload" filename)] true
| upload_failed e :
    upload_trace filename key
      [EvUpload filename key (Raise e); EvPrint (LS3Error "upload" filename);
       EvPrint (LExn e)] false.

(** token_gains. *)
Inductive token_trace : list event -> result string -> Prop :=
| token_no_env k : token_trace [] (Raise (KeyError k))
| token_post_failed url body e :
    token_trace [EvPostToken url body (Raise e)] (Raise e)
| token_no_key url body resp :
    access_token resp = None ->
    token_trace [EvPostToken url body (Ret resp)] (Raise (KeyError "access_token"))
| token_ok url body resp t :
    access_token resp = Some t ->
    token_trace [EvPostToken url body (Ret resp)] (Ret t).

(** Lines 44-58 of onedrive_download. *)
Inductive content_fetch (url : string) (h : headers) (file_metadata : drive_item)
    : list event -> result string -> Prop :=
| content_first resp :
    content_fetch url h file_metadata [EvGetContent url h (Ret resp)] (Ret resp)
| content_no_name e :
    i_name file_metadata = None ->
    content_fetch url h file_metadata
      [EvGetContent url h (Raise e)] (Raise (KeyError "name"))
| content_token_failed e n evt e' :
    i_name file_metadata = Some n ->
    token_trace evt (Raise e') ->
    content_fetch url h file_metadata
      (EvGetContent url h (Raise e) :: EvPrint (LDownloadError n) ::
       EvPrint (LExn e) :: EvPrint LAcquiringToken :: evt)
      (Raise e')
| content_retried e n evt t r :
    i_name file_metadata = Some n ->
    token_trace evt (Ret t) ->
    content_fetch url h file_metadata
      (EvGetContent url h (Raise e) :: EvPrint (LDownloadError n) ::
       EvPrint (LExn e) :: EvPrint LAcquiringToken ::
       evt ++ [EvGetContent url (bearer_headers t) r])
      r.

(** Lines 65-75. *)
Inductive staged (local_path resp : string) (file_metadata : drive_item)
    : list event -> Prop :=
| staged_both :
    staged local_path resp file_metadata
      [EvWrite local_path (Bytes resp) (Ret tt);
       EvWrite (local_path +:+ ".json") (ItemJson file_metadata) (Ret tt)]
| staged_metadata_failed e :
    staged local_path resp file_metadata
      [EvWrite local_path (Bytes resp) (Ret tt);
       EvWrite (local_path +:+ ".json") (ItemJson file_metadata) (Raise e);
       EvPrint LSaveError; EvPrint (LExn e)]
| staged_content_failed e :
    staged local_path resp file_metadata
      [EvWrite local_path (Bytes resp) (Raise e);
       EvPrint LSaveError; EvPrint (LExn e)].

(** Lines 85-90. *)
Inductive cleaned (local_path : string) : list event -> Prop :=
| cleaned_both :
    cleaned local_path
      [EvRemove local_path (Ret tt); EvRemove (local_path +:+ ".json") (Ret tt)]
| cleaned_metadata_failed e :
    cleaned local_path
      [EvRemove local_path (Ret tt); EvRemove (local_path +:+ ".json") (Raise e);
       EvPrint LRemoveError; EvPrint (LExn e)]
| cleaned_content_failed e :
    cleaned local_path
      [EvRemove local_path (Raise e); EvPrint LRemoveError; EvPrint (LExn e)].

(** onedrive_download. *)
Inductive item_trace (environ : gmap string string) (h : headers)
    (file_metadata : drive_item) : list event -> result unit -> Prop :=
| item_no_url e :
    content_url file_metadata = Raise e ->
    item_trace environ h file_metadata [] (Raise e)
| item_fetch_failed url evf e :
    content_url file_metadata = Ret url ->
    content_fetch url h file_metadata evf (Raise e) ->
    item_trace environ h file_metadata evf (Raise e)
| item_no_name url evf resp :
    content_url file_metadata = Ret url ->
    content_fetch url h file_metadata evf (Ret resp) ->
    i_name file_metadata = None ->
    item_trace environ h file_metadata evf (Raise (KeyError "name"))
| item_no_key url evf resp n evs e :
    content_url file_metadata = Ret url ->
    content_fetch url h file_metadata evf (Ret resp) ->
    i_name file_metadata = Some n ->
    staged ("/tmp/" +:+ n) resp file_metadata evs ->
    filename_s3_of file_metadata n = Raise e \/
      (~ aws_env_ok environ /\ exists k, e = KeyError k) ->
    item_trace environ h file_metadata (evf ++ evs) (Raise e)
| item_done url evf resp n key evs evu1 b1 evu2 b2 evc :
    content_url file_metadata = Ret url ->
    content_fetch url h file_metadata evf (Ret resp) ->
    i_name file_metadata = Some n ->
    staged ("/tmp/" +:+ n) resp file_metadata evs ->
    filename_s3_of file_metadata n = Ret key ->
    upload_trace ("/tmp/" +:+ n) key evu1 b1 ->
    upload_trace (("/tmp/" +:+ n) +:+ ".json") (key +:+ ".json") evu2 b2 ->
    cleaned ("/tmp/" +:+ n) evc ->
    item_trace environ h file_metadata (evf ++ evs ++ evu1 ++ evu2 ++ evc) (Ret tt).

(** The loop of main over the change dictionary. *)
Inductive transfer_trace (environ : gmap string string) (h : headers)
    : dict drive_item -> list event -> result unit -> Prop :=
| transfer_nil : transfer_trace environ h [] [] (Ret tt)
| transfer_skip k value rest evs r :
    i_file value = false ->
    transfer_trace environ h rest evs r ->
    transfer_trace environ h ((k, value) :: rest) evs r
| transfer_abort k value rest evs e :
    i_file value = true ->
    item_trace environ h value evs (Raise e) ->
    transfer_trace environ h ((k, value) :: rest) evs (Raise e)
| transfer_next k value rest evs1 evs2 r :
    i_file value = true ->
    item_trace environ h value evs1 (Ret tt) ->
    transfer_trace environ h rest evs2 r ->
    transfer_trace environ h ((k, value) :: rest) (evs1 ++ evs2) r.

(** Lines 94-100 of delta_gather. *)
Inductive page_fetch (url : string) (h : headers)
    : list event -> result delta_page -> Prop :=
| fetch_first p :
    page_fetch url h [EvGetFeed url h (Ret p)] (Ret p)
| fetch_fatal e :
    is_HTTPError e = false ->
    page_fetch url h [EvGetFeed url h (Raise e)] (Raise e)
| fetch_retry e r :
    is_HTTPError e = true ->
    page_fetch url h
      [EvGetFeed url h (Raise e); EvPrint LDeltaQueryError; EvPrint (LExn e);
       EvGetFeed url h r] r.

(** Lines 103-114: what one page does to the change dictionary.  [Ret None]
    is a page without records: the body of [if len(...) > 0] is skipped. *)
Definition accumulate_page (environ : gmap string string)
    (change_array : dict drive_item) (delta_resp : delta_page)
    : result (option (dict drive_item)) :=
  match environ !! "target_folder_prod" with
  | None => Raise (KeyError "target_folder_prod")
  | Some target_folder =>
      match environ !! "target_driveID_prod" with
      | None => Raise (KeyError "target_driveID_prod")
      | Some target_driveID =>
          match p_value delta_resp with
          | None => Raise (KeyError "value")
          | Some value =>
              if Nat.ltb 0 (List.length value) then
                match filter_records target_folder target_driveID change_array value with
                | Ret change_array' => Ret (Some change_array')
                | Raise e => Raise e
                end
              else Ret None
          end
      end
  end.

(** Lines 122-133. *)
Inductive cursor_save (deltaLink : string) : list event -> result unit -> Prop :=
| save_write_failed e :
    cursor_save deltaLink
      [EvWrite "/tmp/deltaLink.json" (DeltaLinkJson deltaLink) (Raise e)] (Raise e)
| save_no_env k :
    cursor_save deltaLink
      [EvWrite "/tmp/deltaLink.json" (DeltaLinkJson deltaLink) (Ret tt)]
      (Raise (KeyError k))
| save_upload_failed e :
    cursor_save deltaLink
      [EvWrite "/tmp/deltaLink.json" (DeltaLinkJson deltaLink) (Ret tt);
       EvUpload "/tmp/deltaLink.json" "deltaLink.json" (Raise e);
       EvPrint (LS3Error "upload" "/tmp/deltaLink.json"); EvPrint (LExn e)]
      (Ret tt)
| save_uploaded :
    cursor_save deltaLink
      [EvWrite "/tmp/deltaLink.json" (DeltaLinkJson deltaLink) (Ret tt);
       EvUpload "/tmp/deltaLink.json" "deltaLink.json" (Ret (DeltaLinkJson deltaLink));
       EvPrint (LS3Success "upload" "/tmp/deltaLink.json");
       EvRemove "/tmp/deltaLink.json" (Ret tt)]
      (Ret tt)
| save_uploaded_not_removed e :
    cursor_save deltaLink
      [EvWrite "/tmp/deltaLink.json" (DeltaLinkJson deltaLink) (Ret tt);
       EvUpload "/tmp/deltaLink.json" "deltaLink.json" (Ret (DeltaLinkJson deltaLink));
       EvPrint (LS3Success "upload" "/tmp/deltaLink.json");
       EvRemove "/tmp/deltaLink.json" (Raise e); EvPrint LDeltaRemoveError]
      (Ret tt).

(** Lines 120-133 for a page with or without a deltaLink. *)
Inductive link_save : option string -> list event -> result unit -> Prop :=
| link_absent : link_save None [] (Ret tt)
| link_present deltaLink evs r :
    cursor_save deltaLink evs r -> link_save (Some deltaLink) evs r.

(** delta_gather: the events of a traversal and its result. *)
Inductive gather (environ : gmap string string) (h : headers)
    : string -> dict drive_item -> list event -> result (dict drive_item) -> Prop :=
| gather_too_deep url cs :
    gather environ h url cs [] (Raise RecursionError)
| gather_fetch_failed url cs evf e :
    page_fetch url h evf (Raise e) ->
    gather environ h url cs evf (Raise e)
| gather_page_failed url cs evf p e :
    page_fetch url h evf (Ret p) ->
    accumulate_page environ cs p = Raise e ->
    gather environ h url cs evf (Raise e)
| gather_empty_page url cs evf p :
    page_fetch url h evf (Ret p) ->
    accumulate_page environ cs p = Ret None ->
    gather environ h url cs evf (Ret cs)
| gather_last_page url cs evf p cs1 evs r :
    page_fetch url h evf (Ret p) ->
    accumulate_page environ cs p = Ret (Some cs1) ->
    p_nextLink p = None ->
    link_save (p_deltaLink p) evs r ->
    gather environ h url cs (evf ++ evs)
      (match r with Ret _ => Ret cs1 | Raise e => Raise e end)
| gather_next_failed url cs evf p cs1 nextLink evn e :
    page_fetch url h evf (Ret p) ->
    accumulate_page environ cs p = Ret (Some cs1) ->
    p_nextLink p = Some nextLink ->
    gather environ h nextLink cs1 evn (Raise e) ->
    gather environ h url cs (evf ++ evn) (Raise e)
| gather_next_page url cs evf p cs1 nextLink evn cs2 evs r :
    page_fetch url h evf (Ret p) ->
    accumulate_page environ cs p = Ret (Some cs1) ->
    p_nextLink p = Some nextLink ->
    gather environ h nextLink cs1 evn (Ret cs2) ->
    link_save (p_deltaLink p) evs r ->
    gather environ h url cs (evf ++ evn ++ evs)
      (match r with Ret _ => Ret cs2 | Raise e => Raise e end).

(** What main does before it reads the feed (lines 158-198) only talks to
    Azure AD, downloads and reads the stored deltaLink, and prints. *)
Definition prologue_event (e : event) : Prop :=
  match e with
  | EvPrint l => l <> LScriptExited
  | EvPostToken _ _ _ | EvDownload _ _ _ | EvRead _ _ | EvRemove _ _ => True
  | _ => False
  end.

(** main: the events of a run and its result. *)
Inductive run_trace (environ : gmap string string)
    : list event -> result unit -> Prop :=
| run_no_feed evp e :
    Forall prologue_event evp ->
    run_trace environ evp (Raise e)
| run_feed_failed evp h url evg e :
    Forall prologue_event evp ->
    gather environ h url [] evg (Raise e) ->
    run_trace environ (evp ++ evg) (Raise e)
| run_transfers evp h url evg cs evt r :
    Forall prologue_event evp ->
    gather environ h url [] evg (Ret cs) ->
    transfer_trace environ h cs evt r ->
    run_trace environ
      (evp ++ evg ++ evt ++ match r with
                            | Ret _ => [EvPrint LScriptExited]
                            | Raise _ => []
                            end) r.

(** ** Properties of computations *)

(** Every event of the computation is of the kind [Q]. *)
Definition emits {R A} (Q : event -> Prop) (m : M R A) : Prop :=
  forall w, Forall Q (events (m w)).

(** The computation never raises. *)
Definition total {R A} (m : M R A) : Prop :=
  forall w, exists a, res (m w) = Ret a.

(** The bucket the computation leaves is the one it found with the recorded
    uploads applied. *)
Definition tracks {R A} (m : M R A) : Prop :=
  forall w, bucket (final (m w)) = replay_bucket (events (m w)) (bucket w).

(** ** Kinds of events *)

(** What a feed traversal can do: read feed pages, write, upload and remove
    the scratch copy of the cursor, and print. *)
Definition gather_event (e : event) : Prop :=
  match e with
  | EvGetFeed _ _ _ => True
  | EvPrint l => l <> LScriptExited
  | EvWrite path (DeltaLinkJson _) _ => path = "/tmp/deltaLink.json"
  | EvUpload filename key _ => filename = "/tmp/deltaLink.json" /\ key = "deltaLink.json"
  | EvRemove path _ => path = "/tmp/deltaLink.json"
  | _ => False
  end.

(** What the transfer of the items can do: fetch contents, ask for a token,
    stage an item's two files, upload them under a key made of a relative
    path, a slash and a name, remove them, and print. *)
Definition transfer_event (e : event) : Prop :=
  match e with
  | EvGetContent _ _ _ | EvPostToken _ _ _ | EvRemove _ _ => True
  | EvPrint l => l <> LScriptExited
  | EvWrite _ (Bytes _) _ | EvWrite _ (ItemJson _) _ => True
  | EvUpload _ key _ => exists rel name, key = rel +:+ "/" +:+ name
  | _ => False
  end.

Definition is_upload (e : event) : Prop :=
  match e with EvUpload _ _ _ => True | _ => False end.

Definition is_remove (e : event) : Prop :=
  match e with EvRemove _ _ => True | _ => False end.

(** The end of a list of events when the second attempt at an item's content
    failed with [e]: the first failure and its log lines, then the token
    request that failed, or the token request and the fetch that failed. *)
Definition retry_failed (evs : list event) (e : exn) : Prop :=
  exists url h e1 n evt,
    evs = EvGetContent url h (Raise e1) :: EvPrint (LDownloadError n) ::
          EvPrint (LExn e1) :: EvPrint LAcquiringToken :: evt /\
    (token_trace evt (Raise e) \/
     exists t evt', token_trace evt' (Ret t) /\
                    evt = evt' ++ [EvGetContent url (bearer_headers t) (Raise e)]).

(** The item went through the whole pipeline: its content arrived, both
    uploads and the removal of the content file were attempted. *)
Definition processed (file_metadata : drive_item) (evs : list event) : Prop :=
  exists url n key h resp r1 r2 r3,
    content_url file_metadata = Ret url /\ i_name file_metadata = Some n /\
    filename_s3_of file_metadata n = Ret key /\
    In (EvGetContent url h (Ret resp)) evs /\
    In (EvUpload ("/tmp/" +:+ n) key r1) evs /\
    In (EvUpload (("/tmp/" +:+ n) +:+ ".json") (key +:+ ".json") r2) evs /\
    In (EvRemove ("/tmp/" +:+ n) r3) evs.

(** The URLs whose content was requested, and the paths whose removal was
    attempted, in order. *)
Definition content_requests (evs : list event) : list string :=
  flat_map (fun e => match e with EvGetContent url _ _ => [url] | _ => [] end) evs.

Definition feed_requests (evs : list event) : list string :=
  flat_map (fun e => match e with EvGetFeed url _ _ => [url] | _ => [] end) evs.

Definition token_requests (evs : list event) : list string :=
  flat_map (fun e => match e with EvPostToken url _ _ => [url] | _ => [] end) evs.

Definition removals (evs : list event) : list string :=
  flat_map (fun e => match e with EvRemove path _ => [path] | _ => [] end) evs.

(** * Concrete runs

    A world whose remote services answer from fixed tables; the calls listed
    in [faults], counted from 0 in the order they are made, fail. *)

Module Runs.

Definition clocked (feed : string -> option delta_page)
    (files : string -> option string) (token : result token_response)
    (faults : nat -> option exn) : oracle nat :=
  {| graph_get_json := fun url _ n =>
       (match faults n with
        | Some e => Raise e
        | None => match feed url with
                  | Some p => Ret p
                  | None => Raise ConnectionError
                  end
        end, S n);
     graph_get_content := fun url _ n =>
       (match faults n with
        | Some e => Raise e
        | None => match files url with
                  | Some b => Ret b
                  | None => Raise ConnectionError
                  end
        end, S n);
     aad_post := fun _ _ n =>
       (match faults n with
        | Some e => Raise e
        | None => token
        end, S n);
     io_fault := fun _ n => (faults n, S n) |}.

(** A drive id of 66 characters, so that "/drives/<driveId>/root:" has 80. *)
Definition drive : string :=
  "b!0123456789abcdef0123456789abcdef0123456789abcdef0123456789abcdef".

Definition env : gmap string string :=
  list_to_map [("aws_bucket_key_id", "key"); ("aws_bucket_secret_key", "secret");
               ("appId", "app"); ("appSecret", "app-secret"); ("tenantId", "tenant");
               ("target_folder_prod", "Invoices"); ("target_driveID_prod", drive);
               ("driveId_prod", drive)].

Definition root_path : string := "/drives/" +:+ drive +:+ "/root:".

Definition file_item (id name path : string) : drive_item :=
  {| i_id := Some id; i_name := Some name;
     i_parentReference :=
       Some {| pr_driveId := Some drive; pr_path := Some path;
               pr_path_relative := None |};
     i_file := true |}.

Definition item_a : drive_item := file_item "A" "a.txt" (root_path +:+ "/Invoices").
Definition item_b : drive_item := file_item "B" "b.txt" (root_path +:+ "/Invoices/2024").

(** A later record of item A that carries no parent path. *)
Definition item_a_no_path : drive_item :=
  {| i_id := Some "A"; i_name := Some "a.txt";
     i_parentReference :=
       Some {| pr_driveId := Some drive; pr_path := None; pr_path_relative := None |};
     i_file := true |}.

(** A record without the parentReference key. *)
Definition item_no_parent : drive_item :=
  {| i_id := Some "C"; i_name := Some "c.txt"; i_parentReference := None;
     i_file := true |}.

Definition start_url : string :=
  "https://graph.microsoft.com/v1.0/drives/" +:+ drive +:+ "/root/delta".

Definition one_page (p : delta_page) (url : string) : option delta_page :=
  if String.eqb url start_url then Some p else None.

Definition two_pages (p1 p2 : delta_page) (url : string) : option delta_page :=
  if String.eqb url start_url then Some p1
  else if String.eqb url "page2" then Some p2 else None.

Definition any_file (url : string) : option string := Some "content".

Definition granted : result token_response := Ret {| access_token := Some "token" |}.

Definition no_fault (n : nat) : option exn := None.

Definition fault_at (k : nat) (e : exn) (n : nat) : option exn :=
  if Nat.eqb n k then Some e else None.

Definition faults_at (ks : list nat) (e : exn) (n : nat) : option exn :=
  if existsb (Nat.eqb n) ks then Some e else None.

Definition fresh : world nat := World 0 ∅ ∅.

Definition the_headers : headers := bearer_headers "token".

End Runs.

(** The runs used below. *)
Module Cases.
Import Runs.

(** One page: item A, then a record of A without a parent path. *)
Definition repeated_page : delta_page :=
  {| p_value := Some [item_a; item_a_no_path]; p_nextLink := None;
     p_deltaLink := Some "delta-1" |}.

Definition repeated_net : oracle nat :=
  clocked (one_page repeated_page) any_file granted no_fault.

(** Two pages: item A, then item B and a newer record of item A. *)
Definition item_a_moved : drive_item :=
  file_item "A" "a.txt" (root_path +:+ "/Invoices/2024").

Definition first_page : delta_page :=
  {| p_value := Some [item_a]; p_nextLink := Some "page2"; p_deltaLink := None |}.

Definition second_page : delta_page :=
  {| p_value := Some [item_b; item_a_moved]; p_nextLink := None;
     p_deltaLink := Some "delta-2" |}.

Definition two_page_net : oracle nat :=
  clocked (two_pages first_page second_page) any_file granted no_fault.

(** One page with a record that has no parentReference. *)
Definition bad_page : delta_page :=
  {| p_value := Some [item_a; item_no_parent]; p_nextLink := None;
     p_deltaLink := Some "delta-3" |}.

Definition bad_net : oracle nat :=
  clocked (one_page bad_page) any_file granted no_fault.

(** One page with the items A and B. *)
Definition ab_page : delta_page :=
  {| p_value := Some [item_a; item_b]; p_nextLink := None;
     p_deltaLink := Some "delta-4" |}.

(** The calls of a run on [ab_page], counted from 0: the token request, the
    download of the stored deltaLink, the page, the write, upload and removal
    of the new deltaLink, then the content of item A.  Here both attempts at
    that content (calls 6 and 8, around the token request) fail. *)
Definition content_down_net : oracle nat :=
  clocked (one_page ab_page) any_file granted (faults_at [6; 8] ConnectionError).

(** Here the removal of the content file of item A (call 11) fails. *)
Definition remove_fails_net : oracle nat :=
  clocked (one_page ab_page) any_file granted (fault_at 11 OSError).

(** The loop of main on the stored items A and B, from call 0: the write of
    the content file of item A (call 1) fails. *)
Definition ab_stored : dict drive_item :=
  [("A", stored item_a); ("B", stored item_b)].

Definition write_fails_net : oracle nat :=
  clocked (one_page ab_page) any_file granted (fault_at 1 OSError).

(** onedrive_download of the stored item A, from call 0: the removal of its
    content file (call 5) fails. *)
Definition remove_fails_item_net : oracle nat :=
  clocked (one_page ab_page) any_file granted (fault_at 5 OSError).

(** The first page has no record and a nextLink; the second page has item A
    and the deltaLink. *)
Definition empty_page : delta_page :=
  {| p_value := Some []; p_nextLink := Some "page2"; p_deltaLink := None |}.

Definition a_page : delta_page :=
  {| p_value := Some [item_a]; p_nextLink := None; p_deltaLink := Some "delta-5" |}.

Definition empty_first_net : oracle nat :=
  clocked (two_pages empty_page a_page) any_file granted no_fault.

(** One page with item A and the deltaLink; the upload of the deltaLink
    (call 4) fails. *)
Definition cursor_upload_fails_net : oracle nat :=
  clocked (one_page a_page) any_file granted (fault_at 4 S3Error).

(** One page with the deltaLink and no record. *)
Definition empty_last_page : delta_page :=
  {| p_value := Some []; p_nextLink := None; p_deltaLink := Some "delta-6" |}.

Definition empty_last_net : oracle nat :=
  clocked (one_page empty_last_page) any_file granted no_fault.

Definition a_net : oracle nat :=
  clocked (one_page a_page) any_file granted no_fault.

(** The request of the page fails with a connection error (call 2). *)
Definition feed_down_net : oracle nat :=
  clocked (one_page a_page) any_file granted (fault_at 2 ConnectionError).

Definition content_url_a : string :=
  "https://graph.microsoft.com/v1.0/drives/" +:+ drive +:+ "/items/A/content".

End Cases.

(** * Vocabulary of the properties of the single functions *)

(** The call recorded by the event raised an exception. *)
Definition failed (e : event) : Prop :=
  match e with
  | EvGetFeed _ _ (Raise _) | EvGetContent _ _ (Raise _) | EvPostToken _ _ (Raise _)
  | EvWrite _ _ (Raise _) | EvRead _ (Raise _) | EvRemove _ (Raise _)
  | EvUpload _ _ (Raise _) | EvDownload _ _ (Raise _) => True
  | _ => False
  end.

(** Line 183 of main: the URL of a full scan of the drive. *)
Definition root_delta_url (driveID : string) : string :=
  "https://graph.microsoft.com/v1.0/drives/" +:+ driveID +:+ "/root/delta".

(** Lines 142-148 of token_gains: the endpoint and the form it is sent. *)
Definition token_url (tenantId : string) : string :=
  "https://login.microsoftonline.com/" +:+ tenantId +:+ "/oauth2/v2.0/token".

Definition token_body (appId appSecret : string) : token_request :=
  {| client_id := appId; client_secret := appSecret;
     grant_type := "client_credentials";
     scope := "https://graph.microsoft.com/.default" |}.

(** An entry of the change dictionary as the filter of delta_gather leaves
    it: stored under the record's id, with a name, a parent path and the
    relative path cut from it. *)
Definition well_stored (kv : string * drive_item) : Prop :=
  i_id (snd kv) = Some (fst kv) /\
  exists n pr p,
    i_name (snd kv) = Some n /\ i_parentReference (snd kv) = Some pr /\
    pr_path pr = Some p /\ pr_path_relative pr = Some (str_drop 80 p) /\
    filename_s3_of (snd kv) n = Ret (str_drop 80 p +:+ "/" +:+ n).

(** A record the loop of delta_gather reads without an exception: it carries
    a parentReference, a name when that carries a path, and an id when it is
    relevant. *)
Definition readable (tf td : string) (i : drive_item) : Prop :=
  is_Some (i_parentReference i) /\
  (is_Some (parent_path i) -> is_Some (i_name i)) /\
  (relevant tf td i -> is_Some (i_id i)).

(** requests.get raises the exceptions of a failed connection, and json.loads
    raises JSONDecodeError.  Neither raises requests.exceptions.HTTPError: the
    library raises it in Response.raise_for_status only, which the script
    never calls, so an answer with an HTTP error status is returned like any
    other. *)
Definition requests_never_raise_HTTPError {R} (net : oracle R) : Prop :=
  forall url h x e, fst (graph_get_json net url h x) = Raise e -> is_HTTPError e = false.

(** The event is not a request of a page that failed with HTTPError. *)
Definition no_HTTPError (e : event) : Prop :=
  match e with
  | EvGetFeed _ _ (Raise e') => is_HTTPError e' = false
  | _ => True
  end.

(** What follows the attempt [r0] to upload the cursor [m], with the events
    [back] after it: the cursor was stored, or the failure is printed
    next. *)
Definition cursor_upload_outcome (m : string) (r0 : result content)
    (back : list event) : Prop :=
  r0 = Ret (DeltaLinkJson m) \/
  exists e back',
    r0 = Raise e /\
    back = EvPrint (LS3Error "upload" "/tmp/deltaLink.json") :: EvPrint (LExn e) :: back'.

(** The entries main hands to onedrive_download (line 207). *)
Definition file_entries (change_array : dict drive_item) : dict drive_item :=
  List.filter (fun kv => i_file (snd kv)) change_array.

(** The URL of the first request for a page of the feed. *)
Definition first_feed_request (evs : list event) : option string :=
  head (feed_requests evs).

(** The token was granted by an answer of the token endpoint recorded in the
    events. *)
Definition granted_in (evs : list event) (t : string) : Prop :=
  exists url body resp,
    In (EvPostToken url body (Ret resp)) evs /\ access_token resp = Some t.

(** The kinds of events of a whole run. *)
Definition run_event (e : event) : Prop :=
  prologue_event e \/ gather_event e \/ transfer_event e \/ e = EvPrint LScriptExited.

(** More runs. *)
Module Samples.
Import Runs.

(** The token endpoint is down (call 0). *)
Definition token_down_net : oracle nat :=
  clocked (one_page Cases.a_page) any_file granted (fault_at 0 ConnectionError).

(** The environment without the drive id, and without the bucket
    credentials. *)
Definition env_no_drive : gmap string string := delete "driveId_prod" env.

Definition env_no_credentials : gmap string string :=
  delete "aws_bucket_secret_key" env.

(** A world whose bucket holds the deltaLink of an earlier run. *)
Definition resumed : world nat :=
  World 0 ∅ {["deltaLink.json" := DeltaLinkJson "page2"]}.

(** A world with one local file. *)
Definition staged_world : world nat :=
  World 0 {["/tmp/a.txt" := Bytes "content"]} ∅.

(** A record named like the target folder whose parent path is shorter than
    80 characters. *)
Definition short_item : drive_item :=
  {| i_id := Some "S"; i_name := Some "Invoices";
     i_parentReference :=
       Some {| pr_driveId := Some drive; pr_path := Some "/drive/root:";
               pr_path_relative := None |};
     i_file := true |}.

(** The character U+6587, three bytes in UTF-8. *)
Definition wen : string := String "230" (String "150" (String "135" EmptyString)).

(** A drive id of 66 characters that holds it, the root path of that drive,
    of 80 characters and 82 bytes, and a file below it. *)
Definition wide_drive : string :=
  "b!" +:+ wen +:+ "0123456789abcdef0123456789abcdef0123456789abcdef0123456789abcde".

Definition wide_root : string := "/drives/" +:+ wide_drive +:+ "/root:".

Definition wide_item : drive_item :=
  {| i_id := Some "W"; i_name := Some "w.txt";
     i_parentReference :=
       Some {| pr_driveId := Some wide_drive;
               pr_path := Some (wide_root +:+ "/Invoices/2024");
               pr_path_relative := None |};
     i_file := true |}.

(** A record below the target drive that carries no name, and a feed of one
    page that holds it after item A. *)
Definition item_no_name : drive_item :=
  {| i_id := Some "N"; i_name := None;
     i_parentReference :=
       Some {| pr_driveId := Some drive; pr_path := Some (root_path +:+ "/Invoices");
               pr_path_relative := None |};
     i_file := true |}.

Definition no_name_page : delta_page :=
  {| p_value := Some [item_a; item_no_name]; p_nextLink := None;
     p_deltaLink := Some "delta-8" |}.

Definition no_name_net : oracle nat :=
  clocked (one_page no_name_page) any_file granted no_fault.

(** The body of an answer with an HTTP error status, {'error': {...}}: a
    JSON object without the keys of a page. *)
Definition error_body : delta_page :=
  {| p_value := None; p_nextLink := None; p_deltaLink := None |}.

Definition error_net : oracle nat :=
  clocked (one_page error_body) any_file granted no_fault.

(** Two pages that both carry a deltaLink: the first also has a nextLink. *)
Definition marked_first_page : delta_page :=
  {| p_value := Some [item_a]; p_nextLink := Some "page2"; p_deltaLink := Some "d1" |}.

Definition marked_second_page : delta_page :=
  {| p_value := Some [item_b]; p_nextLink := None; p_deltaLink := Some "d2" |}.

Definition two_marker_net : oracle nat :=
  clocked (two_pages marked_first_page marked_second_page) any_file granted no_fault.

(** A page without the 'value' key. *)
Definition no_value_page : delta_page :=
  {| p_value := None; p_nextLink := None; p_deltaLink := Some "delta-7" |}.

Definition no_value_net : oracle nat :=
  clocked (one_page no_value_page) any_file granted no_fault.

End Samples.

(** * Properties *)

(** ** Strings *)

Lemma chars_nil (s : string) : chars s = [] -> s = "".
Proof.
  destruct s as [|a s]; [done|]. cbn [chars].
  destruct (chars s) as [|g gs]; [done|]. by destruct (continues g).
Qed.

(** The first character of a text begins where the text begins. *)
Lemma chars_continues (s : string) : continues (hd "" (chars s)) = continues s.
Proof.
  destruct s as [|a s]; [done|]. cbn [chars].
  destruct (chars s) as [|g gs]; [done|]. by destruct (continues g).
Qed.

(** A text is made of its characters. *)
Lemma str_join_chars (s : string) : str_join (chars s) = s.
Proof.
  induction s as [|a s IH]; [done|]. cbn [chars].
  destruct (chars s) as [|g gs] eqn:E.
  - apply chars_nil in E as ->. done.
  - destruct (continues g); cbn [str_join fold_right] in *.
    + change (String a g +:+ ?x) with (String a (g +:+ x)). by rewrite IH.
    + change (String a "" +:+ ?x) with (String a x). by rewrite IH.
Qed.

(** The characters of two texts put together are those of the first, then
    those of the second. *)
Lemma chars_app (a b : string) :
  continues b = false -> chars (a +:+ b) = chars a ++ chars b.
Proof.
  intros Hb. induction a as [|c a IH]; [done|].
  change (String c a +:+ b) with (String c (a +:+ b)). cbn [chars]. rewrite IH.
  destruct (chars a) as [|g gs] eqn:E; cbn [app].
  - pose proof (chars_continues b) as Hc. rewrite Hb in Hc.
    destruct (chars b) as [|g' gs']; [done|]. cbn [hd] in Hc. by rewrite Hc.
  - by destruct (continues g).
Qed.

(** [s[n:]] of a text that begins with [n] characters [a] is what follows
    them. *)
Lemma str_drop_app (a b : string) :
  continues b = false -> str_drop (str_len a) (a +:+ b) = b.
Proof.
  intros Hb. unfold str_drop, str_len. rewrite chars_app by done.
  rewrite skipn_app, skipn_all, Nat.sub_diag. cbn [skipn app]. apply str_join_chars.
Qed.

(** [s[n:]] of a text of at most [n] characters is empty: a slice raises
    nothing out of range. *)
Lemma str_drop_short (n : nat) (s : string) : str_len s <= n -> str_drop n s = "".
Proof. intros Hn. unfold str_drop, str_len in *. by rewrite skipn_all2. Qed.

Lemma prefix_spec (sub s : string) :
  String.prefix sub s = true <-> exists b, s = sub +:+ b.
Proof.
  revert s; induction sub as [|c sub IH]; intros s; simpl.
  - destruct s; split; eauto.
  - destruct s as [|d s]; simpl.
    + split; [discriminate | intros [b Hb]; discriminate].
    + destruct (ascii_dec c d) as [->|Hne].
      * rewrite IH. split; intros [b Hb]; exists b; [by rewrite Hb | by injection Hb].
      * split; [discriminate | intros [b Hb]; injection Hb; congruence].
Qed.

(** [str_contains] is Python's substring test. *)
Lemma str_contains_spec (sub s : string) :
  str_contains sub s = true <-> exists a b, s = a +:+ sub +:+ b.
Proof.
  induction s as [|c s IH]; cbn [str_contains]; rewrite orb_true_iff, prefix_spec.
  - split.
    + intros [[b Hb]|H]; [exists "", b; exact Hb | discriminate].
    + intros (a & b & H). left. destruct a; [by exists b | discriminate].
  - rewrite IH. split.
    + intros [[b Hb]|(a & b & H)]; [exists "", b; exact Hb |].
      exists (String c a), b. simpl. by rewrite H.
    + intros (a & b & H). destruct a as [|d a]; simpl in H.
      * left. by exists b.
      * right. exists a, b. by injection H.
Qed.

(** ** The change dictionary *)

Lemma eqb_string_true (a b : string) : String.eqb a b = true <-> a = b.
Proof. apply String.eqb_eq. Qed.

Lemma dict_get_update_eq {V} (k : string) (v : V) (d : dict V) :
  dict_get k (dict_update k v d) = Some v.
Proof.
  induction d as [|[k' v'] d IH]; simpl.
  - by rewrite String.eqb_refl.
  - destruct (String.eqb k' k) eqn:E; simpl.
    + by rewrite String.eqb_refl.
    + by rewrite E.
Qed.

Lemma dict_get_update_ne {V} (k k' : string) (v : V) (d : dict V) :
  k <> k' -> dict_get k' (dict_update k v d) = dict_get k' d.
Proof.
  intros Hne. induction d as [|[k1 v1] d IH]; simpl.
  - apply String.eqb_neq in Hne. by rewrite Hne.
  - destruct (String.eqb k1 k) eqn:E; simpl.
    + apply String.eqb_eq in E; subst k1.
      apply String.eqb_neq in Hne. by rewrite Hne.
    + by rewrite IH.
Qed.

Lemma dict_keys_update_in {V} (k k' : string) (v : V) (d : dict V) :
  In k' (dict_keys (dict_update k v d)) -> k' = k \/ In k' (dict_keys d).
Proof.
  induction d as [|[k1 v1] d IH]; simpl.
  - intros [H|[]]; auto.
  - destruct (String.eqb k1 k) eqn:E; simpl.
    + apply String.eqb_eq in E; subst k1. intros [H|H]; auto.
    + intros [H|H]; [auto | destruct (IH H); auto].
Qed.

(** Keys stay unique: an update of a present key replaces its entry. *)
Lemma dict_update_NoDup {V} (k : string) (v : V) (d : dict V) :
  List.NoDup (dict_keys d) -> List.NoDup (dict_keys (dict_update k v d)).
Proof.
  induction d as [|[k1 v1] d IH]; simpl; intros Hnd.
  - constructor; [intros [] | constructor].
  - inversion Hnd as [|? ? Hnotin Hnd']; subst.
    destruct (String.eqb k1 k) eqn:E; simpl.
    + apply String.eqb_eq in E; subst k1. by constructor.
    + constructor; [| by apply IH].
      intros Hin. apply dict_keys_update_in in Hin as [->|Hin]; [|done].
      by rewrite String.eqb_refl in E.
Qed.

Lemma dict_entries_absent {V} (k : string) (d : dict V) :
  ~ In k (dict_keys d) -> dict_entries k d = [].
Proof.
  unfold dict_entries. induction d as [|[k1 v1] d IH]; simpl; [done|].
  intros Hnotin. destruct (String.eqb k1 k) eqn:E.
  - apply String.eqb_eq in E. tauto.
  - apply IH. tauto.
Qed.

Lemma dict_entries_unique {V} (k : string) (v : V) (d : dict V) :
  List.NoDup (dict_keys d) -> dict_get k d = Some v -> dict_entries k d = [v].
Proof.
  unfold dict_entries. induction d as [|[k1 v1] d IH]; simpl; [done|].
  intros Hnd Hget. inversion Hnd as [|? ? Hnotin Hnd']; subst.
  destruct (String.eqb k1 k) eqn:E; simpl.
  - apply String.eqb_eq in E; subst k1. injection Hget as ->.
    f_equal. by apply (dict_entries_absent k d).
  - by apply IH.
Qed.

(** ** The events of each block *)

Lemma bind_eq {R A B} (m : M R A) (f : A -> M R B) (w : world R) :
  bind m f w =
  match res (m w) with
  | Ret a => Out (res (f a (final (m w)))) (final (f a (final (m w))))
                 (events (m w) ++ events (f a (final (m w))))
  | Raise e => Out (Raise e) (final (m w)) (events (m w))
  end.
Proof. reflexivity. Qed.

Lemma try_eq {R A} (m : M R A) (w : world R) :
  try m w = Out (Ret (res (m w))) (final (m w)) (events (m w)).
Proof. reflexivity. Qed.

Lemma print_eq {R} l (w : world R) : print l w = Out (Ret tt) w [EvPrint l].
Proof. reflexivity. Qed.

(** One step of a computation: unfold the outer bind and what it runs when
    that is a [try], a [print], a [ret] or a [raise]. *)
Ltac step :=
  rewrite bind_eq; rewrite ?try_eq, ?print_eq;
  cbn [res final events app ret raise].

Section Blocks.

Context {R : Type} (net : oracle R) (environ : gmap string string).

Lemma token_gains_trace (w : world R) :
  token_trace (events (token_gains net environ w)) (res (token_gains net environ w)).
Proof.
  unfold token_gains, getenv.
  destruct (environ !! "appId"); rewrite bind_eq;
    cbn [res final events app ret raise]; [|constructor].
  destruct (environ !! "appSecret"); rewrite bind_eq;
    cbn [res final events app ret raise]; [|constructor].
  destruct (environ !! "tenantId"); rewrite bind_eq;
    cbn [res final events app ret raise]; [|constructor].
  rewrite bind_eq. unfold requests_post_json.
  destruct (aad_post net _ _ (ext w)) as [[resp|e] x];
    cbn [res final events app ret raise]; [|constructor].
  destruct (access_token resp) eqn:Hresp; cbn [res final events app ret raise];
    by constructor.
Qed.

Lemma aws_env_dec : aws_env_ok environ \/ ~ aws_env_ok environ.
Proof.
  unfold aws_env_ok.
  destruct (environ !! "aws_bucket_key_id"); [|right; intros [[? ?] _]; done].
  destruct (environ !! "aws_bucket_secret_key"); [|right; intros [_ [? ?]]; done].
  left; eauto.
Qed.

Lemma requests_get_content_eq url h (w : world R) :
  exists r x, requests_get_content net url h w =
              Out r (World x (tmp w) (bucket w)) [EvGetContent url h r].
Proof.
  unfold requests_get_content.
  destruct (graph_get_content net url h (ext w)) as [r x]. eauto.
Qed.

Lemma fetch_content_trace url h file_metadata (w : world R) :
  content_fetch url h file_metadata
    (events (fetch_content net environ h file_metadata url w))
    (res (fetch_content net environ h file_metadata url w)).
Proof.
  unfold fetch_content. rewrite bind_eq, try_eq.
  destruct (requests_get_content_eq url h w) as (r & x & ->).
  cbn [res final events app].
  destruct r as [resp|e]; cbn [res final events app ret]; [constructor|].
  rewrite bind_eq. unfold lift, subscript.
  destruct (i_name file_metadata) as [n|] eqn:Hn;
    cbn [res final events app ret]; [|by constructor].
  rewrite !bind_eq. cbn [res final events app ret print].
  match goal with |- context [token_gains net environ ?w1] =>
    pose proof (token_gains_trace w1) as Ht;
    destruct (token_gains net environ w1) as [[t|e'] wt evt] end;
    cbn [res final events app] in *.
  - destruct (requests_get_content_eq url (bearer_headers t) wt) as (r & x' & ->).
    cbn [res final events app].
    by apply content_retried.
  - by apply content_token_failed.
Qed.

Lemma open_write_cases path c (w : world R) :
  (exists e x, open_write net path c w =
     Out (Raise e) (World x (tmp w) (bucket w)) [EvWrite path c (Raise e)]) \/
  (exists x, open_write net path c w =
     Out (Ret tt) (World x (<[path := c]> (tmp w)) (bucket w)) [EvWrite path c (Ret tt)]).
Proof.
  unfold open_write. destruct (io_fault net (IoWrite path) (ext w)) as [[e|] x]; eauto.
Qed.

Lemma os_remove_cases path (w : world R) :
  (exists e x, os_remove net path w =
     Out (Raise e) (World x (tmp w) (bucket w)) [EvRemove path (Raise e)]) \/
  (exists x, is_Some (tmp w !! path) /\ os_remove net path w =
     Out (Ret tt) (World x (delete path (tmp w)) (bucket w)) [EvRemove path (Ret tt)]).
Proof.
  unfold os_remove. destruct (io_fault net (IoRemove path) (ext w)) as [[e|] x]; eauto.
  destruct (tmp w !! path); eauto.
Qed.

Lemma stage_files_trace local_path resp file_metadata (w : world R) :
  res (stage_files net local_path resp file_metadata w) = Ret tt /\
  staged local_path resp file_metadata
    (events (stage_files net local_path resp file_metadata w)).
Proof.
  unfold stage_files. rewrite bind_eq, try_eq, bind_eq.
  destruct (open_write_cases local_path (Bytes resp) w) as [(e & x & ->)|(x & ->)];
    cbn [res final events app ret print bind]; [split; [done | constructor]|].
  match goal with |- context [open_write net ?p ?c ?w0] =>
    destruct (open_write_cases p c w0) as [(e & x' & ->)|(x' & ->)] end;
    cbn [res final events app ret print bind]; split; try done; constructor.
Qed.

Lemma cleanup_trace local_path (w : world R) :
  res (cleanup net local_path w) = Ret tt /\
  cleaned local_path (events (cleanup net local_path w)).
Proof.
  unfold cleanup. rewrite bind_eq, try_eq, bind_eq.
  destruct (os_remove_cases local_path w) as [(e & x & ->)|(x & _ & ->)];
    cbn [res final events app ret print bind]; [split; [done | constructor]|].
  match goal with |- context [os_remove net ?p ?w0] =>
    destruct (os_remove_cases p w0) as [(e & x' & ->)|(x' & _ & ->)] end;
    cbn [res final events app ret print bind]; split; try done; constructor.
Qed.

(** s3_ops "upload": unless the credentials are missing, it returns a flag
    and never raises. *)
Lemma s3_ops_upload_trace filename key (w : world R) :
  let o := s3_ops net environ filename key "upload" w in
  (aws_env_ok environ /\ exists b, res o = Ret b /\ upload_trace filename key (events o) b) \/
  (~ aws_env_ok environ /\ events o = [] /\ exists k, res o = Raise (KeyError k)).
Proof.
  cbv zeta. unfold aws_env_ok, s3_ops, getenv.
  destruct (environ !! "aws_bucket_key_id") as [k1|];
    [|right; split; [intros [[? ?] _]; done | split; [done | eexists; reflexivity]]].
  destruct (environ !! "aws_bucket_secret_key") as [k2|];
    [|right; split; [intros [_ [? ?]]; done | split; [done | eexists; reflexivity]]].
  left. split; [eauto|].
  rewrite !bind_eq. cbn [res final events app ret try String.eqb Ascii.eqb Bool.eqb].
  unfold upload_file.
  destruct (io_fault net _ (ext w)) as [[e|] x]; cbn [res final events app ret print bind].
  - exists false. split; [done | constructor].
  - destruct (tmp w !! filename); cbn [res final events app ret print bind].
    + exists true. split; [done | constructor].
    + exists false. split; [done | constructor].
Qed.

Lemma onedrive_download_trace h file_metadata (w : world R) :
  item_trace environ h file_metadata
    (events (onedrive_download net environ h file_metadata w))
    (res (onedrive_download net environ h file_metadata w)).
Proof.
  unfold onedrive_download. rewrite bind_eq. unfold lift. cbn [res final events app subscript].
  destruct (content_url file_metadata) as [url|e] eqn:Hurl; cbn [res final events app subscript]; [|by constructor].
  rewrite bind_eq.
  pose proof (fetch_content_trace url h file_metadata w) as Hf.
  destruct (fetch_content net environ h file_metadata url w) as [[resp|e] w1 evf];
    cbn [res final events app subscript] in *; [|by eapply item_fetch_failed].
  rewrite bind_eq. unfold lift. cbn [res final events app subscript].
  destruct (i_name file_metadata) as [n|] eqn:Hn; cbn [res final events app subscript];
    [|rewrite ?app_nil_r; by eapply item_no_name].
  rewrite bind_eq.
  destruct (stage_files_trace ("/tmp/" +:+ n) resp file_metadata w1) as [Hsr Hs].
  destruct (stage_files net ("/tmp/" +:+ n) resp file_metadata w1) as [rs w2 evs];
    cbn [res final events app subscript] in *; subst rs.
  rewrite bind_eq. unfold lift. cbn [res final events app subscript].
  destruct (filename_s3_of file_metadata n) as [key|e] eqn:Hkey; cbn [res final events app subscript].
  2:{ rewrite ?app_nil_r. eapply item_no_key; eauto. }
  rewrite bind_eq.
  destruct (s3_ops_upload_trace ("/tmp/" +:+ n) key w2)
    as [(Henv & b1 & Hr1 & Hu1)|(Henv & He1 & k & Hr1)];
    destruct (s3_ops net environ ("/tmp/" +:+ n) key "upload" w2) as [r1 w3 evu1];
    cbn [res final events app subscript] in *; subst r1.
  2:{ subst evu1. rewrite ?app_nil_r. eapply item_no_key; eauto. }
  rewrite bind_eq.
  destruct (s3_ops_upload_trace (("/tmp/" +:+ n) +:+ ".json") (key +:+ ".json") w3)
    as [(_ & b2 & Hr2 & Hu2)|(Henv' & _)]; [|done].
  destruct (s3_ops net environ (("/tmp/" +:+ n) +:+ ".json") (key +:+ ".json") "upload" w3)
    as [r2 w4 evu2]; cbn [res final events app subscript] in *; subst r2.
  destruct (cleanup_trace ("/tmp/" +:+ n) w4) as [Hcr Hc].
  destruct (cleanup net ("/tmp/" +:+ n) w4) as [rc w5 evc]; cbn [res final events app subscript] in *; subst rc.
  eapply item_done; eauto.
Qed.

Lemma transfer_changes_trace h change_array (w : world R) :
  transfer_trace environ h change_array
    (events (transfer_changes net environ h change_array w))
    (res (transfer_changes net environ h change_array w)).
Proof.
  revert w; induction change_array as [|[k value] rest IH]; intros w; simpl.
  - constructor.
  - rewrite bind_eq. destruct (i_file value) eqn:Hfile.
    + pose proof (onedrive_download_trace h value w) as Hi.
      destruct (onedrive_download net environ h value w) as [[[]|e] w1 ev1]; simpl in *.
      * apply transfer_next; auto.
      * by apply transfer_abort.
    + simpl. apply transfer_skip; auto.
Qed.

End Blocks.

Section Traversal.

Context {R : Type} (net : oracle R) (environ : gmap string string).

Lemma fetch_page_trace url h (w : world R) :
  page_fetch url h (events (fetch_page net url h w)) (res (fetch_page net url h w)).
Proof.
  unfold fetch_page, bind, try, requests_get_json, print, raise.
  destruct (graph_get_json net url h (ext w)) as [[p|e] x]; simpl; [constructor|].
  destruct (is_HTTPError e) eqn:He; simpl; [|by apply fetch_fatal].
  destruct (graph_get_json net url h x) as [r x']; simpl.
  by apply fetch_retry.
Qed.

(** s3_ops "upload" with the credentials configured: either the upload
    fails, the failure is logged and the bucket is as before, or the local
    file is stored under the key. *)
Lemma s3_ops_upload_cases filename key (w : world R) :
  aws_env_ok environ ->
  (exists e x, s3_ops net environ filename key "upload" w =
     Out (Ret false) (World x (tmp w) (bucket w))
       [EvUpload filename key (Raise e); EvPrint (LS3Error "upload" filename);
        EvPrint (LExn e)]) \/
  (exists c x, tmp w !! filename = Some c /\
     s3_ops net environ filename key "upload" w =
     Out (Ret true) (World x (tmp w) (<[key := c]> (bucket w)))
       [EvUpload filename key (Ret c); EvPrint (LS3Success "upload" filename)]).
Proof.
  intros [[k1 H1] [k2 H2]].
  unfold s3_ops, getenv. rewrite H1, H2.
  rewrite !bind_eq. cbn [res final events app ret try String.eqb Ascii.eqb Bool.eqb].
  unfold upload_file.
  destruct (io_fault net (IoUpload filename key) (ext w)) as [[e|] x];
    cbn [res final events app ret print bind]; [left; eauto|].
  destruct (tmp w !! filename) as [c|];
    cbn [res final events app ret print bind]; [right; eauto | left; eauto].
Qed.

Lemma s3_ops_no_env filename key action (w : world R) :
  ~ aws_env_ok environ ->
  exists k, s3_ops net environ filename key action w = Out (Raise (KeyError k)) w [].
Proof.
  unfold aws_env_ok, s3_ops, getenv. intros Hno.
  destruct (environ !! "aws_bucket_key_id") as [k1|]; [|eexists; reflexivity].
  destruct (environ !! "aws_bucket_secret_key") as [k2|]; [|eexists; reflexivity].
  destruct Hno. eauto.
Qed.

Lemma save_deltaLink_trace deltaLink (w : world R) :
  cursor_save deltaLink (events (save_deltaLink net environ deltaLink w))
    (res (save_deltaLink net environ deltaLink w)).
Proof.
  unfold save_deltaLink. rewrite bind_eq.
  destruct (open_write_cases net "/tmp/deltaLink.json" (DeltaLinkJson deltaLink) w)
    as [(e & x & ->)|(x & ->)]; cbn [res final events app]; [constructor|].
  rewrite bind_eq.
  destruct (aws_env_dec environ) as [Henv|Henv].
  2:{ destruct (s3_ops_no_env "/tmp/deltaLink.json" "deltaLink.json" "upload"
                  (World x (<["/tmp/deltaLink.json":=DeltaLinkJson deltaLink]> (tmp w))
                     (bucket w)) Henv) as [k ->].
      cbn [res final events app]. constructor. }
  destruct (s3_ops_upload_cases "/tmp/deltaLink.json" "deltaLink.json"
              (World x (<["/tmp/deltaLink.json":=DeltaLinkJson deltaLink]> (tmp w))
                 (bucket w)) Henv) as [(e & x' & ->)|(c & x' & Hc & ->)];
    cbn [res final events app ret tmp bucket] in *; [constructor|].
  rewrite lookup_insert_eq in Hc. injection Hc as <-.
  rewrite bind_eq, try_eq.
  match goal with |- context [os_remove net ?p ?w0] =>
    destruct (os_remove_cases net p w0) as [(e & x'' & ->)|(x'' & _ & ->)] end;
    cbn [res final events app ret print]; constructor.
Qed.

Lemma delta_gather_trace depth url h cs (w : world R) :
  gather environ h url cs
    (events (delta_gather net environ depth url h cs w))
    (res (delta_gather net environ depth url h cs w)).
Proof.
  revert url cs w; induction depth as [|depth IH]; intros url cs w.
  - simpl. constructor.
  - cbn [delta_gather]. rewrite bind_eq.
    pose proof (fetch_page_trace url h w) as Hf.
    destruct (fetch_page net url h w) as [[p|e] w1 evf];
      cbn [res final events app] in *; [|by apply gather_fetch_failed].
    pose proof (eq_refl (accumulate_page environ cs p)) as Hacc.
    unfold accumulate_page at 2 in Hacc.
    unfold getenv, lift, subscript.
    destruct (environ !! "target_folder_prod") as [tf|];
      rewrite bind_eq; cbn [res final events app ret raise];
      [|rewrite app_nil_r; by eapply gather_page_failed].
    destruct (environ !! "target_driveID_prod") as [td|];
      rewrite bind_eq; cbn [res final events app ret raise];
      [|rewrite app_nil_r; by eapply gather_page_failed].
    destruct (p_value p) as [value|];
      rewrite bind_eq; cbn [res final events app ret raise];
      [|rewrite app_nil_r; by eapply gather_page_failed].
    destruct (Nat.ltb 0 (List.length value));
      [|cbn [res final events app ret]; rewrite app_nil_r; by eapply gather_empty_page].
    destruct (filter_records tf td cs value) as [cs1|e];
      rewrite bind_eq; cbn [res final events app ret raise];
      [|rewrite app_nil_r; by eapply gather_page_failed].
    rewrite bind_eq.
    destruct (p_nextLink p) as [nextLink|] eqn:Hnext.
    + specialize (IH nextLink cs1 w1).
      destruct (delta_gather net environ depth nextLink h cs1 w1) as [[cs2|e] w2 evn];
        cbn [res final events app] in *; [|by eapply gather_next_failed].
      rewrite bind_eq.
      destruct (p_deltaLink p) as [deltaLink|] eqn:Hdelta.
      * pose proof (save_deltaLink_trace deltaLink w2) as Hs.
        destruct (save_deltaLink net environ deltaLink w2) as [r w3 evs];
          cbn [res final events app ret] in *.
        pose proof (gather_next_page environ h url cs evf p cs1 nextLink evn cs2 evs r
                      Hf Hacc Hnext IH) as G.
        rewrite Hdelta in G. specialize (G (link_present _ _ _ Hs)).
        destruct r as [[]|e]; cbn [res final events app ret]; rewrite ?app_nil_r; exact G.
      * cbn [res final events app ret]. rewrite ?app_nil_r.
        pose proof (gather_next_page environ h url cs evf p cs1 nextLink evn cs2 [] (Ret tt)
                      Hf Hacc Hnext IH) as G.
        rewrite Hdelta, app_nil_r in G. exact (G link_absent).
    + cbn [res final events app ret]. rewrite bind_eq.
      destruct (p_deltaLink p) as [deltaLink|] eqn:Hdelta.
      * pose proof (save_deltaLink_trace deltaLink w1) as Hs.
        destruct (save_deltaLink net environ deltaLink w1) as [r w3 evs];
          cbn [res final events app ret] in *.
        pose proof (gather_last_page environ h url cs evf p cs1 evs r Hf Hacc Hnext) as G.
        rewrite Hdelta in G. specialize (G (link_present _ _ _ Hs)).
        destruct r as [[]|e]; cbn [res final events app ret]; rewrite ?app_nil_r; exact G.
      * cbn [res final events app ret]. rewrite ?app_nil_r.
        pose proof (gather_last_page environ h url cs evf p cs1 [] (Ret tt) Hf Hacc Hnext) as G.
        rewrite Hdelta, app_nil_r in G. exact (G link_absent).
Qed.

End Traversal.

(** ** Computations that only emit events of one kind, or never raise *)

Section Emits.

Context {R : Type} (net : oracle R).

Variable Q : event -> Prop.

Lemma emits_ret {A} (a : A) : emits Q (ret (R:=R) a).
Proof. intros w. constructor. Qed.

Lemma emits_raise {A} e : emits Q (raise (R:=R) (A:=A) e).
Proof. intros w. constructor. Qed.

Lemma emits_lift {A} (r : result A) : emits Q (lift (R:=R) r).
Proof. intros w. constructor. Qed.

Lemma emits_print l : Q (EvPrint l) -> emits Q (print (R:=R) l).
Proof. intros H w. by repeat constructor. Qed.

Lemma emits_bind {A B} (m : M R A) (f : A -> M R B) :
  emits Q m -> (forall a, emits Q (f a)) -> emits Q (bind m f).
Proof.
  intros Hm Hf w. rewrite bind_eq. specialize (Hm w).
  destruct (res (m w)); cbn [events]; [|done].
  apply Forall_app. split; [done | apply Hf].
Qed.

Lemma emits_bind_raise {A B} e (f : A -> M R B) : emits Q (bind (raise e) f).
Proof. intros w. rewrite bind_eq. constructor. Qed.

Lemma emits_try {A} (m : M R A) : emits Q m -> emits Q (try m).
Proof. intros Hm w. apply Hm. Qed.

Lemma emits_download filename key :
  (forall r, Q (EvDownload filename key r)) -> emits Q (download_file net filename key).
Proof.
  intros H w. unfold download_file.
  destruct (io_fault net _ (ext w)) as [f x]. cbn [events]. by repeat constructor.
Qed.

Lemma emits_json_load path :
  (forall r, Q (EvRead path r)) -> emits Q (json_load net path).
Proof.
  intros H w. unfold json_load.
  destruct (io_fault net _ (ext w)) as [f x]. cbn [events]. by repeat constructor.
Qed.

Lemma emits_os_remove path :
  (forall r, Q (EvRemove path r)) -> emits Q (os_remove net path).
Proof.
  intros H w. unfold os_remove.
  destruct (io_fault net _ (ext w)) as [f x]. cbn [events]. by repeat constructor.
Qed.

Lemma emits_os_path_exists path : emits Q (os_path_exists (R:=R) path).
Proof. intros w. constructor. Qed.

Lemma total_ret {A} (a : A) : total (ret (R:=R) a).
Proof. intros w. by exists a. Qed.

Lemma total_print l : total (print (R:=R) l).
Proof. intros w. by exists tt. Qed.

Lemma total_try {A} (m : M R A) : total (try m).
Proof. intros w. by eexists. Qed.

Lemma total_os_path_exists path : total (os_path_exists (R:=R) path).
Proof. intros w. by eexists. Qed.

Lemma total_bind {A B} (m : M R A) (f : A -> M R B) :
  total m -> (forall a, total (f a)) -> total (bind m f).
Proof.
  intros Hm Hf w. rewrite bind_eq. destruct (Hm w) as [a ->].
  cbn [res]. apply Hf.
Qed.

End Emits.

Section Run.

Context {R : Type} (net : oracle R) (environ : gmap string string).

Lemma token_trace_prologue evs r : token_trace evs r -> Forall prologue_event evs.
Proof. intros H; inversion H; subst; repeat (constructor; try done). Qed.

Lemma s3_ops_download_prologue filename key :
  emits prologue_event (s3_ops net environ filename key "download").
Proof.
  unfold s3_ops, getenv.
  destruct (environ !! "aws_bucket_key_id"); [|apply emits_bind_raise].
  apply emits_bind; [apply emits_ret | intros _].
  destruct (environ !! "aws_bucket_secret_key"); [|apply emits_bind_raise].
  apply emits_bind; [apply emits_ret | intros _].
  apply emits_bind.
  - apply emits_try. cbn [String.eqb Ascii.eqb Bool.eqb].
    by apply emits_download.
  - intros [b|e]; repeat (apply emits_bind; [|intros ?]);
      try apply emits_ret; by apply emits_print.
Qed.

(** The block that loads the stored deltaLink only produces events of the
    prologue, and it catches every exception. *)
Lemma load_deltaLink_prologue delta_url :
  emits prologue_event (load_deltaLink net environ delta_url).
Proof.
  unfold load_deltaLink.
  apply emits_bind; [apply emits_try, s3_ops_download_prologue|].
  intros [[|]|e]; [|apply emits_ret|].
  - apply emits_bind; [apply emits_os_path_exists|]. intros [|]; [|apply emits_ret].
    apply emits_bind.
    + apply emits_try, emits_bind; [by apply emits_json_load|].
      intros [b|l|i]; first [apply emits_ret | apply emits_raise].
    + intros [l|e].
      * apply emits_bind; [by apply emits_try, emits_os_remove|].
        intros [u|e]; repeat (apply emits_bind; [|intros ?]);
          try apply emits_ret; by apply emits_print.
      * repeat (apply emits_bind; [|intros ?]); try apply emits_ret; by apply emits_print.
  - repeat (apply emits_bind; [|intros ?]); try apply emits_ret; by apply emits_print.
Qed.

Lemma load_deltaLink_total delta_url : total (load_deltaLink net environ delta_url).
Proof.
  unfold load_deltaLink.
  apply total_bind; [apply total_try|].
  intros [[|]|e]; [|apply total_ret|].
  - apply total_bind; [apply total_os_path_exists|]. intros [|]; [|apply total_ret].
    apply total_bind; [apply total_try|].
    intros [l|e].
    + apply total_bind; [apply total_try|].
      intros [u|e]; repeat (apply total_bind; [|intros ?]);
        first [apply total_ret | apply total_print].
    + repeat (apply total_bind; [|intros ?]); first [apply total_ret | apply total_print].
  - repeat (apply total_bind; [|intros ?]); first [apply total_ret | apply total_print].
Qed.

(** Every run of main has the shape described by [run_trace]. *)
Lemma main_trace recursion_limit (w : world R) :
  run_trace environ (events (main net environ recursion_limit w))
    (res (main net environ recursion_limit w)).
Proof.
  unfold main. step. step.
  pose proof (token_gains_trace net environ w) as Ht.
  apply token_trace_prologue in Ht.
  destruct (token_gains net environ w) as [[t|e] w1 evt]; cbn [res final events app] in *.
  - do 2 step. rewrite bind_eq. unfold getenv.
    destruct (environ !! "driveId_prod") as [driveID|];
      cbn [res final events app ret raise].
    2:{ rewrite ?app_nil_r. apply run_no_feed. by constructor. }
    rewrite bind_eq.
    match goal with |- context [load_deltaLink net environ ?u ?w0] =>
      pose proof (load_deltaLink_prologue u w0) as Hl;
      destruct (load_deltaLink_total u w0) as [u' Hu];
      destruct (load_deltaLink net environ u w0) as [rl w2 evl] end.
    cbn [res final events app] in *. subst rl.
    rewrite bind_eq.
    pose proof (delta_gather_trace net environ recursion_limit u' (bearer_headers t) [] w2)
      as Hg.
    destruct (delta_gather net environ recursion_limit u' (bearer_headers t) [] w2)
      as [[cs|e] w3 evg]; cbn [res final events app] in *.
    + rewrite bind_eq.
      pose proof (transfer_changes_trace net environ (bearer_headers t) cs w3) as Htr.
      destruct (transfer_changes net environ (bearer_headers t) cs w3) as [[[]|e] w4 evtr];
        cbn [res final events app print] in *.
      * pose proof (run_transfers environ (EvPrint LScriptStarted :: evt ++ evl)
                      (bearer_headers t) u' evg cs evtr (Ret tt)) as H.
        cbn [app] in H. rewrite <- !app_assoc in H. rewrite ?app_nil_r.
        apply H; auto. constructor; [done|]. by apply Forall_app.
      * pose proof (run_transfers environ (EvPrint LScriptStarted :: evt ++ evl)
                      (bearer_headers t) u' evg cs evtr (Raise e)) as H.
        cbn [app] in H. rewrite <- !app_assoc in H. rewrite ?app_nil_r in *.
        apply H; auto. constructor; [done|]. by apply Forall_app.
    + pose proof (run_feed_failed environ (EvPrint LScriptStarted :: evt ++ evl)
                    (bearer_headers t) u' evg e) as H.
      cbn [app] in H. rewrite <- !app_assoc in H. rewrite ?app_nil_r.
      apply H; auto. constructor; [done|]. by apply Forall_app.
  - do 4 step. rewrite ?app_nil_r.
    apply run_no_feed. constructor; [done|].
    apply Forall_app; split; [done | repeat (constructor; try done)].
Qed.

End Run.

(** ** Kinds of events of the blocks *)

Lemma str_app_assoc (a b c : string) : (a +:+ b) +:+ c = a +:+ b +:+ c.
Proof.
  induction a as [|x a IH]; [reflexivity|].
  change (String x ((a +:+ b) +:+ c) = String x (a +:+ b +:+ c)). by f_equal.
Qed.

Lemma str_app_length (a b : string) :
  String.length (a +:+ b) = String.length a + String.length b.
Proof.
  induction a as [|x a IH]; [reflexivity|].
  change (S (String.length (a +:+ b)) = S (String.length a + String.length b)).
  by f_equal.
Qed.

Lemma page_fetch_events url h evf r : page_fetch url h evf r -> Forall gather_event evf.
Proof. intros H; inversion H; subst; repeat (constructor; try done). Qed.

Lemma cursor_save_events deltaLink evs r :
  cursor_save deltaLink evs r -> Forall gather_event evs.
Proof. intros H; inversion H; subst; repeat (constructor; try done). Qed.

Lemma link_save_events o evs r : link_save o evs r -> Forall gather_event evs.
Proof. intros H; inversion H; subst; [constructor | by eapply cursor_save_events]. Qed.

Lemma gather_events environ h url cs evs r :
  gather environ h url cs evs r -> Forall gather_event evs.
Proof.
  induction 1; repeat apply Forall_app_2; eauto using page_fetch_events, link_save_events.
Qed.

Lemma token_trace_events evs r : token_trace evs r -> Forall transfer_event evs.
Proof. intros H; inversion H; subst; repeat (constructor; try done). Qed.

Lemma content_fetch_events url h fm evs r :
  content_fetch url h fm evs r -> Forall transfer_event evs.
Proof.
  intros H; inversion H; subst; repeat (constructor; try done).
  - by eapply token_trace_events.
  - apply Forall_app_2; [by eapply token_trace_events | repeat (constructor; try done)].
Qed.

Lemma staged_events local_path resp fm evs :
  staged local_path resp fm evs -> Forall transfer_event evs.
Proof. intros H; inversion H; subst; repeat (constructor; try done). Qed.

Lemma cleaned_events local_path evs : cleaned local_path evs -> Forall transfer_event evs.
Proof. intros H; inversion H; subst; repeat (constructor; try done). Qed.

Lemma upload_trace_events filename rel name evs b :
  upload_trace filename (rel +:+ "/" +:+ name) evs b -> Forall transfer_event evs.
Proof. intros H; inversion H; subst; repeat (constructor; try done); simpl; eauto. Qed.

Lemma filename_s3_of_Ret fm n key :
  filename_s3_of fm n = Ret key ->
  exists pr rel, i_parentReference fm = Some pr /\ pr_path_relative pr = Some rel /\
                 key = rel +:+ "/" +:+ n.
Proof.
  unfold filename_s3_of, subscript.
  destruct (i_parentReference fm) as [pr|]; [|done].
  destruct (pr_path_relative pr) as [rel|] eqn:Hrel; [|done].
  intros [= <-]. by exists pr, rel.
Qed.

Lemma item_trace_events environ h fm evs r :
  item_trace environ h fm evs r -> Forall transfer_event evs.
Proof.
  intros H; inversion H; subst; repeat apply Forall_app_2;
    eauto using content_fetch_events, staged_events, cleaned_events.
  - match goal with Hk : filename_s3_of _ _ = Ret _ |- _ =>
      apply filename_s3_of_Ret in Hk as (pr & rel & _ & _ & ->) end.
    by eapply upload_trace_events.
  - match goal with Hk : filename_s3_of _ _ = Ret _ |- _ =>
      apply filename_s3_of_Ret in Hk as (pr & rel & _ & _ & ->) end.
    rewrite str_app_assoc in *.
    eapply (upload_trace_events _ rel (n +:+ ".json")).
    match goal with Hu : upload_trace ?f ?k evu2 _ |- _ =>
      replace (rel +:+ "/" +:+ n +:+ ".json") with k; [exact Hu|] end.
    by rewrite !str_app_assoc.
Qed.

Lemma transfer_trace_events environ h cs evs r :
  transfer_trace environ h cs evs r -> Forall transfer_event evs.
Proof.
  induction 1; try apply Forall_app_2; eauto using item_trace_events.
Qed.

(** ** The relevance filter *)

Lemma relevant_test tf td i n p :
  i_name i = Some n -> parent_path i = Some p ->
  String.eqb n tf || str_contains td p = true <-> relevant tf td i.
Proof.
  intros Hn Hp. unfold relevant. rewrite orb_true_iff, String.eqb_eq, str_contains_spec.
  split.
  - intros [->|H]; exists p; auto.
  - intros (p' & Hp' & [H|H]); rewrite Hp in Hp'; injection Hp' as <-.
    + left. congruence.
    + by right.
Qed.

Lemma filter_record_relevant tf td cs i k n :
  i_id i = Some k -> i_name i = Some n -> relevant tf td i ->
  filter_record tf td cs i = Ret (dict_update k (stored i) cs).
Proof.
  intros Hk Hn Hrel. destruct (Hrel) as (p & Hp & _).
  apply (relevant_test tf td i n p Hn Hp) in Hrel.
  unfold filter_record, stored. rewrite Hp. unfold parent_path in Hp.
  destruct (i_parentReference i) as [pr|]; [|done].
  rewrite Hp, Hn, Hrel, Hk. reflexivity.
Qed.

Lemma filter_record_irrelevant tf td cs i n :
  i_name i = Some n -> ~ relevant tf td i -> is_Some (i_parentReference i) ->
  filter_record tf td cs i = Ret cs.
Proof.
  intros Hn Hrel [pr Hpr]. unfold filter_record. rewrite Hpr.
  destruct (pr_path pr) as [p|] eqn:Hp; [|done].
  rewrite Hn.
  destruct (String.eqb n tf || str_contains td p) eqn:Ht; [|done].
  destruct Hrel. apply (relevant_test tf td i n p); auto.
  unfold parent_path. by rewrite Hpr.
Qed.

Lemma filter_record_no_path tf td cs i :
  is_Some (i_parentReference i) -> parent_path i = None ->
  filter_record tf td cs i = Ret cs.
Proof.
  intros [pr Hpr]. unfold parent_path, filter_record. rewrite Hpr. by intros ->.
Qed.

Lemma filter_record_no_parent tf td cs i :
  i_parentReference i = None ->
  filter_record tf td cs i = Raise (KeyError "parentReference").
Proof. intros H. unfold filter_record. by rewrite H. Qed.

Section Unknown_action.

Context {R : Type} (net : oracle R) (environ : gmap string string).

(** C10 (amended): s3_ops called with an action that is neither "upload"
    nor "download".  With the two credential variables in the environment it
    performs no call on the bucket or on the local files, prints the success
    line and returns True.  With one of them missing it raises KeyError for
    the first that is missing, before it prints anything. *)
Theorem s3_ops_unknown_action filename_local filename_s3 action (w : world R) :
  action <> "upload" -> action <> "download" ->
  (aws_env_ok environ ->
   s3_ops net environ filename_local filename_s3 action w =
   Out (Ret true) w [EvPrint (LS3Success action filename_local)]) /\
  (environ !! "aws_bucket_key_id" = None ->
   s3_ops net environ filename_local filename_s3 action w =
   Out (Raise (KeyError "aws_bucket_key_id")) w []) /\
  (is_Some (environ !! "aws_bucket_key_id") ->
   environ !! "aws_bucket_secret_key" = None ->
   s3_ops net environ filename_local filename_s3 action w =
   Out (Raise (KeyError "aws_bucket_secret_key")) w []).
Proof.
  intros Hu Hd. split; [|split].
  - intros [[k1 H1] [k2 H2]].
    apply String.eqb_neq in Hu, Hd.
    unfold s3_ops, getenv. rewrite H1, H2.
    rewrite !bind_eq. cbn [res final events app ret]. rewrite try_eq, Hu, Hd.
    reflexivity.
  - intros H1. unfold s3_ops, getenv. by rewrite H1.
  - intros [k1 H1] H2. unfold s3_ops, getenv. by rewrite H1, H2.
Qed.

End Unknown_action.

Lemma runs_env_ok : aws_env_ok Runs.env.
Proof. split; eexists; reflexivity. Qed.

Lemma s3_ops_unknown_action_witness :
  "delete" <> "upload" /\ "delete" <> "download" /\ aws_env_ok Runs.env /\
  s3_ops Cases.repeated_net Runs.env "/tmp/a.txt" "a.txt" "delete" Runs.fresh =
  Out (Ret true) Runs.fresh [EvPrint (LS3Success "delete" "/tmp/a.txt")].
Proof.
  split; [discriminate|]. split; [discriminate|]. split; [exact runs_env_ok|].
  apply (s3_ops_unknown_action Cases.repeated_net Runs.env "/tmp/a.txt" "a.txt" "delete"
           Runs.fresh); [discriminate | discriminate | exact runs_env_ok].
Defined.

(** C10 as stated fails: without aws_bucket_secret_key in the environment
    the call with the action "delete" raises KeyError, prints nothing and
    returns nothing. *)
Lemma s3_ops_unknown_action_counterexample :
  "delete" <> "upload" /\ "delete" <> "download" /\
  Samples.env_no_credentials !! "aws_bucket_secret_key" = None /\
  s3_ops Cases.repeated_net Samples.env_no_credentials "/tmp/a.txt" "a.txt" "delete"
    Runs.fresh =
  Out (Raise (KeyError "aws_bucket_secret_key")) Runs.fresh [].
Proof. split; [discriminate|]. split; [discriminate|]. split; reflexivity. Qed.

(** ** The relative path and the keys of the uploads *)

Lemma token_trace_no_upload evs r : token_trace evs r -> Forall (fun e => ~ is_upload e) evs.
Proof. intros H; inversion H; subst; repeat constructor; simpl; tauto. Qed.

Lemma content_fetch_no_upload url h fm evs r :
  content_fetch url h fm evs r -> Forall (fun e => ~ is_upload e) evs.
Proof.
  intros H; inversion H; subst; repeat constructor; simpl; try tauto.
  - by eapply token_trace_no_upload.
  - apply Forall_app_2; [by eapply token_trace_no_upload|].
    repeat constructor; simpl; tauto.
Qed.

Lemma staged_no_upload local_path resp fm evs :
  staged local_path resp fm evs -> Forall (fun e => ~ is_upload e) evs.
Proof. intros H; inversion H; subst; repeat constructor; simpl; tauto. Qed.

Lemma cleaned_no_upload local_path evs :
  cleaned local_path evs -> Forall (fun e => ~ is_upload e) evs.
Proof. intros H; inversion H; subst; repeat constructor; simpl; tauto. Qed.

Lemma no_upload_In evs f k r :
  Forall (fun e => ~ is_upload e) evs -> ~ In (EvUpload f k r) evs.
Proof. intros H Hin. rewrite List.Forall_forall in H. by apply (H _ Hin). Qed.

Lemma upload_trace_In filename key evs b f k r :
  upload_trace filename key evs b -> In (EvUpload f k r) evs -> f = filename /\ k = key.
Proof.
  intros H; inversion H; subst; simpl; intros [Hin|[Hin|Hin]];
    try discriminate; try (injection Hin; auto); try tauto.
  destruct Hin; [discriminate | tauto].
Qed.

Lemma upload_trace_attempt filename key evs b :
  upload_trace filename key evs b -> exists r, In (EvUpload filename key r) evs.
Proof. intros H; inversion H; subst; eexists; left; reflexivity. Qed.

(** Every upload of onedrive_download uses the key of line 78, or that key
    with the suffix ".json"; a call that returns has attempted both. *)
Lemma item_trace_uploads environ h fm evs r n key :
  item_trace environ h fm evs r ->
  i_name fm = Some n -> filename_s3_of fm n = Ret key ->
  (forall f k r0, In (EvUpload f k r0) evs ->
     (f = "/tmp/" +:+ n /\ k = key) \/
     (f = ("/tmp/" +:+ n) +:+ ".json" /\ k = key +:+ ".json")) /\
  (r = Ret tt -> exists r1 r2,
     In (EvUpload ("/tmp/" +:+ n) key r1) evs /\
     In (EvUpload (("/tmp/" +:+ n) +:+ ".json") (key +:+ ".json") r2) evs).
Proof.
  intros H Hn Hkey. inversion H; subst.
  - split; [intros ? ? ? [] | done].
  - split; [|done]. intros f k r0 Hin.
    by eapply no_upload_In in Hin; [|eapply content_fetch_no_upload].
  - congruence.
  - split; [|done]. intros f k r0 Hin. apply in_app_or in Hin as [Hin|Hin].
    + by eapply no_upload_In in Hin; [|eapply content_fetch_no_upload].
    + by eapply no_upload_In in Hin; [|eapply staged_no_upload].
  - assert (n0 = n) as -> by congruence. assert (key0 = key) as -> by congruence.
    split.
    + intros f k r0 Hin.
      apply in_app_or in Hin as [Hin|Hin];
        [by eapply no_upload_In in Hin; [|eapply content_fetch_no_upload]|].
      apply in_app_or in Hin as [Hin|Hin];
        [by eapply no_upload_In in Hin; [|eapply staged_no_upload]|].
      apply in_app_or in Hin as [Hin|Hin]; [left; by eapply upload_trace_In|].
      apply in_app_or in Hin as [Hin|Hin]; [right; by eapply upload_trace_In|].
      by eapply no_upload_In in Hin; [|eapply cleaned_no_upload].
    + intros _.
      match goal with H1 : upload_trace _ key _ _, H2 : upload_trace _ (key +:+ _) _ _ |- _ =>
        apply upload_trace_attempt in H1 as [r1 Hr1];
        apply upload_trace_attempt in H2 as [r2 Hr2] end.
      exists r1, r2. rewrite !in_app_iff. tauto.
Qed.

Lemma stored_path_relative i p :
  parent_path i = Some p ->
  exists pr, i_parentReference (stored i) = Some pr /\
             pr_path pr = Some p /\ pr_path_relative pr = Some (str_drop 80 p).
Proof.
  intros Hp. unfold stored. rewrite Hp. unfold parent_path, set_path_relative in *.
  destruct (i_parentReference i) as [pr|]; [|done]. simpl. eauto.
Qed.

Lemma stored_name i : i_name (stored i) = i_name i.
Proof.
  unfold stored, set_path_relative. destruct (parent_path i); [|done].
  by destruct (i_parentReference i).
Qed.

Lemma stored_id i : i_id (stored i) = i_id i.
Proof.
  unfold stored, set_path_relative. destruct (parent_path i); [|done].
  by destruct (i_parentReference i).
Qed.

Section Relative_path.

Context {R : Type} (net : oracle R) (environ : gmap string string).

(** C6: for an accepted record the relative path is its parent path without
    the first 80 characters: what follows them when the path has more, and
    the empty text when it has not.  It is stored on the record under
    'path_relative'; the upload key of the record is always defined, it is
    "<relative path>/<name>", and the uploads of the record use that key and
    that key with ".json" added. *)
Theorem path_relative_derivation tf td cs i k n p :
  i_id i = Some k -> i_name i = Some n -> parent_path i = Some p ->
  relevant tf td i ->
  let rel := str_drop 80 p in
  filter_record tf td cs i = Ret (dict_update k (stored i) cs) /\
  (exists pr, i_parentReference (stored i) = Some pr /\
              pr_path pr = Some p /\ pr_path_relative pr = Some rel) /\
  (forall front back,
     p = front +:+ back -> str_len front = 80 -> continues back = false -> rel = back) /\
  (str_len p <= 80 -> rel = "") /\
  filename_s3_of (stored i) n = Ret (rel +:+ "/" +:+ n) /\
  (forall h (w : world R),
     let o := onedrive_download net environ h (stored i) w in
     (forall f key r, In (EvUpload f key r) (events o) ->
        key = rel +:+ "/" +:+ n \/ key = (rel +:+ "/" +:+ n) +:+ ".json") /\
     (res o = Ret tt -> exists r1 r2,
        In (EvUpload ("/tmp/" +:+ n) (rel +:+ "/" +:+ n) r1) (events o) /\
        In (EvUpload (("/tmp/" +:+ n) +:+ ".json") ((rel +:+ "/" +:+ n) +:+ ".json") r2)
           (events o))).
Proof.
  intros Hk Hn Hp Hrel rel.
  destruct (stored_path_relative i p Hp) as (pr & Hpr & Hpath & Hrelp).
  assert (filename_s3_of (stored i) n = Ret (rel +:+ "/" +:+ n)) as Hkey.
  { unfold filename_s3_of, subscript. by rewrite Hpr, Hrelp. }
  split; [by eapply filter_record_relevant|].
  split; [by exists pr|].
  split.
  { intros front back -> Hlen Hback. subst rel. rewrite <- Hlen. by apply str_drop_app. }
  split; [by apply str_drop_short|].
  split; [exact Hkey|].
  intros h w o.
  assert (i_name (stored i) = Some n) as Hn' by (by rewrite stored_name).
  destruct (item_trace_uploads environ h (stored i) (events o) (res o) n _
              (onedrive_download_trace net environ h (stored i) w) Hn' Hkey)
    as [Hall Hboth].
  split; [|exact Hboth].
  intros f key r Hin. destruct (Hall f key r Hin) as [[_ ->]|[_ ->]]; auto.
Qed.

End Relative_path.

Lemma wide_item_relevant : relevant "Invoices" Samples.wide_drive Samples.wide_item.
Proof.
  exists (Samples.wide_root +:+ "/Invoices/2024"). split; [reflexivity|]. right.
  by exists "/drives/", "/root:/Invoices/2024".
Qed.

(** A parent path whose first 80 characters hold one of three bytes: the
    relative path starts after 80 characters, that is after 82 bytes. *)
Lemma path_relative_derivation_witness :
  i_id Samples.wide_item = Some "W" /\ i_name Samples.wide_item = Some "w.txt" /\
  parent_path Samples.wide_item = Some (Samples.wide_root +:+ "/Invoices/2024") /\
  relevant "Invoices" Samples.wide_drive Samples.wide_item /\
  str_len Samples.wide_root = 80 /\ String.length Samples.wide_root = 82 /\
  filter_record "Invoices" Samples.wide_drive [] Samples.wide_item =
    Ret [("W", stored Samples.wide_item)] /\
  str_drop 80 (Samples.wide_root +:+ "/Invoices/2024") = "/Invoices/2024" /\
  filename_s3_of (stored Samples.wide_item) "w.txt" = Ret "/Invoices/2024/w.txt".
Proof.
  assert (str_len Samples.wide_root = 80) as Hlen by (vm_compute; reflexivity).
  split; [reflexivity|]. split; [reflexivity|]. split; [reflexivity|].
  split; [exact wide_item_relevant|]. split; [exact Hlen|].
  split; [vm_compute; reflexivity|].
  destruct (path_relative_derivation Cases.repeated_net Runs.env "Invoices"
              Samples.wide_drive [] Samples.wide_item "W" "w.txt"
              (Samples.wide_root +:+ "/Invoices/2024")
              eq_refl eq_refl eq_refl wide_item_relevant) as (Hf & _ & Hdrop & _ & Hkey & _).
  split; [exact Hf|].
  pose proof (Hdrop Samples.wide_root "/Invoices/2024" eq_refl Hlen eq_refl) as Hd.
  split; [exact Hd|]. rewrite Hd in Hkey. exact Hkey.
Defined.

(** ** Pages with a record that has no parentReference *)

Lemma Forall_In {A} (Q : A -> Prop) (l : list A) (x : A) : Forall Q l -> In x l -> Q x.
Proof. rewrite List.Forall_forall. auto. Qed.

Lemma filter_records_bad tf td cs v i :
  In i v -> i_parentReference i = None -> exists e, filter_records tf td cs v = Raise e.
Proof.
  revert cs; induction v as [|j v IH]; intros cs Hin Hbad; [done|].
  simpl. destruct Hin as [->|Hin].
  - rewrite filter_record_no_parent by done. eauto.
  - destruct (filter_record tf td cs j); eauto.
Qed.

Lemma accumulate_page_bad environ cs p v i :
  p_value p = Some v -> In i v -> i_parentReference i = None ->
  exists e, accumulate_page environ cs p = Raise e.
Proof.
  intros Hv Hin Hbad. unfold accumulate_page. rewrite Hv.
  destruct (environ !! "target_folder_prod") as [tf|]; [|eauto].
  destruct (environ !! "target_driveID_prod") as [td|]; [|eauto].
  destruct v as [|j v]; [done|]. cbn [List.length Nat.ltb Nat.leb].
  destruct (filter_records_bad tf td cs (j :: v) i Hin Hbad) as [e ->]. eauto.
Qed.

(** The page a call works on is the one page its requests returned. *)
Lemma page_fetch_In url h evf r u' h' p :
  page_fetch url h evf r -> In (EvGetFeed u' h' (Ret p)) evf -> r = Ret p.
Proof.
  intros H; inversion H; subst; simpl.
  - intros [[=]|[]]. by subst.
  - intros [[=]|[]].
  - intros [[=]|[[=]|[[=]|[[=]|[]]]]]. by subst.
Qed.

Lemma link_save_no_feed o evs r u h x :
  link_save o evs r -> ~ In (EvGetFeed u h x) evs.
Proof.
  intros H Hin. inversion H as [|? ? ? Hs]; subst; [done|].
  inversion Hs; subst; simpl in Hin; intuition discriminate.
Qed.

Lemma gather_bad environ h url cs evs r :
  gather environ h url cs evs r ->
  forall u' h' p v i,
    In (EvGetFeed u' h' (Ret p)) evs -> p_value p = Some v -> In i v ->
    i_parentReference i = None -> exists e, r = Raise e.
Proof.
  induction 1 as [ | | |url cs evf p Hf Hacc|url cs evf p cs1 evs r Hf Hacc Hnext Hs|
                  |url cs evf p cs1 nextLink evn cs2 evs r Hf Hacc Hnext Hg IH Hs];
    intros u' h' p0 v i Hin Hv Hi Hbad; eauto.
  - apply (page_fetch_In _ _ _ _ _ _ _ Hf) in Hin as [= <-].
    destruct (accumulate_page_bad environ cs p v i Hv Hi Hbad) as [e He]. congruence.
  - apply in_app_or in Hin as [Hin|Hin].
    + apply (page_fetch_In _ _ _ _ _ _ _ Hf) in Hin as [= <-].
      destruct (accumulate_page_bad environ cs p v i Hv Hi Hbad) as [e He]. congruence.
    + by apply (link_save_no_feed _ _ _ _ _ _ Hs) in Hin.
  - apply in_app_or in Hin as [Hin|Hin].
    + apply (page_fetch_In _ _ _ _ _ _ _ Hf) in Hin as [= <-].
      destruct (accumulate_page_bad environ cs p v i Hv Hi Hbad) as [e He]. congruence.
    + apply in_app_or in Hin as [Hin|Hin].
      * destruct (IH _ _ _ _ _ Hin Hv Hi Hbad) as [e He]. discriminate.
      * by apply (link_save_no_feed _ _ _ _ _ _ Hs) in Hin.
Qed.

Lemma run_bad environ evs r :
  run_trace environ evs r ->
  forall url h p v i,
    In (EvGetFeed url h (Ret p)) evs -> p_value p = Some v -> In i v ->
    i_parentReference i = None ->
    (exists e, r = Raise e) /\
    ~ In (EvPrint LScriptExited) evs /\
    Forall (fun e => ~ is_content_fetch e) evs.
Proof.
  intros Hrun url h p v i Hin Hv Hi Hbad.
  destruct Hrun as [evp e Hp|evp h0 u0 evg e Hp Hg|evp h0 u0 evg cs evt r Hp Hg Ht].
  - by apply (Forall_In _ _ _ Hp) in Hin.
  - split; [eauto|]. split.
    + intros Hx. apply in_app_or in Hx as [Hx|Hx].
      * by apply (Forall_In _ _ _ Hp) in Hx.
      * by apply (Forall_In _ _ _ (gather_events _ _ _ _ _ _ Hg)) in Hx.
    + apply Forall_app_2.
      * eapply Forall_impl; [exact Hp|]. intros [] ?; simpl in *; tauto.
      * eapply Forall_impl; [exact (gather_events _ _ _ _ _ _ Hg)|].
        intros [] ?; simpl in *; tauto.
  - exfalso.
    apply in_app_or in Hin as [Hin|Hin]; [by apply (Forall_In _ _ _ Hp) in Hin|].
    apply in_app_or in Hin as [Hin|Hin].
    + destruct (gather_bad _ _ _ _ _ _ Hg _ _ _ _ _ Hin Hv Hi Hbad) as [e He]. discriminate.
    + apply in_app_or in Hin as [Hin|Hin].
      * by apply (Forall_In _ _ _ (transfer_trace_events _ _ _ _ _ Ht)) in Hin.
      * destruct r; simpl in Hin; intuition discriminate.
Qed.

Section Missing_parent.

Context {R : Type} (net : oracle R) (environ : gmap string string).

(** C9: a record without the parentReference key makes the filter raise
    KeyError instead of skipping the record, and a run that reads a page
    with such a record ends with an exception: it transfers no item and does
    not print the exit line. *)
Theorem missing_parentReference_aborts recursion_limit (w : world R) url h p v i :
  i_parentReference i = None ->
  p_value p = Some v -> In i v ->
  let o := main net environ recursion_limit w in
  (forall tf td cs, filter_record tf td cs i = Raise (KeyError "parentReference")) /\
  (In (EvGetFeed url h (Ret p)) (events o) ->
     (exists e, res o = Raise e) /\
     ~ In (EvPrint LScriptExited) (events o) /\
     Forall (fun e => ~ is_content_fetch e) (events o)).
Proof.
  intros Hbad Hv Hi o. split; [intros; by apply filter_record_no_parent|].
  intros Hin.
  exact (run_bad _ _ _ (main_trace net environ recursion_limit w) _ _ _ _ _ Hin Hv Hi Hbad).
Qed.

End Missing_parent.

Lemma missing_parentReference_aborts_witness :
  let o := main Cases.bad_net Runs.env 10 Runs.fresh in
  i_parentReference Runs.item_no_parent = None /\
  In (EvGetFeed Runs.start_url Runs.the_headers (Ret Cases.bad_page)) (events o) /\
  res o = Raise (KeyError "parentReference") /\
  ~ In (EvPrint LScriptExited) (events o).
Proof.
  intros o.
  assert (In (EvGetFeed Runs.start_url Runs.the_headers (Ret Cases.bad_page)) (events o))
    as Hin by (vm_compute; tauto).
  destruct (missing_parentReference_aborts Cases.bad_net Runs.env 10 Runs.fresh
              Runs.start_url Runs.the_headers Cases.bad_page
              [Runs.item_a; Runs.item_no_parent] Runs.item_no_parent
              eq_refl eq_refl (or_intror (or_introl eq_refl))) as [_ H].
  destruct (H Hin) as (_ & Hexit & _).
  split; [reflexivity|]. split; [exact Hin|]. split; [|exact Hexit].
  vm_compute. reflexivity.
Defined.

(** ** The change dictionary of a traversal *)

Lemma filter_record_Ret tf td cs j cs1 :
  filter_record tf td cs j = Ret cs1 ->
  cs1 = cs \/
  exists k, i_id j = Some k /\ relevant tf td j /\ cs1 = dict_update k (stored j) cs.
Proof.
  unfold filter_record, stored, parent_path, relevant.
  destruct (i_parentReference j) as [pr|] eqn:Hpr; [|done].
  destruct (pr_path pr) as [p|] eqn:Hp; [|intros [= <-]; by left].
  destruct (i_name j) as [n|] eqn:Hn; [|done].
  destruct (String.eqb n tf || str_contains td p) eqn:Ht; [|intros [= <-]; by left].
  destruct (i_id j) as [k|] eqn:Hk; [|done].
  intros [= <-]. right. exists k. split; [done|]. split; [|done].
  exists p. split; [unfold parent_path; by rewrite Hpr|].
  apply orb_true_iff in Ht as [Ht|Ht].
  - left. apply String.eqb_eq in Ht. by subst.
  - right. by apply str_contains_spec.
Qed.

Lemma filter_records_app tf td cs a b :
  filter_records tf td cs (a ++ b) =
  match filter_records tf td cs a with
  | Ret cs1 => filter_records tf td cs1 b
  | Raise e => Raise e
  end.
Proof.
  revert cs; induction a as [|j a IH]; intros cs; simpl; [done|].
  destruct (filter_record tf td cs j); [apply IH | done].
Qed.

Lemma filter_records_NoDup tf td cs l cs' :
  filter_records tf td cs l = Ret cs' ->
  List.NoDup (dict_keys cs) -> List.NoDup (dict_keys cs').
Proof.
  revert cs; induction l as [|j l IH]; intros cs; simpl; [by intros [= <-]|].
  destruct (filter_record tf td cs j) as [cs1|] eqn:Hj; [|done].
  intros Hl Hnd. apply (IH cs1 Hl).
  apply filter_record_Ret in Hj as [->|(k & _ & _ & ->)]; [done|].
  by apply dict_update_NoDup.
Qed.

(** Records that are not accepted leave the entry of a key alone. *)
Lemma filter_records_untouched tf td cs l cs' k :
  filter_records tf td cs l = Ret cs' ->
  (forall j, In j l -> i_id j = Some k -> ~ relevant tf td j) ->
  dict_get k cs' = dict_get k cs.
Proof.
  revert cs; induction l as [|j l IH]; intros cs; simpl; [by intros [= <-]|].
  destruct (filter_record tf td cs j) as [cs1|] eqn:Hj; [|done].
  intros Hl Hno. rewrite (IH cs1 Hl) by (intros; apply Hno; auto).
  apply filter_record_Ret in Hj as [->|(k' & Hk' & Hrel & ->)]; [done|].
  apply dict_get_update_ne. intros ->. by apply (Hno j); auto.
Qed.

Lemma filter_record_Ret_name tf td cs i cs1 p :
  filter_record tf td cs i = Ret cs1 -> parent_path i = Some p ->
  exists n, i_name i = Some n.
Proof.
  unfold filter_record, parent_path.
  destruct (i_parentReference i) as [pr|]; [|done].
  intros H Hp. rewrite Hp in H. destruct (i_name i); [eauto | done].
Qed.

(** The entry of a key is the last accepted record with that id. *)
Lemma filter_records_last tf td cs front i back cs' k :
  filter_records tf td cs (front ++ i :: back) = Ret cs' ->
  i_id i = Some k -> relevant tf td i ->
  (forall j, In j back -> i_id j = Some k -> ~ relevant tf td j) ->
  dict_get k cs' = Some (stored i).
Proof.
  rewrite filter_records_app.
  destruct (filter_records tf td cs front) as [cs1|]; [|done]. simpl.
  destruct (filter_record tf td cs1 i) as [cs2|] eqn:Hi; [|done].
  intros Hback Hk Hrel Hno.
  rewrite (filter_records_untouched tf td cs2 back cs' k Hback Hno).
  destruct (Hrel) as (p & Hp & _).
  destruct (filter_record_Ret_name _ _ _ _ _ _ Hi Hp) as [n Hn].
  rewrite (filter_record_relevant tf td cs1 i k n Hk Hn Hrel) in Hi.
  injection Hi as <-. apply dict_get_update_eq.
Qed.

Lemma filter_records_keys tf td cs l cs' k :
  filter_records tf td cs l = Ret cs' -> In k (dict_keys cs') ->
  In k (dict_keys cs) \/ exists j, In j l /\ i_id j = Some k /\ relevant tf td j.
Proof.
  revert cs; induction l as [|j l IH]; intros cs; simpl; [intros [= <-]; auto|].
  destruct (filter_record tf td cs j) as [cs1|] eqn:Hj; [|done].
  intros Hl Hin. destruct (IH cs1 Hl Hin) as [Hin1|(j' & ? & ? & ?)]; [|eauto 6].
  apply filter_record_Ret in Hj as [->|(k' & Hk' & Hrel & ->)]; [auto|].
  apply dict_keys_update_in in Hin1 as [->|Hin1]; eauto 6.
Qed.

Lemma records_of_app a b : records_of (a ++ b) = records_of a ++ records_of b.
Proof. apply flat_map_app. Qed.

Lemma page_fetch_records url h evf p :
  page_fetch url h evf (Ret p) -> records_of evf = page_records p.
Proof.
  intros H; inversion H; subst; unfold records_of; simpl; by rewrite ?app_nil_r.
Qed.

Lemma link_save_records o evs r : link_save o evs r -> records_of evs = [].
Proof.
  intros H; inversion H as [|? ? ? Hs]; subst; [done|]. by inversion Hs.
Qed.

Lemma accumulate_page_Ret environ tf td cs p o :
  environ !! "target_folder_prod" = Some tf ->
  environ !! "target_driveID_prod" = Some td ->
  accumulate_page environ cs p = Ret o ->
  filter_records tf td cs (page_records p) = Ret (default cs o).
Proof.
  unfold accumulate_page, page_records. intros -> ->.
  destruct (p_value p) as [v|]; [|done].
  destruct v as [|j v]; [by intros [= <-]|]. cbn [List.length Nat.ltb Nat.leb].
  destruct (filter_records tf td cs (j :: v)); [by intros [= <-] | done].
Qed.

(** The change dictionary a traversal returns is the result of the filter
    on the records of all the pages it read, in the order it read them. *)
Lemma gather_records environ h url cs evs r tf td :
  environ !! "target_folder_prod" = Some tf ->
  environ !! "target_driveID_prod" = Some td ->
  gather environ h url cs evs r ->
  forall cs', r = Ret cs' -> filter_records tf td cs (records_of evs) = Ret cs'.
Proof.
  intros Htf Htd.
  induction 1 as [ | | |url cs evf p Hf Hacc|url cs evf p cs1 evs r Hf Hacc Hnext Hs|
                  |url cs evf p cs1 nextLink evn cs2 evs r Hf Hacc Hnext Hg IH Hs];
    intros cs' Hr; try discriminate.
  - injection Hr as <-. rewrite (page_fetch_records _ _ _ _ Hf).
    apply (accumulate_page_Ret environ tf td cs p None Htf Htd Hacc).
  - destruct r as [[]|]; [|done]. injection Hr as <-.
    rewrite records_of_app, (page_fetch_records _ _ _ _ Hf), (link_save_records _ _ _ Hs).
    rewrite app_nil_r.
    apply (accumulate_page_Ret environ tf td cs p (Some cs1) Htf Htd Hacc).
  - destruct r as [[]|]; [|done]. injection Hr as <-.
    rewrite !records_of_app, (page_fetch_records _ _ _ _ Hf), (link_save_records _ _ _ Hs).
    rewrite app_nil_r, filter_records_app.
    rewrite (accumulate_page_Ret environ tf td cs p (Some cs1) Htf Htd Hacc).
    by apply IH.
Qed.

Section Last_occurrence.

Context {R : Type} (net : oracle R) (environ : gmap string string).

(** C3 (amended): the change dictionary a traversal returns has at most one
    entry per id.  An id with an accepted record, one that passes the
    relevance filter, has exactly one entry: the last accepted record with
    that id, in the order the pages were read, as it is stored.  An id
    without an accepted record has no entry. *)
Theorem last_accepted_occurrence_wins depth url h (w : world R) tf td cs' :
  environ !! "target_folder_prod" = Some tf ->
  environ !! "target_driveID_prod" = Some td ->
  let o := delta_gather net environ depth url h [] w in
  res o = Ret cs' ->
  List.NoDup (dict_keys cs') /\
  (forall k front i back,
     records_of (events o) = front ++ i :: back ->
     i_id i = Some k -> relevant tf td i ->
     (forall j, In j back -> i_id j = Some k -> ~ relevant tf td j) ->
     dict_entries k cs' = [stored i]) /\
  (forall k,
     (forall j, In j (records_of (events o)) -> i_id j = Some k -> ~ relevant tf td j) ->
     dict_entries k cs' = []).
Proof.
  intros Htf Htd o Hres.
  pose proof (gather_records environ h url [] (events o) (res o) tf td Htf Htd
                (delta_gather_trace net environ depth url h [] w) cs' Hres) as Hfold.
  assert (List.NoDup (dict_keys cs')) as Hnd.
  { eapply filter_records_NoDup; [exact Hfold | constructor]. }
  split; [exact Hnd|]. split.
  - intros k front i back Hsplit Hk Hrel Hno. rewrite Hsplit in Hfold.
    apply dict_entries_unique; [exact Hnd|].
    by eapply filter_records_last.
  - intros k Hno. apply dict_entries_absent. intros Hin.
    destruct (filter_records_keys _ _ _ _ _ k Hfold Hin) as [[]|(j & Hj & Hk & Hrel)].
    by apply (Hno j).
Qed.

End Last_occurrence.

Lemma item_a_moved_relevant : relevant "Invoices" Runs.drive Cases.item_a_moved.
Proof.
  exists (Runs.root_path +:+ "/Invoices/2024"). split; [reflexivity|].
  right. exists "/drives/", "/root:/Invoices/2024". reflexivity.
Qed.

Lemma last_accepted_occurrence_wins_witness :
  let o := delta_gather Cases.two_page_net Runs.env 10 Runs.start_url Runs.the_headers []
             Runs.fresh in
  records_of (events o) = [Runs.item_a; Runs.item_b; Cases.item_a_moved] /\
  dict_entries "A" [("A", stored Cases.item_a_moved); ("B", stored Runs.item_b)] =
    [stored Cases.item_a_moved].
Proof.
  intros o. split; [vm_compute; reflexivity|].
  destruct (last_accepted_occurrence_wins Cases.two_page_net Runs.env 10 Runs.start_url
              Runs.the_headers Runs.fresh "Invoices" Runs.drive
              [("A", stored Cases.item_a_moved); ("B", stored Runs.item_b)]
              eq_refl eq_refl) as (_ & Hlast & _); [vm_compute; reflexivity|].
  apply (Hlast "A" [Runs.item_a; Runs.item_b] Cases.item_a_moved []);
    [vm_compute; reflexivity | reflexivity | exact item_a_moved_relevant | intros j []].
Defined.

(** C3 as stated fails: the last record of id "A" in the feed carries no
    parent path and is filtered out, so the entry of "A" is the earlier
    record, not the last occurrence of the id. *)
Lemma last_occurrence_counterexample :
  let o := delta_gather Cases.repeated_net Runs.env 10 Runs.start_url Runs.the_headers []
             Runs.fresh in
  records_of (events o) = [Runs.item_a; Runs.item_a_no_path] /\
  i_id Runs.item_a_no_path = Some "A" /\
  res o = Ret [("A", stored Runs.item_a)] /\
  stored Runs.item_a <> Runs.item_a_no_path /\
  stored Runs.item_a <> stored Runs.item_a_no_path.
Proof.
  vm_compute. repeat split; discriminate.
Qed.

(** ** Which records enter the change dictionary *)

Lemma dict_keys_update {V} k (v : V) (d : dict V) :
  exists new, dict_keys (dict_update k v d) = dict_keys d ++ new.
Proof.
  induction d as [|[k' v'] d [new IH]]; [by exists [k]|].
  cbn [dict_update]. destruct (String.eqb k' k) eqn:Hk.
  - apply eqb_string_true in Hk as ->. exists []. by rewrite app_nil_r.
  - exists new. unfold dict_keys in *. cbn [map fst app]. by rewrite IH.
Qed.

Lemma filter_records_keys_prefix tf td cs l cs' :
  filter_records tf td cs l = Ret cs' -> exists new, dict_keys cs' = dict_keys cs ++ new.
Proof.
  revert cs. induction l as [|j l IH]; intros cs; simpl.
  { intros [= <-]. exists []. by rewrite app_nil_r. }
  destruct (filter_record tf td cs j) as [cs1|e] eqn:Hj; [|done].
  intros Hl. destruct (IH _ Hl) as [new Hnew].
  destruct (filter_record_Ret _ _ _ _ _ Hj) as [->|(k & _ & _ & ->)]; [eauto|].
  destruct (dict_keys_update k (stored j) cs) as [new' Hnew'].
  exists (new' ++ new). by rewrite Hnew, Hnew', app_assoc.
Qed.

Lemma dict_keys_update_mem {V} k (v : V) (d : dict V) :
  In k (dict_keys (dict_update k v d)).
Proof.
  induction d as [|[k' v'] d IH]; [simpl; auto|].
  cbn [dict_update]. destruct (String.eqb k' k) eqn:Hk; simpl; auto.
Qed.

Lemma filter_record_no_name tf td cs i p :
  parent_path i = Some p -> i_name i = None ->
  filter_record tf td cs i = Raise (KeyError "name").
Proof.
  unfold parent_path, filter_record. destruct (i_parentReference i) as [pr|]; [|done].
  by intros -> ->.
Qed.

Lemma filter_record_no_id tf td cs i n :
  relevant tf td i -> i_name i = Some n -> i_id i = None ->
  filter_record tf td cs i = Raise (KeyError "id").
Proof.
  intros Hrel Hn Hk. destruct (Hrel) as (p & Hp & _).
  apply (relevant_test tf td i n p Hn Hp) in Hrel.
  unfold filter_record. unfold parent_path in Hp.
  destruct (i_parentReference i) as [pr|]; [|done].
  by rewrite Hp, Hn, Hrel, Hk.
Qed.

(** Relevance can be decided on a record with a name. *)
Lemma relevant_dec tf td i n :
  i_name i = Some n -> relevant tf td i \/ ~ relevant tf td i.
Proof.
  intros Hn. destruct (parent_path i) as [p|] eqn:Hp.
  - destruct (String.eqb n tf || str_contains td p) eqn:Ht.
    + left. by apply (relevant_test tf td i n p).
    + right. intros Hrel. apply (relevant_test tf td i n p Hn Hp) in Hrel. congruence.
  - right. intros (p & Hp' & _). congruence.
Qed.

(** The body of the loop returns exactly on the records it can read. *)
Lemma filter_record_Ret_iff tf td cs i :
  (exists cs1, filter_record tf td cs i = Ret cs1) <-> readable tf td i.
Proof.
  split.
  - intros [cs1 Hf]. unfold readable.
    destruct (i_parentReference i) as [pr|] eqn:Hpr;
      [|by rewrite filter_record_no_parent in Hf].
    split; [eauto|].
    destruct (parent_path i) as [p|] eqn:Hp.
    + destruct (i_name i) as [n|] eqn:Hn;
        [|by rewrite (filter_record_no_name tf td cs i p) in Hf].
      split; [eauto|]. intros Hrel.
      destruct (i_id i) as [k|] eqn:Hk; [eauto|].
      by rewrite (filter_record_no_id tf td cs i n) in Hf.
    + split; [by intros [? ?]|]. intros (p & Hp' & _). congruence.
  - intros ([pr Hpr] & Hname & Hid).
    destruct (parent_path i) as [p|] eqn:Hp.
    + destruct (Hname (ltac:(eauto))) as [n Hn].
      destruct (relevant_dec tf td i n Hn) as [Hrel|Hrel].
      * destruct (Hid Hrel) as [k Hk]. eexists. by eapply filter_record_relevant.
      * exists cs. eapply filter_record_irrelevant; eauto.
    + exists cs. apply filter_record_no_path; eauto.
Qed.

(** The loop returns exactly on the lists of records it can read. *)
Lemma filter_records_Ret_iff tf td cs l :
  (exists cs1, filter_records tf td cs l = Ret cs1) <-> Forall (readable tf td) l.
Proof.
  revert cs. induction l as [|j l IH]; intros cs; cbn [filter_records].
  - split; [constructor | eauto].
  - split.
    + intros [cs1 Hl].
      destruct (filter_record tf td cs j) as [cs0|e] eqn:Hj; [|done].
      constructor; [apply (filter_record_Ret_iff tf td cs j); eauto|].
      apply (IH cs0). eauto.
    + intros Hall. inversion Hall as [|? ? Hj Hl]; subst.
      apply (filter_record_Ret_iff tf td cs j) in Hj as [cs0 ->].
      by apply IH.
Qed.

(** The keys after the loop are the keys before it and the ids of the
    relevant records. *)
Lemma filter_records_keys_iff tf td cs l cs' k :
  filter_records tf td cs l = Ret cs' ->
  In k (dict_keys cs') <->
  In k (dict_keys cs) \/ exists j, In j l /\ i_id j = Some k /\ relevant tf td j.
Proof.
  intros Hl. split; [by eapply filter_records_keys|].
  revert cs Hl. induction l as [|j l IH]; intros cs; cbn [filter_records].
  - intros [= <-] [Hin|(j & [] & _)]. done.
  - destruct (filter_record tf td cs j) as [cs0|e] eqn:Hj; [|done].
    intros Hl Hin. apply (IH cs0 Hl).
    destruct Hin as [Hin|(j' & [<-|Hj'] & Hk & Hrel)]; [| |right; eauto].
    + left. destruct (filter_record_Ret _ _ _ _ _ Hj) as [->|(k0 & _ & _ & ->)]; [done|].
      destruct (dict_keys_update k0 (stored j) cs) as [new ->].
      apply in_app_iff. by left.
    + left. destruct (Hrel) as (p & Hp & _).
      destruct (filter_record_Ret_name _ _ _ _ _ _ Hj Hp) as [n Hn].
      rewrite (filter_record_relevant tf td cs j k n Hk Hn Hrel) in Hj.
      injection Hj as <-. apply dict_keys_update_mem.
Qed.

Section Relevance.

Context {R : Type} (net : oracle R) (environ : gmap string string).

(** C5 (amended): what the loop of delta_gather does with one record, with
    a page and with a feed.  A record without a parentReference raises, a
    record whose parentReference carries no path is left out, a record with a
    path and no name raises, a record with a name that is not relevant is
    left out, a relevant record without an id raises, and a relevant record
    with its name and id is stored under its id.  The loop over a list of
    records returns exactly when it can read each of them, and then the keys
    of the dictionary are the keys it had and the ids of the relevant
    records.  A traversal that returns read only records it can read, and the
    keys of its dictionary are the ids of the relevant records of the pages
    it read. *)
Theorem filter_record_relevance depth url h (w : world R) tf td cs' :
  environ !! "target_folder_prod" = Some tf ->
  environ !! "target_driveID_prod" = Some td ->
  let o := delta_gather net environ depth url h [] w in
  res o = Ret cs' ->
  (forall k, In k (dict_keys cs') <->
             exists j, In j (records_of (events o)) /\ i_id j = Some k /\ relevant tf td j) /\
  Forall (readable tf td) (records_of (events o)) /\
  (forall cs l, (exists cs1, filter_records tf td cs l = Ret cs1) <->
                Forall (readable tf td) l) /\
  (forall cs l cs1 k, filter_records tf td cs l = Ret cs1 ->
     (In k (dict_keys cs1) <->
      In k (dict_keys cs) \/ exists j, In j l /\ i_id j = Some k /\ relevant tf td j)) /\
  (forall cs i,
     (i_parentReference i = None ->
      filter_record tf td cs i = Raise (KeyError "parentReference")) /\
     (is_Some (i_parentReference i) -> parent_path i = None ->
      ~ relevant tf td i /\ filter_record tf td cs i = Ret cs) /\
     (is_Some (parent_path i) -> i_name i = None ->
      filter_record tf td cs i = Raise (KeyError "name")) /\
     (is_Some (parent_path i) -> is_Some (i_name i) -> ~ relevant tf td i ->
      filter_record tf td cs i = Ret cs) /\
     (relevant tf td i -> is_Some (i_name i) -> i_id i = None ->
      filter_record tf td cs i = Raise (KeyError "id")) /\
     (forall k, relevant tf td i -> is_Some (i_name i) -> i_id i = Some k ->
      filter_record tf td cs i = Ret (dict_update k (stored i) cs) /\
      dict_get k (dict_update k (stored i) cs) = Some (stored i))).
Proof.
  intros Htf Htd o Hres.
  pose proof (gather_records environ h url [] (events o) (res o) tf td Htf Htd
                (delta_gather_trace net environ depth url h [] w) cs' Hres) as Hfold.
  split; [|split; [|split; [|split]]].
  - intros k. rewrite (filter_records_keys_iff _ _ _ _ _ k Hfold). simpl. tauto.
  - apply (filter_records_Ret_iff tf td []). eauto.
  - intros cs l. apply filter_records_Ret_iff.
  - intros cs l cs1 k. apply filter_records_keys_iff.
  - intros cs i. split; [apply filter_record_no_parent|].
    split.
    { intros Hpr Hp. split; [|by apply filter_record_no_path].
      intros (p & Hp' & _). congruence. }
    split. { intros [p Hp] Hn. by eapply filter_record_no_name. }
    split.
    { intros [p Hp] [n Hn] Hrel. eapply filter_record_irrelevant; eauto.
      unfold parent_path in Hp. destruct (i_parentReference i); [eauto | done]. }
    split. { intros Hrel [n Hn] Hk. by eapply filter_record_no_id. }
    intros k Hrel [n Hn] Hk.
    split; [by eapply filter_record_relevant | apply dict_get_update_eq].
Qed.

End Relevance.

Lemma filter_record_relevance_witness :
  let o := delta_gather Cases.two_page_net Runs.env 10 Runs.start_url Runs.the_headers []
             Runs.fresh in
  Runs.env !! "target_folder_prod" = Some "Invoices" /\
  Runs.env !! "target_driveID_prod" = Some Runs.drive /\
  res o = Ret [("A", stored Cases.item_a_moved); ("B", stored Runs.item_b)] /\
  records_of (events o) = [Runs.item_a; Runs.item_b; Cases.item_a_moved] /\
  (In "A" ["A"; "B"] <->
   exists j, In j [Runs.item_a; Runs.item_b; Cases.item_a_moved] /\
             i_id j = Some "A" /\ relevant "Invoices" Runs.drive j).
Proof.
  assert (res (delta_gather Cases.two_page_net Runs.env 10 Runs.start_url Runs.the_headers []
                 Runs.fresh) =
          Ret [("A", stored Cases.item_a_moved); ("B", stored Runs.item_b)]) as Hres
    by (vm_compute; reflexivity).
  assert (records_of (events (delta_gather Cases.two_page_net Runs.env 10 Runs.start_url
                                Runs.the_headers [] Runs.fresh)) =
          [Runs.item_a; Runs.item_b; Cases.item_a_moved]) as Hrec
    by (vm_compute; reflexivity).
  destruct (filter_record_relevance Cases.two_page_net Runs.env 10 Runs.start_url
              Runs.the_headers Runs.fresh "Invoices" Runs.drive _ eq_refl eq_refl Hres)
    as (Hkeys & _).
  specialize (Hkeys "A"). rewrite Hrec in Hkeys.
  cbv zeta. split; [reflexivity|]. split; [reflexivity|]. split; [exact Hres|].
  split; [exact Hrec | exact Hkeys].
Defined.

(** C5 as stated fails: a record whose parent path contains the target drive
    id and that carries no name does not enter the dictionary; reading its
    name raises KeyError, and the run ends there, after the page was read and
    before anything is saved or transferred. *)
Lemma relevance_counterexample :
  let o := main Samples.no_name_net Runs.env 10 Runs.fresh in
  parent_path Samples.item_no_name = Some (Runs.root_path +:+ "/Invoices") /\
  relevant "Invoices" Runs.drive Samples.item_no_name /\
  filter_record "Invoices" Runs.drive [] Samples.item_no_name = Raise (KeyError "name") /\
  records_of (events o) = [Runs.item_a; Samples.item_no_name] /\
  res o = Raise (KeyError "name") /\
  content_requests (events o) = [] /\ bucket (final o) = ∅.
Proof.
  split; [reflexivity|]. split.
  { exists (Runs.root_path +:+ "/Invoices"). split; [reflexivity|]. right.
    by exists "/drives/", "/root:/Invoices". }
  vm_compute. repeat split.
Qed.

(** ** The transfer of one item *)

Section Transfer.

Context {R : Type} (net : oracle R) (environ : gmap string string).

(** onedrive_download in terms of what its content fetch did: when the fetch
    raised, the call raises the same exception and does nothing else; when
    the content arrived, the call stages, uploads twice, cleans up and
    returns, whatever the outcome of these steps. *)
Lemma onedrive_download_after_fetch h fm (w : world R) url n key :
  aws_env_ok environ ->
  content_url fm = Ret url -> i_name fm = Some n -> filename_s3_of fm n = Ret key ->
  let f := fetch_content net environ h fm url w in
  let o := onedrive_download net environ h fm w in
  match res f with
  | Raise e => res o = Raise e /\ events o = events f /\ final o = final f
  | Ret resp =>
      res o = Ret tt /\
      exists evs evu1 b1 evu2 b2 evc,
        staged ("/tmp/" +:+ n) resp fm evs /\
        upload_trace ("/tmp/" +:+ n) key evu1 b1 /\
        upload_trace (("/tmp/" +:+ n) +:+ ".json") (key +:+ ".json") evu2 b2 /\
        cleaned ("/tmp/" +:+ n) evc /\
        events o = events f ++ evs ++ evu1 ++ evu2 ++ evc
  end.
Proof.
  intros Henv Hurl Hn Hkey. cbv zeta.
  unfold onedrive_download. rewrite bind_eq. unfold lift.
  rewrite Hurl. cbn [res final events app subscript].
  rewrite bind_eq.
  destruct (fetch_content net environ h fm url w) as [[resp|e] w1 evf];
    cbn [res final events app subscript]; [|done].
  rewrite bind_eq, Hn. cbn [res final events app subscript].
  rewrite bind_eq.
  destruct (stage_files_trace net ("/tmp/" +:+ n) resp fm w1) as [Hsr Hs].
  destruct (stage_files net ("/tmp/" +:+ n) resp fm w1) as [rs w2 evs];
    cbn [res final events app subscript] in *; subst rs.
  rewrite bind_eq, Hkey. cbn [res final events app subscript].
  rewrite bind_eq.
  destruct (s3_ops_upload_trace net environ ("/tmp/" +:+ n) key w2)
    as [(_ & b1 & Hr1 & Hu1)|(Hno & _)]; [|done].
  destruct (s3_ops net environ ("/tmp/" +:+ n) key "upload" w2) as [r1 w3 evu1];
    cbn [res final events app subscript] in *; subst r1.
  rewrite bind_eq.
  destruct (s3_ops_upload_trace net environ (("/tmp/" +:+ n) +:+ ".json") (key +:+ ".json") w3)
    as [(_ & b2 & Hr2 & Hu2)|(Hno & _)]; [|done].
  destruct (s3_ops net environ (("/tmp/" +:+ n) +:+ ".json") (key +:+ ".json") "upload" w3)
    as [r2 w4 evu2]; cbn [res final events app subscript] in *; subst r2.
  destruct (cleanup_trace net ("/tmp/" +:+ n) w4) as [Hcr Hc].
  destruct (cleanup net ("/tmp/" +:+ n) w4) as [rc w5 evc];
    cbn [res final events app subscript] in *; subst rc.
  split; [done|]. exists evs, evu1, b1, evu2, b2, evc. by rewrite ?app_nil_r.
Qed.

Lemma transferable_keys fm :
  transferable fm ->
  exists url n key,
    content_url fm = Ret url /\ i_name fm = Some n /\ filename_s3_of fm n = Ret key.
Proof.
  intros ([k Hk] & [n Hn] & pr & Hpr & [d Hd] & [rel Hrel]).
  unfold content_url, filename_s3_of, subscript. rewrite Hpr, Hd, Hk, Hrel.
  by eexists _, n, _.
Qed.

End Transfer.

(** ** What the grammar of an item says about failures *)

Ltac in_list :=
  repeat match goal with
         | H : In _ (_ ++ _) |- _ => apply in_app_or in H as [H|H]
         | H : In _ (_ :: _) |- _ => destruct H as [H|H]; [try discriminate H|]
         | H : In _ [] |- _ => destruct H
         end.

Lemma token_trace_plain evs r e :
  token_trace evs r -> In e evs -> exists url body x, e = EvPostToken url body x.
Proof. intros H; inversion H; subst; intros Hin; in_list; subst; eauto. Qed.

Lemma content_fetch_plain url h fm evs r e :
  content_fetch url h fm evs r -> In e evs ->
  (exists l, e = EvPrint l) \/ (exists u b x, e = EvPostToken u b x) \/
  (exists u h' x, e = EvGetContent u h' x).
Proof.
  intros H; inversion H; subst; intros Hin; in_list; subst; eauto 8;
    match goal with Ht : token_trace _ _, Hi : In _ _ |- _ =>
      destruct (token_trace_plain _ _ _ Ht Hi) as (? & ? & ? & ->); eauto 8 end.
Qed.

Lemma content_fetch_Ret url h fm evs resp :
  content_fetch url h fm evs (Ret resp) -> exists h', In (EvGetContent url h' (Ret resp)) evs.
Proof.
  intros H; inversion H; subst.
  - exists h. by left.
  - eexists. do 4 right. apply in_or_app. right. left. reflexivity.
Qed.

(** A failed fetch is logged unless it is the exception the block raises. *)
Lemma content_fetch_logged url h fm evs r n u h' e :
  i_name fm = Some n ->
  content_fetch url h fm evs r -> In (EvGetContent u h' (Raise e)) evs ->
  In (EvPrint (LExn e)) evs \/ r = Raise e.
Proof.
  intros Hn H; inversion H; subst; intros Hin; in_list; try congruence.
  - injection Hin as <- <- <-. left. simpl. tauto.
  - match goal with Ht : token_trace _ _ |- _ =>
      apply (token_trace_plain _ _ _ Ht) in Hin as (? & ? & ? & [=]) end.
  - injection Hin as <- <- <-. left. simpl. tauto.
  - match goal with Ht : token_trace _ _ |- _ =>
      apply (token_trace_plain _ _ _ Ht) in Hin as (? & ? & ? & [=]) end.
  - injection Hin as <- <- <-. by right.
Qed.

Lemma content_fetch_Raise url h fm evs e n :
  i_name fm = Some n -> content_fetch url h fm evs (Raise e) -> retry_failed evs e.
Proof.
  intros Hn H; inversion H; subst; try congruence.
  - do 5 eexists. split; [reflexivity|]. by left.
  - do 5 eexists. split; [reflexivity|]. right. eauto.
Qed.

Lemma staged_logged local_path resp fm evs p c e :
  staged local_path resp fm evs -> In (EvWrite p c (Raise e)) evs ->
  In (EvPrint LSaveError) evs /\ In (EvPrint (LExn e)) evs.
Proof.
  intros H; inversion H; subst; intros Hin; in_list;
    injection Hin as <- <- <-; simpl; tauto.
Qed.

Lemma upload_trace_logged filename key evs b f k e :
  upload_trace filename key evs b -> In (EvUpload f k (Raise e)) evs ->
  In (EvPrint (LS3Error "upload" f)) evs /\ In (EvPrint (LExn e)) evs.
Proof.
  intros H; inversion H; subst; intros Hin; in_list;
    injection Hin as <- <- <-; simpl; tauto.
Qed.

Lemma cleaned_plain local_path evs e :
  cleaned local_path evs -> In e evs ->
  (exists l, e = EvPrint l) \/ (exists p x, e = EvRemove p x).
Proof. intros H; inversion H; subst; intros Hin; in_list; subst; eauto. Qed.

Lemma staged_plain local_path resp fm evs e :
  staged local_path resp fm evs -> In e evs ->
  (exists l, e = EvPrint l) \/ (exists p c x, e = EvWrite p c x).
Proof. intros H; inversion H; subst; intros Hin; in_list; subst; eauto. Qed.

Lemma upload_trace_plain filename key evs b e :
  upload_trace filename key evs b -> In e evs ->
  (exists l, e = EvPrint l) \/ (exists x, e = EvUpload filename key x).
Proof. intros H; inversion H; subst; intros Hin; in_list; subst; eauto. Qed.

Lemma cleaned_attempt local_path evs :
  cleaned local_path evs -> exists r, In (EvRemove local_path r) evs.
Proof. intros H; inversion H; subst; eexists; left; reflexivity. Qed.

Lemma item_trace_logged environ h fm evs r :
  item_trace environ h fm evs r ->
  (forall p c e, In (EvWrite p c (Raise e)) evs ->
     In (EvPrint LSaveError) evs /\ In (EvPrint (LExn e)) evs) /\
  (forall f k e, In (EvUpload f k (Raise e)) evs ->
     In (EvPrint (LS3Error "upload" f)) evs /\ In (EvPrint (LExn e)) evs).
Proof.
  intros H; inversion H; subst; split; intros ? ? e0 Hin; in_list;
    repeat match goal with
    | Hc : content_fetch _ _ _ ?l _, Hi : In _ ?l |- _ =>
        destruct (content_fetch_plain _ _ _ _ _ _ Hc Hi)
          as [(? & [=])|[(? & ? & ? & [=])|(? & ? & ? & [=])]]
    | Hc : cleaned _ ?l, Hi : In _ ?l |- _ =>
        destruct (cleaned_plain _ _ _ Hc Hi) as [(? & [=])|(? & ? & [=])]
    | Hc : staged _ _ _ ?l, Hi : In (EvUpload _ _ _) ?l |- _ =>
        destruct (staged_plain _ _ _ _ _ Hc Hi) as [(? & [=])|(? & ? & ? & [=])]
    | Hc : upload_trace _ _ ?l _, Hi : In (EvWrite _ _ _) ?l |- _ =>
        destruct (upload_trace_plain _ _ _ _ _ Hc Hi) as [(? & [=])|(? & [=])]
    | Hc : staged _ _ _ ?l, Hi : In (EvWrite _ _ _) ?l |- _ =>
        destruct (staged_logged _ _ _ _ _ _ _ Hc Hi); rewrite !in_app_iff; tauto
    | Hc : upload_trace _ _ ?l _, Hi : In (EvUpload _ _ _) ?l |- _ =>
        destruct (upload_trace_logged _ _ _ _ _ _ _ Hc Hi); rewrite !in_app_iff; tauto
    end.
Qed.

Lemma item_trace_fetch_logged environ h fm evs r u h' e :
  transferable fm -> item_trace environ h fm evs r ->
  In (EvGetContent u h' (Raise e)) evs -> In (EvPrint (LExn e)) evs \/ r = Raise e.
Proof.
  intros Hfm H Hin.
  destruct (transferable_keys fm Hfm) as (url & n & key & Hurl & Hn & Hkey).
  inversion H; subst; in_list;
    repeat match goal with
    | Hc : cleaned _ ?l, Hi : In _ ?l |- _ =>
        destruct (cleaned_plain _ _ _ Hc Hi) as [(? & [=])|(? & ? & [=])]
    | Hc : staged _ _ _ ?l, Hi : In _ ?l |- _ =>
        destruct (staged_plain _ _ _ _ _ Hc Hi) as [(? & [=])|(? & ? & ? & [=])]
    | Hc : upload_trace _ _ ?l _, Hi : In _ ?l |- _ =>
        destruct (upload_trace_plain _ _ _ _ _ Hc Hi) as [(? & [=])|(? & [=])]
    | Hc : content_fetch _ _ _ ?l _, Hi : In _ ?l |- _ =>
        destruct (content_fetch_logged _ _ _ _ _ _ _ _ _ Hn Hc Hi) as [Hl|Hl];
        [left; rewrite ?in_app_iff; tauto | first [discriminate Hl | right; congruence]]
    end.
Qed.

Lemma item_trace_Raise environ h fm evs e :
  aws_env_ok environ -> transferable fm ->
  item_trace environ h fm evs (Raise e) -> retry_failed evs e.
Proof.
  intros Henv Hfm H.
  destruct (transferable_keys fm Hfm) as (url & n & key & Hurl & Hn & Hkey).
  inversion H; subst; try congruence.
  - by eapply content_fetch_Raise.
  - match goal with Hd : _ \/ _ |- _ => destruct Hd as [Hd|[Hd _]] end;
      [congruence | done].
Qed.

Lemma item_trace_Ret environ h fm evs :
  item_trace environ h fm evs (Ret tt) -> processed fm evs.
Proof.
  intros H; inversion H; subst.
  match goal with
  | Hf : content_fetch _ _ _ _ (Ret _), Hu1 : upload_trace _ key _ _,
    Hu2 : upload_trace _ (key +:+ _) _ _, Hc : cleaned _ _ |- _ =>
      destruct (content_fetch_Ret _ _ _ _ _ Hf) as [h' Hin];
      destruct (upload_trace_attempt _ _ _ _ Hu1) as [r1 Hin1];
      destruct (upload_trace_attempt _ _ _ _ Hu2) as [r2 Hin2];
      destruct (cleaned_attempt _ _ Hc) as [r3 Hin3]
  end.
  exists url, n, key, h', resp, r1, r2, r3. rewrite !in_app_iff. tauto.
Qed.

Lemma processed_app_l fm evs1 evs2 : processed fm evs1 -> processed fm (evs1 ++ evs2).
Proof.
  intros (url & n & key & h & resp & r1 & r2 & r3 & ? & ? & ? & ? & ? & ? & ?).
  exists url, n, key, h, resp, r1, r2, r3. rewrite !in_app_iff. tauto.
Qed.

Lemma processed_app_r fm evs1 evs2 : processed fm evs2 -> processed fm (evs1 ++ evs2).
Proof.
  intros (url & n & key & h & resp & r1 & r2 & r3 & ? & ? & ? & ? & ? & ? & ?).
  exists url, n, key, h, resp, r1, r2, r3. rewrite !in_app_iff. tauto.
Qed.

Lemma transfer_trace_logged environ h cs evs r :
  transfer_trace environ h cs evs r ->
  (forall p c e, In (EvWrite p c (Raise e)) evs ->
     In (EvPrint LSaveError) evs /\ In (EvPrint (LExn e)) evs) /\
  (forall f k e, In (EvUpload f k (Raise e)) evs ->
     In (EvPrint (LS3Error "upload" f)) evs /\ In (EvPrint (LExn e)) evs).
Proof.
  induction 1 as [|? ? ? ? ? ? ? IH|? ? ? ? ? ? Hi|? ? ? ? ? ? ? Hi ? IH]; auto.
  - by eapply item_trace_logged.
  - destruct (item_trace_logged _ _ _ _ _ Hi) as [Hw1 Hu1]. destruct IH as [Hw2 Hu2].
    split; intros ? ? ? Hin; apply in_app_or in Hin as [Hin|Hin]; rewrite !in_app_iff.
    + destruct (Hw1 _ _ _ Hin); tauto.
    + destruct (Hw2 _ _ _ Hin); tauto.
    + destruct (Hu1 _ _ _ Hin); tauto.
    + destruct (Hu2 _ _ _ Hin); tauto.
Qed.

Lemma transfer_trace_fetch_logged environ h cs evs r :
  Forall (fun kv => transferable (snd kv)) cs ->
  transfer_trace environ h cs evs r ->
  forall u h' e, In (EvGetContent u h' (Raise e)) evs ->
                 In (EvPrint (LExn e)) evs \/ r = Raise e.
Proof.
  intros Hcs H.
  induction H as [|? ? ? ? ? ? ? IH|? ? ? ? ? ? Hi|? ? ? ? ? ? ? Hi ? IH];
    intros u h' e0 Hin; inversion Hcs; subst.
  - destruct Hin.
  - by apply (IH ltac:(done) u h').
  - by eapply item_trace_fetch_logged.
  - apply in_app_or in Hin as [Hin|Hin]; rewrite in_app_iff.
    + destruct (item_trace_fetch_logged _ _ _ _ _ _ _ _ ltac:(done) Hi Hin) as [?|[=]].
      tauto.
    + destruct (IH ltac:(done) _ _ _ Hin); tauto.
Qed.

Lemma transfer_trace_Raise environ h cs evs r :
  aws_env_ok environ -> Forall (fun kv => transferable (snd kv)) cs ->
  transfer_trace environ h cs evs r ->
  forall e, r = Raise e -> exists front tail, evs = front ++ tail /\ retry_failed tail e.
Proof.
  intros Henv Hcs H.
  induction H as [|? ? ? ? ? ? ? IH|? ? ? ? ? ? Hi|? ? ? ? ? ? ? Hi ? IH];
    intros e0 Hr; try discriminate; inversion Hcs; subst.
  - by apply IH.
  - injection Hr as ->. exists [], evs. split; [done|]. by eapply item_trace_Raise.
  - destruct (IH ltac:(done) e0 eq_refl) as (front & tail & -> & Hf).
    exists (evs1 ++ front), tail. by rewrite app_assoc.
Qed.

Lemma transfer_trace_Ret environ h cs evs r :
  transfer_trace environ h cs evs r -> r = Ret tt ->
  forall k fm, In (k, fm) cs -> i_file fm = true -> processed fm evs.
Proof.
  induction 1 as [|? ? ? ? ? Hfile ? IH|? ? ? ? ? ? Hi|? ? ? ? ? ? ? Hi ? IH];
    intros Hr k0 fm Hin Hf; try discriminate.
  - destruct Hin.
  - destruct Hin as [[= <- <-]|Hin]; [congruence | by eapply IH].
  - destruct Hin as [[= <- <-]|Hin].
    + apply processed_app_l. by eapply item_trace_Ret.
    + apply processed_app_r. by eapply IH.
Qed.

Section Isolation.

Context {R : Type} (net : oracle R) (environ : gmap string string).

(** C7 (amended): in the loop over the change dictionary, a failed staging
    write and a failed upload are logged, and so is a request of an item's
    content that raised an exception, unless it is the exception the loop
    ends with.  The loop stops early, with an exception, only when the second
    attempt at an item's content raised: after a first request that raised,
    logged, the token request or the second request raised too.  When the
    loop returns, every file item of the dictionary went through the whole
    pipeline.  A request of content that is answered raises nothing,
    whatever the answer is: the block that fetches the content is then that
    one request, with no line printed and no second request. *)
Theorem transfer_failures_are_isolated h cs (w : world R) :
  aws_env_ok environ -> Forall (fun kv => transferable (snd kv)) cs ->
  let o := transfer_changes net environ h cs w in
  (forall p c e, In (EvWrite p c (Raise e)) (events o) ->
     In (EvPrint LSaveError) (events o) /\ In (EvPrint (LExn e)) (events o)) /\
  (forall f k e, In (EvUpload f k (Raise e)) (events o) ->
     In (EvPrint (LS3Error "upload" f)) (events o) /\ In (EvPrint (LExn e)) (events o)) /\
  (forall url h' e, In (EvGetContent url h' (Raise e)) (events o) ->
     In (EvPrint (LExn e)) (events o) \/ res o = Raise e) /\
  (forall e, res o = Raise e ->
     exists front tail, events o = front ++ tail /\ retry_failed tail e) /\
  (res o = Ret tt ->
     forall k fm, In (k, fm) cs -> i_file fm = true -> processed fm (events o)) /\
  (forall fm url w' resp,
     res (requests_get_content net url h w') = Ret resp ->
     fetch_content net environ h fm url w' = requests_get_content net url h w').
Proof.
  intros Henv Hcs o.
  pose proof (transfer_changes_trace net environ h cs w) as Ht. fold o in Ht.
  destruct (transfer_trace_logged _ _ _ _ _ Ht) as [Hw Hu].
  split; [exact Hw|]. split; [exact Hu|]. split; [|split; [|split]].
  - by eapply transfer_trace_fetch_logged.
  - intros e He. by eapply transfer_trace_Raise.
  - intros Hr. by eapply transfer_trace_Ret.
  - intros fm url w' resp. unfold fetch_content. rewrite bind_eq, try_eq.
    destruct (requests_get_content_eq net url h w') as (r & x & ->).
    cbn [res final events app]. by intros ->.
Qed.

End Isolation.

Lemma stored_file_item_transferable id name path :
  transferable (stored (Runs.file_item id name path)).
Proof.
  split; [eexists; reflexivity|]. split; [eexists; reflexivity|].
  eexists. split; [reflexivity|]. split; eexists; reflexivity.
Qed.

Lemma ab_stored_transferable : Forall (fun kv => transferable (snd kv)) Cases.ab_stored.
Proof. repeat constructor; apply stored_file_item_transferable. Qed.

Lemma transfer_failures_are_isolated_witness :
  let o := transfer_changes Cases.write_fails_net Runs.env Runs.the_headers
             Cases.ab_stored Runs.fresh in
  aws_env_ok Runs.env /\
  Forall (fun kv => transferable (snd kv)) Cases.ab_stored /\
  In (EvWrite "/tmp/a.txt" (Bytes "content") (Raise OSError)) (events o) /\
  In (EvPrint LSaveError) (events o) /\
  processed (stored Runs.item_b) (events o).
Proof.
  intros o.
  destruct (transfer_failures_are_isolated Cases.write_fails_net Runs.env Runs.the_headers
              Cases.ab_stored Runs.fresh runs_env_ok ab_stored_transferable)
    as (Hw & _ & _ & _ & Hp & _).
  assert (In (EvWrite "/tmp/a.txt" (Bytes "content") (Raise OSError)) (events o)) as Hin
    by (vm_compute; tauto).
  split; [exact runs_env_ok|]. split; [exact ab_stored_transferable|].
  split; [exact Hin|]. split; [exact (proj1 (Hw _ _ _ Hin))|].
  apply (Hp ltac:(vm_compute; reflexivity) "B"); [right; left; reflexivity | reflexivity].
Defined.

(** C7 as stated fails: both attempts at the content of item A fail, the
    exception leaves main, and the content of item B, which is in the change
    dictionary, is never requested. *)
Lemma content_fetch_failure_counterexample :
  let o := main Cases.content_down_net Runs.env 10 Runs.fresh in
  records_of (events o) = [Runs.item_a; Runs.item_b] /\
  res o = Raise ConnectionError /\
  content_requests (events o) = [Cases.content_url_a; Cases.content_url_a] /\
  ~ In (EvPrint LScriptExited) (events o).
Proof.
  vm_compute. repeat split; try reflexivity. intuition discriminate.
Qed.

Lemma content_fetch_no_remove url h fm evs r :
  content_fetch url h fm evs r -> Forall (fun e => ~ is_remove e) evs.
Proof.
  intros H. apply List.Forall_forall. intros e Hin.
  destruct (content_fetch_plain _ _ _ _ _ _ H Hin)
    as [(? & ->)|[(? & ? & ? & ->)|(? & ? & ? & ->)]]; simpl; tauto.
Qed.

Lemma staged_no_remove local_path resp fm evs :
  staged local_path resp fm evs -> Forall (fun e => ~ is_remove e) evs.
Proof.
  intros H. apply List.Forall_forall. intros e Hin.
  destruct (staged_plain _ _ _ _ _ H Hin) as [(? & ->)|(? & ? & ? & ->)]; simpl; tauto.
Qed.

Lemma upload_trace_no_remove filename key evs b :
  upload_trace filename key evs b -> Forall (fun e => ~ is_remove e) evs.
Proof.
  intros H. apply List.Forall_forall. intros e Hin.
  destruct (upload_trace_plain _ _ _ _ _ H Hin) as [(? & ->)|(? & ->)]; simpl; tauto.
Qed.

Lemma item_trace_Raise_quiet environ h fm evs e :
  item_trace environ h fm evs (Raise e) ->
  Forall (fun e => ~ is_upload e) evs /\ Forall (fun e => ~ is_remove e) evs.
Proof.
  intros H; inversion H; subst; split; repeat apply Forall_app_2;
    eauto using content_fetch_no_upload, staged_no_upload, content_fetch_no_remove,
      staged_no_remove.
Qed.

Section Cleanup.

Context {R : Type} (net : oracle R) (environ : gmap string string).

(** An item whose content arrived and that lacks its name or its relative
    path, or a run without the bucket credentials: onedrive_download
    raises. *)
Lemma onedrive_download_unready h fm (w : world R) url resp :
  content_url fm = Ret url ->
  res (fetch_content net environ h fm url w) = Ret resp ->
  ~ aws_env_ok environ \/ i_name fm = None \/
    (exists n e, i_name fm = Some n /\ filename_s3_of fm n = Raise e) ->
  exists e, res (onedrive_download net environ h fm w) = Raise e.
Proof.
  intros Hurl Hf Hun. unfold onedrive_download. rewrite bind_eq. unfold lift.
  rewrite Hurl. cbn [res final events app subscript]. rewrite bind_eq.
  destruct (fetch_content net environ h fm url w) as [rf w1 evf];
    cbn [res final events app subscript] in *. subst rf.
  rewrite bind_eq. cbn [res final events app subscript].
  destruct (i_name fm) as [n|] eqn:Hn; cbn [res final events app subscript]; [|eauto].
  rewrite bind_eq.
  destruct (stage_files_trace net ("/tmp/" +:+ n) resp fm w1) as [Hsr _].
  destruct (stage_files net ("/tmp/" +:+ n) resp fm w1) as [rs w2 evs];
    cbn [res final events app subscript] in *; subst rs.
  rewrite bind_eq. cbn [res final events app subscript].
  destruct (filename_s3_of fm n) as [key|e] eqn:Hkey;
    cbn [res final events app subscript]; [|eauto].
  destruct Hun as [Hno|[Hn'|(n' & e & Hn' & He)]]; [|done|congruence].
  rewrite bind_eq.
  destruct (s3_ops_no_env net environ ("/tmp/" +:+ n) key "upload" w2 Hno) as [k ->].
  cbn [res final events app subscript]. eauto.
Qed.

(** C8 (amended): for an item whose content arrived.  When the item carries
    its name and its relative path and the bucket credentials are
    configured, onedrive_download attempts both uploads and then, whatever
    their outcome, the removal of the staged content file; it attempts the
    removal of the metadata file when the removal of the content file
    succeeded; when a removal fails the failure is logged, no further
    removal is attempted, and the call returns all the same.  When the name,
    the relative path or a credential is missing, onedrive_download raises
    before any upload and attempts no removal. *)
Theorem cleanup_after_uploads h fm (w : world R) url resp :
  content_url fm = Ret url ->
  res (fetch_content net environ h fm url w) = Ret resp ->
  let o := onedrive_download net environ h fm w in
  (forall n key,
     aws_env_ok environ -> i_name fm = Some n -> filename_s3_of fm n = Ret key ->
     res o = Ret tt /\
     exists before evc,
       events o = before ++ evc /\
       (exists r1 r2,
          In (EvUpload ("/tmp/" +:+ n) key r1) before /\
          In (EvUpload (("/tmp/" +:+ n) +:+ ".json") (key +:+ ".json") r2) before) /\
       Forall (fun e => ~ is_remove e) before /\
       cleaned ("/tmp/" +:+ n) evc) /\
  (~ aws_env_ok environ \/ i_name fm = None \/
     (exists n e, i_name fm = Some n /\ filename_s3_of fm n = Raise e) ->
   (exists e, res o = Raise e) /\
   Forall (fun e => ~ is_upload e) (events o) /\
   Forall (fun e => ~ is_remove e) (events o)).
Proof.
  intros Hurl Hf o. split.
  - intros n key Henv Hn Hkey.
    pose proof (onedrive_download_after_fetch net environ h fm w url n key Henv Hurl Hn Hkey)
      as H. cbv zeta in H. fold o in H.
    pose proof (fetch_content_trace net environ url h fm w) as Hc.
    rewrite Hf in H, Hc.
    destruct H as (Hr & evs & evu1 & b1 & evu2 & b2 & evc & Hs & Hu1 & Hu2 & Hcl & Hev).
    split; [exact Hr|].
    exists (events (fetch_content net environ h fm url w) ++ evs ++ evu1 ++ evu2), evc.
    split; [by rewrite Hev, <- !app_assoc|]. split; [|split; [|exact Hcl]].
    + destruct (upload_trace_attempt _ _ _ _ Hu1) as [r1 H1].
      destruct (upload_trace_attempt _ _ _ _ Hu2) as [r2 H2].
      exists r1, r2. rewrite !in_app_iff. tauto.
    + apply Forall_app_2; [exact (content_fetch_no_remove _ _ _ _ _ Hc)|].
      apply Forall_app_2; [exact (staged_no_remove _ _ _ _ Hs)|].
      apply Forall_app_2; [exact (upload_trace_no_remove _ _ _ _ Hu1)|].
      exact (upload_trace_no_remove _ _ _ _ Hu2).
  - intros Hun. destruct (onedrive_download_unready h fm w url resp Hurl Hf Hun) as [e He].
    fold o in He. split; [eauto|].
    pose proof (onedrive_download_trace net environ h fm w) as Ht. fold o in Ht.
    rewrite He in Ht. by apply item_trace_Raise_quiet in Ht.
Qed.

End Cleanup.

Lemma cleanup_after_uploads_witness :
  let o := onedrive_download Cases.remove_fails_item_net Runs.env Runs.the_headers
             (stored Runs.item_a) Runs.fresh in
  content_url (stored Runs.item_a) = Ret Cases.content_url_a /\
  res (fetch_content Cases.remove_fails_item_net Runs.env Runs.the_headers
         (stored Runs.item_a) Cases.content_url_a Runs.fresh) = Ret "content" /\
  aws_env_ok Runs.env /\
  res o = Ret tt /\ removals (events o) = ["/tmp/a.txt"].
Proof.
  intros o.
  assert (res (fetch_content Cases.remove_fails_item_net Runs.env Runs.the_headers
                 (stored Runs.item_a) Cases.content_url_a Runs.fresh) = Ret "content")
    as Hf by (vm_compute; reflexivity).
  destruct (cleanup_after_uploads Cases.remove_fails_item_net Runs.env Runs.the_headers
              (stored Runs.item_a) Runs.fresh Cases.content_url_a "content" eq_refl Hf)
    as [Hall _].
  destruct (Hall "a.txt" "/Invoices/a.txt" runs_env_ok eq_refl
              ltac:(vm_compute; reflexivity)) as (Hr & _).
  split; [reflexivity|]. split; [exact Hf|]. split; [exact runs_env_ok|].
  split; [exact Hr|]. vm_compute. reflexivity.
Defined.

(** C8 as stated fails: the removal of the content file of item A fails,
    the removal of its metadata file is never attempted, and the metadata
    file stays in /tmp. *)
Lemma cleanup_counterexample :
  let o := main Cases.remove_fails_net Runs.env 10 Runs.fresh in
  res o = Ret tt /\
  In (EvRemove "/tmp/a.txt" (Raise OSError)) (events o) /\
  removals (events o) = ["/tmp/deltaLink.json"; "/tmp/a.txt"; "/tmp/b.txt"; "/tmp/b.txt.json"] /\
  tmp (final o) !! "/tmp/a.txt.json" = Some (ItemJson (stored Runs.item_a)).
Proof.
  vm_compute. repeat split; try reflexivity. tauto.
Qed.

(** ** The bucket is what the recorded uploads made of it *)

Lemma replay_bucket_app evs1 evs2 b :
  replay_bucket (evs1 ++ evs2) b = replay_bucket evs2 (replay_bucket evs1 b).
Proof. apply fold_left_app. Qed.

Section Tracks.

Context {R : Type} (net : oracle R) (environ : gmap string string).

Lemma tracks_ret {A} (a : A) : tracks (ret (R:=R) a).
Proof. by intros w. Qed.

Lemma tracks_raise {A} e : tracks (raise (R:=R) (A:=A) e).
Proof. by intros w. Qed.

Lemma tracks_lift {A} (r : result A) : tracks (lift (R:=R) r).
Proof. by intros w. Qed.

Lemma tracks_print l : tracks (print (R:=R) l).
Proof. by intros w. Qed.

Lemma tracks_getenv k : tracks (getenv (R:=R) environ k).
Proof. intros w. unfold getenv. by destruct (environ !! k). Qed.

Lemma tracks_bind {A B} (m : M R A) (f : A -> M R B) :
  tracks m -> (forall a, tracks (f a)) -> tracks (bind m f).
Proof.
  intros Hm Hf w. rewrite bind_eq. specialize (Hm w).
  destruct (res (m w)); cbn [final events]; [|done].
  by rewrite replay_bucket_app, <- Hm, <- Hf.
Qed.

Lemma tracks_try {A} (m : M R A) : tracks m -> tracks (try m).
Proof. intros Hm w. apply Hm. Qed.

Lemma tracks_requests_get_json url h : tracks (requests_get_json net url h).
Proof.
  intros w. unfold requests_get_json.
  by destruct (graph_get_json net url h (ext w)) as [r x].
Qed.

Lemma tracks_requests_get_content url h : tracks (requests_get_content net url h).
Proof.
  intros w. unfold requests_get_content.
  by destruct (graph_get_content net url h (ext w)) as [r x].
Qed.

Lemma tracks_requests_post_json url body : tracks (requests_post_json net url body).
Proof.
  intros w. unfold requests_post_json.
  by destruct (aad_post net url body (ext w)) as [r x].
Qed.

Lemma tracks_open_write path c : tracks (open_write net path c).
Proof.
  intros w. unfold open_write.
  by destruct (io_fault net (IoWrite path) (ext w)) as [[e|] x].
Qed.

Lemma tracks_json_load path : tracks (json_load net path).
Proof.
  intros w. unfold json_load.
  by destruct (io_fault net (IoRead path) (ext w)) as [f x].
Qed.

Lemma tracks_os_remove path : tracks (os_remove net path).
Proof.
  intros w. unfold os_remove.
  by destruct (io_fault net (IoRemove path) (ext w)) as [f x].
Qed.

Lemma tracks_os_path_exists path : tracks (os_path_exists (R:=R) path).
Proof. by intros w. Qed.

Lemma tracks_upload_file filename key : tracks (upload_file net filename key).
Proof.
  intros w. unfold upload_file.
  destruct (io_fault net (IoUpload filename key) (ext w)) as [[e|] x];
    cbn [final events bucket]; [done|].
  by destruct (tmp w !! filename).
Qed.

Lemma tracks_download_file filename key : tracks (download_file net filename key).
Proof.
  intros w. unfold download_file.
  destruct (io_fault net (IoDownload filename key) (ext w)) as [[e|] x];
    cbn [final events bucket]; [done|].
  by destruct (bucket w !! key).
Qed.

End Tracks.

(** Decompose a computation down to the calls it is made of. *)
Ltac tracks_auto :=
  repeat match goal with
    | |- tracks (ret _) => apply tracks_ret
    | |- tracks (raise _) => apply tracks_raise
    | |- tracks (lift _) => apply tracks_lift
    | |- tracks (print _) => apply tracks_print
    | |- tracks (getenv _ _) => apply tracks_getenv
    | |- tracks (try _) => apply tracks_try
    | |- tracks (requests_get_json _ _ _) => apply tracks_requests_get_json
    | |- tracks (requests_get_content _ _ _) => apply tracks_requests_get_content
    | |- tracks (requests_post_json _ _ _) => apply tracks_requests_post_json
    | |- tracks (open_write _ _ _) => apply tracks_open_write
    | |- tracks (json_load _ _) => apply tracks_json_load
    | |- tracks (os_remove _ _) => apply tracks_os_remove
    | |- tracks (os_path_exists _) => apply tracks_os_path_exists
    | |- tracks (upload_file _ _ _) => apply tracks_upload_file
    | |- tracks (download_file _ _ _) => apply tracks_download_file
    | H : _ |- tracks _ => apply H
    | |- tracks (bind _ _) => apply tracks_bind; [|intros ?]
    | |- tracks (match ?x with _ => _ end) => destruct x
    | |- tracks (let _ := _ in _) => cbv zeta
    end.

Section Tracks_program.

Context {R : Type} (net : oracle R) (environ : gmap string string).

Lemma tracks_s3_ops filename key action : tracks (s3_ops net environ filename key action).
Proof. unfold s3_ops. tracks_auto. Qed.

Lemma tracks_token_gains : tracks (token_gains net environ).
Proof. unfold token_gains. tracks_auto. Qed.

Lemma tracks_onedrive_download h fm : tracks (onedrive_download net environ h fm).
Proof.
  pose proof tracks_s3_ops. pose proof tracks_token_gains.
  unfold onedrive_download, fetch_content, stage_files, cleanup. tracks_auto.
Qed.

Lemma tracks_transfer_changes h cs : tracks (transfer_changes net environ h cs).
Proof.
  pose proof tracks_onedrive_download.
  induction cs as [|[k value] rest IH]; simpl; tracks_auto.
Qed.

Lemma tracks_delta_gather depth url h cs :
  tracks (delta_gather net environ depth url h cs).
Proof.
  pose proof tracks_s3_ops.
  revert url cs; induction depth as [|depth IH]; intros url cs; cbn [delta_gather];
    unfold fetch_page, save_deltaLink; tracks_auto.
Qed.

Lemma tracks_main recursion_limit : tracks (main net environ recursion_limit).
Proof.
  pose proof tracks_s3_ops. pose proof tracks_token_gains.
  pose proof tracks_transfer_changes. pose proof tracks_delta_gather.
  unfold main, load_deltaLink. tracks_auto.
Qed.

End Tracks_program.

(** ** Failed requests of a feed page *)

Lemma app_split {A} (l1 l2 front back : list A) x :
  l1 ++ l2 = front ++ x :: back ->
  (exists mid, l1 = front ++ x :: mid /\ back = mid ++ l2) \/
  (exists mid, front = l1 ++ mid /\ l2 = mid ++ x :: back).
Proof.
  revert front; induction l1 as [|a l1 IH]; intros front H; simpl in H.
  - right. by exists front.
  - destruct front as [|b front]; simpl in H; injection H as -> H.
    + left. by exists l1.
    + destruct (IH front H) as [(mid & -> & ->)|(mid & -> & ->)];
        [left | right]; by exists mid.
Qed.

(** Find an element in a list that is written out. *)
Ltac split_cons :=
  repeat match goal with
         | H : _ :: _ = ?f ++ _ :: _ |- _ =>
             destruct f; simpl in H; injection H as ? H; subst
         | H : [] = ?f ++ _ :: _ |- _ => destruct f; discriminate H
         end.

Lemma page_fetch_no_save url h evf r :
  page_fetch url h evf r -> Forall (fun e => ~ is_cursor_save e) evf.
Proof. intros H; inversion H; subst; repeat constructor; simpl; tauto. Qed.

Lemma page_fetch_split url h evf rp rest front u h' e back :
  page_fetch url h evf rp ->
  evf ++ rest = front ++ EvGetFeed u h' (Raise e) :: back ->
  (exists front', front = evf ++ front' /\
                  rest = front' ++ EvGetFeed u h' (Raise e) :: back) \/
  (is_HTTPError e = true /\
   back = EvPrint LDeltaQueryError :: EvPrint (LExn e) :: EvGetFeed u h' rp :: rest) \/
  (back = rest /\ rp = Raise e).
Proof.
  intros H Heq. apply app_split in Heq as [(mid & H1 & ->)|(mid & -> & H2)];
    [|left; eauto].
  right. inversion H; subst; split_cons; try discriminate; auto.
Qed.

Lemma link_save_split o evs r front u h x back :
  link_save o evs r -> evs = front ++ EvGetFeed u h x :: back -> False.
Proof.
  intros H Heq. apply (link_save_no_feed _ _ _ u h x H).
  rewrite Heq. apply in_or_app. right. by left.
Qed.

(** In the events of a traversal a failed request of a page is either the
    first attempt, failed with HTTPError and followed by its two log lines
    and one more request of the same page with the same headers, or the end
    of the traversal, which raises that exception.  When the last request
    of a page fails the traversal has not saved any cursor. *)
Lemma gather_failed_fetch environ h url cs evs r :
  gather environ h url cs evs r ->
  forall front u h' e back,
    evs = front ++ EvGetFeed u h' (Raise e) :: back ->
    (is_HTTPError e = true /\
     exists r0 back',
       back = EvPrint LDeltaQueryError :: EvPrint (LExn e) :: EvGetFeed u h' r0 :: back' /\
       forall e', r0 = Raise e' ->
         back' = [] /\ r = Raise e' /\ Forall (fun e => ~ is_cursor_save e) evs) \/
    (back = [] /\ r = Raise e /\ Forall (fun e => ~ is_cursor_save e) evs).
Proof.
  induction 1 as [url cs|url cs evf e0 Hf|url cs evf p e0 Hf Hacc|url cs evf p Hf Hacc|
                  url cs evf p cs1 evs r Hf Hacc Hnext Hs|
                  url cs evf p cs1 nextLink evn e0 Hf Hacc Hnext Hg IH|
                  url cs evf p cs1 nextLink evn cs2 evs r Hf Hacc Hnext Hg IH Hs];
    intros front u h' e back Heq.
  - by destruct front.
  - rewrite <- (app_nil_r evf) in Heq.
    destruct (page_fetch_split _ _ _ _ _ _ _ _ _ _ Hf Heq)
      as [(front' & _ & H0)|[(Hhttp & ->)|(-> & [= ->])]].
    + by destruct front'.
    + left. split; [done|]. eexists _, _. split; [reflexivity|].
      intros e' [= ->]. eauto using page_fetch_no_save.
    + right. eauto using page_fetch_no_save.
  - rewrite <- (app_nil_r evf) in Heq.
    destruct (page_fetch_split _ _ _ _ _ _ _ _ _ _ Hf Heq)
      as [(front' & _ & H0)|[(Hhttp & ->)|(-> & [=])]].
    + by destruct front'.
    + left. split; [done|]. eexists _, _. split; [reflexivity|]. intros e' [=].
  - rewrite <- (app_nil_r evf) in Heq.
    destruct (page_fetch_split _ _ _ _ _ _ _ _ _ _ Hf Heq)
      as [(front' & _ & H0)|[(Hhttp & ->)|(-> & [=])]].
    + by destruct front'.
    + left. split; [done|]. eexists _, _. split; [reflexivity|]. intros e' [=].
  - destruct (page_fetch_split _ _ _ _ _ _ _ _ _ _ Hf Heq)
      as [(front' & _ & H0)|[(Hhttp & ->)|(-> & [=])]].
    + destruct (link_save_split _ _ _ _ _ _ _ _ Hs H0).
    + left. split; [done|]. eexists _, _. split; [reflexivity|]. intros e' [=].
  - destruct (page_fetch_split _ _ _ _ _ _ _ _ _ _ Hf Heq)
      as [(front' & _ & H0)|[(Hhttp & ->)|(-> & [=])]].
    + destruct (IH _ _ _ _ _ H0) as [(Hhttp & r0 & back' & -> & Hr0)|(-> & -> & Hns)].
      * left. split; [done|]. exists r0, back'. split; [done|].
        intros e' He'. destruct (Hr0 e' He') as (-> & -> & Hns).
        split; [done|]. split; [done|].
        apply Forall_app_2; eauto using page_fetch_no_save.
      * right. split; [done|]. split; [done|].
        apply Forall_app_2; eauto using page_fetch_no_save.
    + left. split; [done|]. eexists _, _. split; [reflexivity|]. intros e' [=].
  - destruct (page_fetch_split _ _ _ _ _ _ _ _ _ _ Hf Heq)
      as [(front' & _ & H0)|[(Hhttp & ->)|(-> & [=])]].
    + apply app_split in H0 as [(mid & H1 & ->)|(mid & _ & H2)].
      * destruct (IH _ _ _ _ _ H1) as [(Hhttp & r0 & back' & -> & Hr0)|(_ & [=] & _)].
        left. split; [done|]. exists r0, (back' ++ evs). split; [done|].
        intros e' He'. by destruct (Hr0 e' He') as (_ & [=] & _).
      * destruct (link_save_split _ _ _ _ _ _ _ _ Hs H2).
    + left. split; [done|]. eexists _, _. split; [reflexivity|]. intros e' [=].
Qed.

Lemma replay_no_upload evs b :
  Forall (fun e => ~ is_upload e) evs -> replay_bucket evs b = b.
Proof.
  unfold replay_bucket. revert b; induction evs as [|e evs IH]; intros b H; [done|].
  inversion H as [|? ? He Hevs]; subst. simpl. rewrite IH by done.
  destruct e; try done; simpl in He; tauto.
Qed.

Lemma prologue_no_save evs :
  Forall prologue_event evs ->
  Forall (fun e => ~ is_cursor_save e) evs /\ Forall (fun e => ~ is_upload e) evs.
Proof.
  intros H. split; (eapply Forall_impl; [exact H|]); intros [] ?; simpl in *; tauto.
Qed.

Lemma gather_no_save_no_upload evs :
  Forall gather_event evs -> Forall (fun e => ~ is_cursor_save e) evs ->
  Forall (fun e => ~ is_upload e) evs.
Proof.
  intros Hg Hs. induction Hg as [|e evs He Hg IH]; [constructor|].
  inversion Hs; subst. constructor; [|by apply IH].
  destruct e; simpl in *; tauto.
Qed.

Lemma prologue_split evs front u h x back :
  Forall prologue_event evs -> evs = front ++ EvGetFeed u h x :: back -> False.
Proof.
  intros H ->. apply Forall_app in H as [_ H]. by inversion H.
Qed.

Lemma transfer_split environ h0 cs evt r front u h x back :
  transfer_trace environ h0 cs evt r ->
  evt ++ match r with Ret _ => [EvPrint LScriptExited] | Raise _ => [] end =
    front ++ EvGetFeed u h x :: back -> False.
Proof.
  intros Ht Heq. apply transfer_trace_events in Ht.
  apply app_split in Heq as [(mid & -> & _)|(mid & _ & H2)].
  - apply Forall_app in Ht as [_ Ht]. by inversion Ht.
  - destruct r; split_cons; discriminate.
Qed.

Lemma run_failed_fetch environ evs r :
  run_trace environ evs r ->
  forall front u h' e back,
    evs = front ++ EvGetFeed u h' (Raise e) :: back ->
    (is_HTTPError e = true /\
     exists r0 back',
       back = EvPrint LDeltaQueryError :: EvPrint (LExn e) :: EvGetFeed u h' r0 :: back' /\
       forall e', r0 = Raise e' ->
         back' = [] /\ r = Raise e' /\
         Forall (fun e => ~ is_cursor_save e) evs /\ Forall (fun e => ~ is_upload e) evs) \/
    (back = [] /\ r = Raise e /\
     Forall (fun e => ~ is_cursor_save e) evs /\ Forall (fun e => ~ is_upload e) evs).
Proof.
  intros Hrun front u h' e back Heq.
  destruct Hrun as [evp e0 Hp|evp h0 u0 evg e0 Hp Hg|evp h0 u0 evg cs evt r Hp Hg Ht].
  - destruct (prologue_split _ _ _ _ _ _ Hp Heq).
  - apply app_split in Heq as [(mid & H1 & _)|(mid & -> & H2)];
      [destruct (prologue_split _ _ _ _ _ _ Hp H1)|].
    destruct (prologue_no_save _ Hp) as [Hps Hpu].
    pose proof (gather_events _ _ _ _ _ _ Hg) as Hge.
    destruct (gather_failed_fetch _ _ _ _ _ _ Hg _ _ _ _ _ H2)
      as [(Hhttp & r0 & back' & -> & Hr0)|(-> & [= ->] & Hns)].
    + left. split; [done|]. exists r0, back'. split; [done|].
      intros e' He'. destruct (Hr0 e' He') as (-> & [= ->] & Hns).
      repeat split; try done; apply Forall_app_2; auto using gather_no_save_no_upload.
    + right. repeat split; try done; apply Forall_app_2;
        auto using gather_no_save_no_upload.
  - apply app_split in Heq as [(mid & H1 & _)|(mid & -> & H2)];
      [destruct (prologue_split _ _ _ _ _ _ Hp H1)|].
    apply app_split in H2 as [(mid' & H1 & ->)|(mid' & _ & H3)];
      [|destruct (transfer_split _ _ _ _ _ _ _ _ _ _ Ht H3)].
    destruct (gather_failed_fetch _ _ _ _ _ _ Hg _ _ _ _ _ H1)
      as [(Hhttp & r0 & back' & -> & Hr0)|(_ & [=] & _)].
    left. split; [done|]. eexists r0, _. split; [reflexivity|].
    intros e' He'. by destruct (Hr0 e' He') as (_ & [=] & _).
Qed.

(** *** No request of a page fails with HTTPError *)

Lemma token_requests_none (Q : event -> Prop) evs :
  (forall e, Q e -> match e with EvPostToken _ _ _ => False | _ => True end) ->
  Forall Q evs -> token_requests evs = [].
Proof.
  intros HQ. induction 1 as [|e evs He _ IH]; [reflexivity|].
  apply HQ in He. destruct e; simpl in *; try exact IH. destruct He.
Qed.

Section Contract.

Context {R : Type} (net : oracle R) (environ : gmap string string).

Hypothesis Hnet : requests_never_raise_HTTPError net.

Lemma quiet_getenv k : emits no_HTTPError (getenv (R:=R) environ k).
Proof. intros w. unfold getenv. destruct (environ !! k); constructor. Qed.

Lemma quiet_requests_get_json url h : emits no_HTTPError (requests_get_json net url h).
Proof.
  intros w. unfold requests_get_json. pose proof (Hnet url h (ext w)) as H.
  destruct (graph_get_json net url h (ext w)) as [[p|e] x]; cbn [events fst] in *;
    (constructor; [|constructor]); [exact I | by apply H].
Qed.

Lemma quiet_requests_get_content url h :
  emits no_HTTPError (requests_get_content net url h).
Proof.
  intros w. unfold requests_get_content.
  destruct (graph_get_content net url h (ext w)) as [r x]. by repeat constructor.
Qed.

Lemma quiet_requests_post_json url body :
  emits no_HTTPError (requests_post_json net url body).
Proof.
  intros w. unfold requests_post_json.
  destruct (aad_post net url body (ext w)) as [r x]. by repeat constructor.
Qed.

Lemma quiet_open_write path c : emits no_HTTPError (open_write net path c).
Proof.
  intros w. unfold open_write.
  destruct (io_fault net (IoWrite path) (ext w)) as [[e|] x]; by repeat constructor.
Qed.

Lemma quiet_upload_file filename key : emits no_HTTPError (upload_file net filename key).
Proof.
  intros w. unfold upload_file.
  destruct (io_fault net (IoUpload filename key) (ext w)) as [f x]. by repeat constructor.
Qed.

End Contract.

(** Decompose a computation down to the calls it is made of. *)
Ltac quiet_auto :=
  repeat match goal with
    | |- emits _ (ret _) => apply emits_ret
    | |- emits _ (raise _) => apply emits_raise
    | |- emits _ (lift _) => apply emits_lift
    | |- emits _ (print _) => apply emits_print; exact I
    | |- emits _ (getenv _ _) => apply quiet_getenv
    | |- emits _ (try _) => apply emits_try
    | |- emits _ (requests_get_json _ _ _) => by apply quiet_requests_get_json
    | |- emits _ (requests_get_content _ _ _) => apply quiet_requests_get_content
    | |- emits _ (requests_post_json _ _ _) => apply quiet_requests_post_json
    | |- emits _ (open_write _ _ _) => apply quiet_open_write
    | |- emits _ (json_load _ _) => apply emits_json_load; intros ?; exact I
    | |- emits _ (os_remove _ _) => apply emits_os_remove; intros ?; exact I
    | |- emits _ (os_path_exists _) => apply emits_os_path_exists
    | |- emits _ (upload_file _ _ _) => apply quiet_upload_file
    | |- emits _ (download_file _ _ _) => apply emits_download; intros ?; exact I
    | H : _ |- emits _ _ => apply H
    | |- emits _ (bind _ _) => apply emits_bind; [|intros ?]
    | |- emits _ (match ?x with _ => _ end) => destruct x
    | |- emits _ (let _ := _ in _) => cbv zeta
    end.

Section Retry.

Context {R : Type} (net : oracle R) (environ : gmap string string).

Hypothesis Hnet : requests_never_raise_HTTPError net.

Lemma quiet_s3_ops filename key action :
  emits no_HTTPError (s3_ops net environ filename key action).
Proof. unfold s3_ops. quiet_auto. Qed.

Lemma quiet_token_gains : emits no_HTTPError (token_gains net environ).
Proof. unfold token_gains. quiet_auto. Qed.

Lemma quiet_onedrive_download h fm :
  emits no_HTTPError (onedrive_download net environ h fm).
Proof.
  pose proof quiet_s3_ops. pose proof quiet_token_gains.
  unfold onedrive_download, fetch_content, stage_files, cleanup. quiet_auto.
Qed.

Lemma quiet_transfer_changes h cs : emits no_HTTPError (transfer_changes net environ h cs).
Proof.
  pose proof quiet_onedrive_download.
  induction cs as [|[k value] rest IH]; simpl; quiet_auto.
Qed.

Lemma quiet_delta_gather depth url h cs :
  emits no_HTTPError (delta_gather net environ depth url h cs).
Proof.
  pose proof quiet_s3_ops.
  revert url cs; induction depth as [|depth IH]; intros url cs; cbn [delta_gather];
    unfold fetch_page, save_deltaLink; quiet_auto.
Qed.

Lemma quiet_main recursion_limit : emits no_HTTPError (main net environ recursion_limit).
Proof.
  pose proof quiet_s3_ops. pose proof quiet_token_gains.
  pose proof quiet_transfer_changes. pose proof quiet_delta_gather.
  unfold main, load_deltaLink. quiet_auto.
Qed.

(** The handler of lines 96-100 never runs: the block that fetches a page is
    one request. *)
Lemma fetch_page_single url h (w : world R) :
  fetch_page net url h w = requests_get_json net url h w.
Proof.
  unfold fetch_page. rewrite bind_eq, try_eq. unfold requests_get_json.
  pose proof (Hnet url h (ext w)) as H.
  destruct (graph_get_json net url h (ext w)) as [[p|e] x];
    cbn [res final events app ret fst] in *; [reflexivity|].
  rewrite (H e eq_refl). reflexivity.
Qed.

End Retry.

Section Never_retried.

Context {R : Type} (net : oracle R) (environ : gmap string string).

(** C4 fails on the code.  requests.get never raises the HTTPError that
    line 96 catches, so the block that fetches a page is one request of the
    page and nothing else: no failure is logged there, no page is requested a
    second time, and a traversal requests no token.  In a run, a failed
    request of a page is the last event: the run ends with its exception, no
    cursor was written or uploaded, and the bucket is as it was. *)
Theorem feed_fetch_never_retried recursion_limit (w : world R) :
  requests_never_raise_HTTPError net ->
  (forall url h w', fetch_page net url h w' = requests_get_json net url h w') /\
  (forall depth url h cs w',
     token_requests (events (delta_gather net environ depth url h cs w')) = []) /\
  let o := main net environ recursion_limit w in
  forall front url h e back,
    events o = front ++ EvGetFeed url h (Raise e) :: back ->
    back = [] /\ res o = Raise e /\
    Forall (fun e => ~ is_cursor_save e) (events o) /\
    bucket (final o) = bucket w.
Proof.
  intros Hnet. split; [by apply fetch_page_single|]. split.
  { intros depth url h cs w'.
    apply (token_requests_none gather_event); [by intros []|].
    eapply gather_events, delta_gather_trace. }
  intros o front url h e back Heq.
  pose proof (tracks_main net environ recursion_limit w) as Hb. fold o in Hb.
  pose proof (quiet_main net environ Hnet recursion_limit w) as Hq. fold o in Hq.
  assert (is_HTTPError e = false) as He.
  { rewrite Heq in Hq. apply Forall_app in Hq as [_ Hq].
    by inversion Hq. }
  destruct (run_failed_fetch _ _ _ (main_trace net environ recursion_limit w) _ _ _ _ _ Heq)
    as [(Hhttp & _)|(-> & Hr & Hns & Hnu)]; [congruence|].
  repeat split; try done. by rewrite Hb, replay_no_upload.
Qed.

End Never_retried.

(** The remote services of [Runs.clocked] keep to it when no injected fault
    is an HTTPError. *)
Lemma clocked_never_raises_HTTPError feed files token faults :
  (forall n e, faults n = Some e -> is_HTTPError e = false) ->
  requests_never_raise_HTTPError (Runs.clocked feed files token faults).
Proof.
  intros Hf url h n e. cbn [Runs.clocked graph_get_json fst].
  destruct (faults n) as [e'|] eqn:Hn; [intros [= <-]; by eapply Hf|].
  destruct (feed url); [discriminate | by intros [= <-]].
Qed.

Lemma feed_down_net_contract : requests_never_raise_HTTPError Cases.feed_down_net.
Proof.
  apply clocked_never_raises_HTTPError. intros n e. unfold Runs.fault_at.
  destruct (Nat.eqb n 2); [by intros [= <-] | discriminate].
Qed.

(** A request of the page that fails with a connection error, and a request
    that is answered with the body of an HTTP error: in both runs the page is
    requested once, the only token request is the one main starts with, and
    the run ends with an exception. *)
Lemma feed_fetch_never_retried_witness :
  let o := main Cases.feed_down_net Runs.env 10 Runs.fresh in
  let o' := main Samples.error_net Runs.env 10 Runs.fresh in
  requests_never_raise_HTTPError Cases.feed_down_net /\
  (events o = firstn 5 (events o) ++
              [EvGetFeed Runs.start_url Runs.the_headers (Raise ConnectionError)] /\
   res o = Raise ConnectionError /\ bucket (final o) = ∅ /\
   feed_requests (events o) = [Runs.start_url] /\
   List.length (token_requests (events o)) = 1) /\
  (feed_requests (events o') = [Runs.start_url] /\
   List.length (token_requests (events o')) = 1 /\
   res o' = Raise (KeyError "value")).
Proof.
  intros o o'.
  assert (events o = firstn 5 (events o) ++
            EvGetFeed Runs.start_url Runs.the_headers (Raise ConnectionError) :: [])
    as Heq by (vm_compute; reflexivity).
  destruct (feed_fetch_never_retried Cases.feed_down_net Runs.env 10 Runs.fresh
              feed_down_net_contract) as (_ & _ & H).
  destruct (H _ _ _ _ _ Heq) as (_ & Hr & _ & Hb).
  split; [exact feed_down_net_contract|]. split.
  - split; [exact Heq|]. split; [exact Hr|]. split; [exact Hb|]. vm_compute. by split.
  - vm_compute. by repeat split.
Defined.

(** ** Saving the cursor *)

Lemma slash_key rel name : rel +:+ "/" +:+ name <> "deltaLink.json".
Proof.
  intros H.
  assert (str_contains "/" "deltaLink.json" = true) as Hc
    by (apply str_contains_spec; by exists rel, name).
  vm_compute in Hc. discriminate.
Qed.

Lemma transfer_event_no_save e : transfer_event e -> ~ is_cursor_save e.
Proof.
  destruct e as [| | |p c r| | |f k r| |]; simpl; try tauto.
  - destruct c; tauto.
  - intros (rel & name & ->) H. by apply slash_key in H.
Qed.

Lemma accumulate_page_None environ cs p :
  accumulate_page environ cs p = Ret None -> page_records p = [].
Proof.
  unfold accumulate_page, page_records.
  destruct (environ !! "target_folder_prod") as [tf|]; [|done].
  destruct (environ !! "target_driveID_prod") as [td|]; [|done].
  destruct (p_value p) as [[|j v]|]; try done. cbn [List.length Nat.ltb Nat.leb].
  by destruct (filter_records tf td cs (j :: v)).
Qed.

Lemma cursor_save_Ret m evs :
  cursor_save m evs (Ret tt) ->
  exists r0 back,
    evs = EvWrite "/tmp/deltaLink.json" (DeltaLinkJson m) (Ret tt) ::
          EvUpload "/tmp/deltaLink.json" "deltaLink.json" r0 :: back /\
    cursor_upload_outcome m r0 back.
Proof.
  intros H; inversion H; subst; eexists _, _; (split; [reflexivity|]);
    first [by left | right; eauto].
Qed.

Lemma cursor_upload_outcome_app m r0 back evs :
  cursor_upload_outcome m r0 back -> cursor_upload_outcome m r0 (back ++ evs).
Proof. intros [?|(e & back' & -> & ->)]; [by left|]. right. by exists e, (back' ++ evs). Qed.

(** A failed upload of the cursor raises nothing. *)
Lemma cursor_save_upload_failed m evs r f k e :
  cursor_save m evs r -> In (EvUpload f k (Raise e)) evs -> r = Ret tt.
Proof. intros H; inversion H; subst; intros Hin; in_list; done. Qed.

Lemma cursor_save_upload m evs r f k c :
  cursor_save m evs r -> In (EvUpload f k (Ret c)) evs -> c = DeltaLinkJson m.
Proof. intros H; inversion H; subst; intros Hin; in_list; congruence. Qed.

Lemma page_fetch_Ret_In url h evf p :
  page_fetch url h evf (Ret p) -> In (EvGetFeed url h (Ret p)) evf.
Proof. intros H; inversion H; subst; simpl; tauto. Qed.

Lemma page_fetch_no_upload url h evf r f k x :
  page_fetch url h evf r -> ~ In (EvUpload f k x) evf.
Proof. intros H Hin; inversion H; subst; in_list. Qed.

(** A traversal that returns has, for every page with records and a
    deltaLink that it read, written that deltaLink to the scratch file and
    then tried to upload the file. *)
Lemma gather_saves environ h url cs evs r :
  gather environ h url cs evs r ->
  forall cs', r = Ret cs' ->
  forall u h' p m,
    In (EvGetFeed u h' (Ret p)) evs -> p_deltaLink p = Some m -> page_records p <> [] ->
    exists front r0 back,
      evs = front ++ EvWrite "/tmp/deltaLink.json" (DeltaLinkJson m) (Ret tt) ::
                     EvUpload "/tmp/deltaLink.json" "deltaLink.json" r0 :: back /\
      cursor_upload_outcome m r0 back.
Proof.
  induction 1 as [url cs|url cs evf e0 Hf|url cs evf p e0 Hf Hacc|url cs evf p Hf Hacc|
                  url cs evf p cs1 evs r Hf Hacc Hnext Hs|
                  url cs evf p cs1 nextLink evn e0 Hf Hacc Hnext Hg IH|
                  url cs evf p cs1 nextLink evn cs2 evs r Hf Hacc Hnext Hg IH Hs];
    intros cs' Hr u h' p0 m Hin Hm Hrec; try discriminate.
  - apply (page_fetch_In _ _ _ _ _ _ _ Hf) in Hin as [= <-].
    by apply accumulate_page_None in Hacc.
  - destruct r as [[]|]; [|done].
    apply in_app_or in Hin as [Hin|Hin];
      [|by apply (link_save_no_feed _ _ _ _ _ _ Hs) in Hin].
    apply (page_fetch_In _ _ _ _ _ _ _ Hf) in Hin as [= <-].
    rewrite Hm in Hs. inversion Hs as [|? ? ? Hc]; subst.
    destruct (cursor_save_Ret _ _ Hc) as (r0 & back & -> & Hr0).
    by exists evf, r0, back.
  - destruct r as [[]|]; [|done].
    apply in_app_or in Hin as [Hin|Hin].
    + apply (page_fetch_In _ _ _ _ _ _ _ Hf) in Hin as [= <-].
      rewrite Hm in Hs. inversion Hs as [|? ? ? Hc]; subst.
      destruct (cursor_save_Ret _ _ Hc) as (r0 & back & -> & Hr0).
      exists (evf ++ evn), r0, back. by rewrite <- app_assoc.
    + apply in_app_or in Hin as [Hin|Hin];
        [|by apply (link_save_no_feed _ _ _ _ _ _ Hs) in Hin].
      destruct (IH cs2 eq_refl _ _ _ _ Hin Hm Hrec) as (front & r0 & back & -> & Hr0).
      exists (evf ++ front), r0, (back ++ evs).
      split; [|by apply cursor_upload_outcome_app].
      by rewrite <- !app_assoc.
Qed.

(** An upload that stored something under the cursor key stored the
    deltaLink of a page that was read. *)
Lemma gather_upload_source environ h url cs evs r :
  gather environ h url cs evs r ->
  forall f c, In (EvUpload f "deltaLink.json" (Ret c)) evs ->
  exists u h' p m,
    In (EvGetFeed u h' (Ret p)) evs /\ p_deltaLink p = Some m /\ c = DeltaLinkJson m.
Proof.
  assert (forall o evs r f c evf url p,
            link_save o evs r -> o = p_deltaLink p -> page_fetch url h evf (Ret p) ->
            In (EvUpload f "deltaLink.json" (Ret c)) evs ->
            exists m, In (EvGetFeed url h (Ret p)) evf /\ p_deltaLink p = Some m /\
                      c = DeltaLinkJson m) as Hlink.
  { intros o evs0 r0 f c evf url0 p Hs Ho Hf Hin.
    inversion Hs as [|m ? ? Hc]; subst; [destruct Hin|].
    exists m. split; [by apply page_fetch_Ret_In|]. split; [done|].
    by eapply cursor_save_upload. }
  induction 1 as [url cs|url cs evf e0 Hf|url cs evf p e0 Hf Hacc|url cs evf p Hf Hacc|
                  url cs evf p cs1 evs r Hf Hacc Hnext Hs|
                  url cs evf p cs1 nextLink evn e0 Hf Hacc Hnext Hg IH|
                  url cs evf p cs1 nextLink evn cs2 evs r Hf Hacc Hnext Hg IH Hs];
    intros f c Hin;
    try (by apply (page_fetch_no_upload _ _ _ _ _ _ _ Hf) in Hin).
  - destruct Hin.
  - apply in_app_or in Hin as [Hin|Hin];
      [by apply (page_fetch_no_upload _ _ _ _ _ _ _ Hf) in Hin|].
    destruct (Hlink _ _ _ _ _ _ _ _ Hs eq_refl Hf Hin) as (m & ? & ? & ?).
    exists url, h, p, m. rewrite in_app_iff. tauto.
  - apply in_app_or in Hin as [Hin|Hin];
      [by apply (page_fetch_no_upload _ _ _ _ _ _ _ Hf) in Hin|].
    destruct (IH _ _ Hin) as (u & h' & p' & m & ? & ? & ?).
    exists u, h', p', m. rewrite in_app_iff. tauto.
  - apply in_app_or in Hin as [Hin|Hin];
      [by apply (page_fetch_no_upload _ _ _ _ _ _ _ Hf) in Hin|].
    apply in_app_or in Hin as [Hin|Hin].
    + destruct (IH _ _ Hin) as (u & h' & p' & m & ? & ? & ?).
      exists u, h', p', m. rewrite !in_app_iff. tauto.
    + destruct (Hlink _ _ _ _ _ _ _ _ Hs eq_refl Hf Hin) as (m & ? & ? & ?).
      exists url, h, p, m. rewrite !in_app_iff. tauto.
Qed.

Lemma replay_lookup_unchanged k evs b :
  (forall f c, ~ In (EvUpload f k (Ret c)) evs) -> replay_bucket evs b !! k = b !! k.
Proof.
  unfold replay_bucket. revert b; induction evs as [|e evs IH]; intros b H; [done|].
  simpl. rewrite IH by (intros f c Hin; apply (H f c); by right).
  destruct e as [| | | | | |f k' [c|]| |]; try done. simpl.
  apply lookup_insert_ne. intros ->. apply (H f c). by left.
Qed.

Lemma no_content_fetch_prologue evs :
  Forall prologue_event evs -> Forall (fun e => ~ is_content_fetch e) evs.
Proof. intros H. eapply Forall_impl; [exact H|]. intros [] ?; simpl in *; tauto. Qed.

Lemma no_content_fetch_gather evs :
  Forall gather_event evs -> Forall (fun e => ~ is_content_fetch e) evs.
Proof. intros H. eapply Forall_impl; [exact H|]. intros [] ?; simpl in *; tauto. Qed.

(** The events of a run split in two: no content is requested in the first
    part, no cursor is written or uploaded in the second. *)
Lemma run_order environ evs r :
  run_trace environ evs r ->
  exists before after,
    evs = before ++ after /\
    Forall (fun e => ~ is_content_fetch e) before /\
    Forall (fun e => ~ is_cursor_save e) after.
Proof.
  intros [evp e Hp|evp h u evg e Hp Hg|evp h u evg cs evt r0 Hp Hg Ht].
  - exists evp, []. rewrite app_nil_r. split; [done|].
    split; [by apply no_content_fetch_prologue | constructor].
  - exists (evp ++ evg), []. rewrite app_nil_r. split; [done|]. split; [|constructor].
    apply Forall_app_2; [by apply no_content_fetch_prologue|].
    apply no_content_fetch_gather. by eapply gather_events.
  - exists (evp ++ evg),
      (evt ++ match r0 with Ret _ => [EvPrint LScriptExited] | Raise _ => [] end).
    split; [by rewrite <- app_assoc|]. split.
    + apply Forall_app_2; [by apply no_content_fetch_prologue|].
      apply no_content_fetch_gather. by eapply gather_events.
    + apply Forall_app_2.
      * eapply Forall_impl; [by eapply transfer_trace_events|].
        intros e. apply transfer_event_no_save.
      * destruct r0; repeat constructor; simpl; tauto.
Qed.

Lemma Forall_app_front {A} (Q : A -> Prop) (front back : list A) :
  Forall Q (front ++ back) -> Forall Q front.
Proof. intros H. by apply Forall_app in H as [H _]. Qed.

Lemma run_saves environ evs r :
  run_trace environ evs r ->
  forall u h p m,
    In (EvGetFeed u h (Ret p)) evs -> p_deltaLink p = Some m -> page_records p <> [] ->
    (exists e, r = Raise e /\ Forall (fun e => ~ is_content_fetch e) evs) \/
    (exists front r0 back,
       evs = front ++ EvWrite "/tmp/deltaLink.json" (DeltaLinkJson m) (Ret tt) ::
                      EvUpload "/tmp/deltaLink.json" "deltaLink.json" r0 :: back /\
       cursor_upload_outcome m r0 back /\
       Forall (fun e => ~ is_content_fetch e) front).
Proof.
  intros [evp e Hp|evp h0 u0 evg e Hp Hg|evp h0 u0 evg cs evt r0 Hp Hg Ht]
    u h p m Hin Hm Hrec.
  - by apply (Forall_In _ _ _ Hp) in Hin.
  - left. exists e. split; [done|].
    apply Forall_app_2; [by apply no_content_fetch_prologue|].
    apply no_content_fetch_gather. by eapply gather_events.
  - right. apply in_app_or in Hin as [Hin|Hin]; [by apply (Forall_In _ _ _ Hp) in Hin|].
    apply in_app_or in Hin as [Hin|Hin].
    + pose proof (gather_events _ _ _ _ _ _ Hg) as Hge.
      destruct (gather_saves _ _ _ _ _ _ Hg cs eq_refl _ _ _ _ Hin Hm Hrec)
        as (front & r1 & back & -> & Hr1).
      exists (evp ++ front), r1,
        (back ++ evt ++ match r0 with Ret _ => [EvPrint LScriptExited] | Raise _ => [] end).
      split; [by rewrite <- !app_assoc|]. split; [by apply cursor_upload_outcome_app|].
      apply Forall_app_2; [by apply no_content_fetch_prologue|].
      apply no_content_fetch_gather. by apply Forall_app_front in Hge.
    + exfalso. apply in_app_or in Hin as [Hin|Hin].
      * by apply (Forall_In _ _ _ (transfer_trace_events _ _ _ _ _ Ht)) in Hin.
      * destruct r0; simpl in Hin; intuition discriminate.
Qed.

Lemma run_upload_source environ evs r :
  run_trace environ evs r ->
  forall f c, In (EvUpload f "deltaLink.json" (Ret c)) evs ->
  exists u h p m,
    In (EvGetFeed u h (Ret p)) evs /\ p_deltaLink p = Some m /\ c = DeltaLinkJson m.
Proof.
  intros [evp e Hp|evp h0 u0 evg e Hp Hg|evp h0 u0 evg cs evt r0 Hp Hg Ht] f c Hin.
  - by apply (Forall_In _ _ _ Hp) in Hin.
  - apply in_app_or in Hin as [Hin|Hin]; [by apply (Forall_In _ _ _ Hp) in Hin|].
    destruct (gather_upload_source _ _ _ _ _ _ Hg _ _ Hin) as (u & h & p & m & ? & ? & ?).
    exists u, h, p, m. rewrite in_app_iff. tauto.
  - apply in_app_or in Hin as [Hin|Hin]; [by apply (Forall_In _ _ _ Hp) in Hin|].
    apply in_app_or in Hin as [Hin|Hin].
    + destruct (gather_upload_source _ _ _ _ _ _ Hg _ _ Hin) as (u & h & p & m & ? & ? & ?).
      exists u, h, p, m. rewrite !in_app_iff. tauto.
    + exfalso. apply in_app_or in Hin as [Hin|Hin].
      * apply (Forall_In _ _ _ (transfer_trace_events _ _ _ _ _ Ht)) in Hin.
        by apply transfer_event_no_save in Hin.
      * destruct r0; simpl in Hin; intuition discriminate.
Qed.

(** The object under a key after a list of events is the one of the last
    successful upload to the key. *)
Lemma replay_last_upload k evs front f c back b :
  evs = front ++ EvUpload f k (Ret c) :: back ->
  (forall f' c', ~ In (EvUpload f' k (Ret c')) back) ->
  replay_bucket evs b !! k = Some c.
Proof.
  intros -> Hback. rewrite replay_bucket_app.
  change (replay_bucket (EvUpload f k (Ret c) :: back) ?b0)
    with (replay_bucket back (<[k := c]> b0)).
  rewrite (replay_lookup_unchanged k back) by done. apply lookup_insert_eq.
Qed.

(** When every successful upload to a key stored the same object, that
    object is under the key, or nothing was uploaded to it. *)
Lemma replay_same_upload k v evs b :
  (forall f c, In (EvUpload f k (Ret c)) evs -> c = v) ->
  replay_bucket evs b !! k = Some v \/
  (replay_bucket evs b !! k = b !! k /\ forall f c, ~ In (EvUpload f k (Ret c)) evs).
Proof.
  revert b. induction evs as [|e evs IH]; intros b Hall;
    [right; split; [done | intros ? ? []]|].
  change (replay_bucket (e :: evs) b) with (replay_bucket evs (apply_upload b e)).
  destruct (IH (apply_upload b e)) as [?|[Hk Hno]];
    [intros f c Hin; apply (Hall f c); by right | by left|].
  rewrite Hk.
  destruct e as [| | | | | |f key [c|]| |]; cbn [apply_upload];
    try (right; split; [done|]; intros f' c' [[=]|Hin]; by eapply Hno).
  destruct (decide (key = k)) as [->|Hne].
  - left. rewrite lookup_insert_eq. f_equal. apply (Hall f c). by left.
  - right. split; [by rewrite lookup_insert_ne|].
    intros f' c' [[= _ Heq _]|Hin]; [done | by eapply Hno].
Qed.

Section Cursor.

Context {R : Type} (net : oracle R) (environ : gmap string string).

(** C2 (amended): in every run, each write and upload of the cursor comes
    before the first request of an item's content.  For every page with at
    least one record and a deltaLink that the run read, either the run ended
    with an exception before any transfer, or the deltaLink was written to
    the scratch file and the upload of that file under the cursor key was
    attempted, before any transfer; that upload stored the deltaLink, or it
    failed and the two lines of the failure are printed next.  A failed
    upload of the cursor raises nothing: saving the deltaLink returns.  The
    bucket after the run is the bucket before it with the successful uploads
    applied: under the cursor key it holds what the last successful upload
    to that key stored, which is the deltaLink of a page that was read; it
    holds the deltaLink of the run when all the pages read that carry one
    carry the same and an upload of it succeeded; and it holds what it held
    when no upload to the key succeeded, as in a run that read no page with
    a deltaLink. *)
Theorem cursor_saved_before_transfers recursion_limit (w : world R) :
  let o := main net environ recursion_limit w in
  (exists before after,
     events o = before ++ after /\
     Forall (fun e => ~ is_content_fetch e) before /\
     Forall (fun e => ~ is_cursor_save e) after) /\
  (forall url h p m,
     In (EvGetFeed url h (Ret p)) (events o) ->
     p_deltaLink p = Some m -> page_records p <> [] ->
     (exists e, res o = Raise e /\ Forall (fun e => ~ is_content_fetch e) (events o)) \/
     (exists front r0 back,
        events o = front ++ EvWrite "/tmp/deltaLink.json" (DeltaLinkJson m) (Ret tt) ::
                            EvUpload "/tmp/deltaLink.json" "deltaLink.json" r0 :: back /\
        cursor_upload_outcome m r0 back /\
        Forall (fun e => ~ is_content_fetch e) front)) /\
  (forall m w' f k e,
     In (EvUpload f k (Raise e)) (events (save_deltaLink net environ m w')) ->
     res (save_deltaLink net environ m w') = Ret tt) /\
  bucket (final o) = replay_bucket (events o) (bucket w) /\
  (forall front f c back,
     events o = front ++ EvUpload f "deltaLink.json" (Ret c) :: back ->
     (forall f' c', ~ In (EvUpload f' "deltaLink.json" (Ret c')) back) ->
     bucket (final o) !! "deltaLink.json" = Some c /\
     exists url h p m,
       In (EvGetFeed url h (Ret p)) (events o) /\ p_deltaLink p = Some m /\
       c = DeltaLinkJson m) /\
  (forall m,
     (forall url h p m', In (EvGetFeed url h (Ret p)) (events o) ->
                         p_deltaLink p = Some m' -> m' = m) ->
     (exists f c, In (EvUpload f "deltaLink.json" (Ret c)) (events o)) ->
     bucket (final o) !! "deltaLink.json" = Some (DeltaLinkJson m)) /\
  ((forall f c, ~ In (EvUpload f "deltaLink.json" (Ret c)) (events o)) ->
   bucket (final o) !! "deltaLink.json" = bucket w !! "deltaLink.json") /\
  ((forall url h p, In (EvGetFeed url h (Ret p)) (events o) -> p_deltaLink p = None) ->
   bucket (final o) !! "deltaLink.json" = bucket w !! "deltaLink.json").
Proof.
  intros o. pose proof (main_trace net environ recursion_limit w) as Hrun. fold o in Hrun.
  pose proof (tracks_main net environ recursion_limit w) as Hb. fold o in Hb.
  split; [by eapply run_order|]. split; [by eapply run_saves|].
  split.
  { intros m w' f k e Hin.
    by eapply cursor_save_upload_failed; [apply save_deltaLink_trace|]. }
  split; [exact Hb|]. split; [|split; [|split]].
  - intros front f c back Heq Hlast. split.
    + rewrite Hb. by eapply replay_last_upload.
    + apply (run_upload_source _ _ _ Hrun f). rewrite Heq, in_app_iff. simpl. tauto.
  - intros m Hsame [f [c Hin]].
    assert (forall f c, In (EvUpload f "deltaLink.json" (Ret c)) (events o) ->
                        c = DeltaLinkJson m) as Hall.
    { intros f' c' Hin'.
      destruct (run_upload_source _ _ _ Hrun _ _ Hin') as (u & h & p & m' & Hp & Hm & ->).
      by rewrite (Hsame _ _ _ _ Hp Hm). }
    rewrite Hb.
    destruct (replay_same_upload "deltaLink.json" (DeltaLinkJson m) (events o) (bucket w)
                Hall) as [?|[_ Hno]]; [done|].
    by destruct (Hno f c).
  - intros Hno. rewrite Hb. by apply replay_lookup_unchanged.
  - intros Hnone. rewrite Hb. apply replay_lookup_unchanged. intros f c Hin.
    destruct (run_upload_source _ _ _ Hrun _ _ Hin) as (u & h & p & m & Hp & Hm & _).
    rewrite (Hnone _ _ _ Hp) in Hm. discriminate.
Qed.

End Cursor.

Lemma cursor_saved_before_transfers_witness :
  let o := main Cases.a_net Runs.env 10 Runs.fresh in
  In (EvGetFeed Runs.start_url Runs.the_headers (Ret Cases.a_page)) (events o) /\
  p_deltaLink Cases.a_page = Some "delta-5" /\ page_records Cases.a_page <> [] /\
  res o = Ret tt /\
  bucket (final o) !! "deltaLink.json" = Some (DeltaLinkJson "delta-5").
Proof.
  intros o.
  assert (In (EvGetFeed Runs.start_url Runs.the_headers (Ret Cases.a_page)) (events o))
    as Hin by (vm_compute; tauto).
  assert (page_records Cases.a_page <> []) as Hrec by discriminate.
  destruct (cursor_saved_before_transfers Cases.a_net Runs.env 10 Runs.fresh)
    as (_ & Hsave & _ & Hb & _).
  destruct (Hsave _ _ _ _ Hin eq_refl Hrec) as [(e & He & _)|_].
  - vm_compute in He. discriminate He.
  - split; [exact Hin|]. split; [reflexivity|]. split; [exact Hrec|].
    split; [vm_compute; reflexivity|]. subst o. rewrite Hb. vm_compute. reflexivity.
Defined.

(** C2 as stated fails: the traversal reaches the page with the deltaLink,
    the upload of the cursor fails, nothing is stored under the cursor key,
    and the run goes on to transfer item A.  On a page with a deltaLink and no
    record nothing is written or uploaded at all.  And when the first page
    carries a deltaLink beside its nextLink, it is saved after that of the
    last page, and is the one the bucket keeps. *)
Lemma cursor_not_persisted_counterexample :
  let o := main Cases.cursor_upload_fails_net Runs.env 10 Runs.fresh in
  let o' := main Cases.empty_last_net Runs.env 10 Runs.fresh in
  let o2 := main Samples.two_marker_net Runs.env 10 Runs.fresh in
  (In (EvGetFeed Runs.start_url Runs.the_headers (Ret Cases.a_page)) (events o) /\
   p_deltaLink Cases.a_page = Some "delta-5" /\
   In (EvUpload "/tmp/deltaLink.json" "deltaLink.json" (Raise S3Error)) (events o) /\
   content_requests (events o) = [Cases.content_url_a] /\
   res o = Ret tt /\
   bucket (final o) !! "deltaLink.json" = None) /\
  (In (EvGetFeed Runs.start_url Runs.the_headers (Ret Cases.empty_last_page)) (events o') /\
   p_deltaLink Cases.empty_last_page = Some "delta-6" /\
   Forall (fun e => ~ is_cursor_save e) (events o') /\
   res o' = Ret tt /\
   bucket (final o') !! "deltaLink.json" = None) /\
  (In (EvGetFeed "page2" Runs.the_headers (Ret Samples.marked_second_page)) (events o2) /\
   p_nextLink Samples.marked_second_page = None /\
   p_deltaLink Samples.marked_second_page = Some "d2" /\
   In (EvUpload "/tmp/deltaLink.json" "deltaLink.json" (Ret (DeltaLinkJson "d2")))
      (events o2) /\
   res o2 = Ret tt /\
   bucket (final o2) !! "deltaLink.json" = Some (DeltaLinkJson "d1")).
Proof.
  vm_compute. repeat split; try tauto. repeat constructor; tauto.
Qed.

(** C1 fails on the code: the first page of the feed has no record and a
    nextLink.  The traversal stops there: the second page, which holds item
    A and the deltaLink, is never requested, nothing is transferred, no
    cursor is stored, and the run ends normally. *)
Lemma empty_page_stops_traversal :
  let o := main Cases.empty_first_net Runs.env 10 Runs.fresh in
  p_nextLink Cases.empty_page = Some "page2" /\
  feed_requests (events o) = [Runs.start_url] /\
  content_requests (events o) = [] /\
  bucket (final o) !! "deltaLink.json" = None /\
  res o = Ret tt /\ In (EvPrint LScriptExited) (events o).
Proof. vm_compute. repeat split; tauto. Qed.

(** * Properties of the single functions *)

(** ** s3_ops *)

Section S3_ops.

Context {R : Type} (net : oracle R) (environ : gmap string string).

(** s3_ops "download" with the credentials configured: either the download
    fails, the failure is logged and nothing changes, or the object is copied
    to the local file. *)
Lemma s3_ops_download_cases filename key (w : world R) :
  aws_env_ok environ ->
  (exists e x, s3_ops net environ filename key "download" w =
     Out (Ret false) (World x (tmp w) (bucket w))
       [EvDownload filename key (Raise e); EvPrint (LS3Error "download" filename);
        EvPrint (LExn e)]) \/
  (exists c x, bucket w !! key = Some c /\
     s3_ops net environ filename key "download" w =
     Out (Ret true) (World x (<[filename := c]> (tmp w)) (bucket w))
       [EvDownload filename key (Ret c); EvPrint (LS3Success "download" filename)]).
Proof.
  intros [[k1 H1] [k2 H2]].
  unfold s3_ops, getenv. rewrite H1, H2.
  rewrite !bind_eq. cbn [res final events app ret try String.eqb Ascii.eqb Bool.eqb].
  unfold download_file.
  destruct (io_fault net (IoDownload filename key) (ext w)) as [[e|] x];
    cbn [res final events app ret print bind]; [left; eauto|].
  destruct (bucket w !! key) as [c|];
    cbn [res final events app ret print bind]; [right; eauto | left; eauto].
Qed.

(** With the credentials configured s3_ops returns, whatever the action. *)
Lemma s3_ops_returns filename key action (w : world R) :
  aws_env_ok environ -> exists b, res (s3_ops net environ filename key action w) = Ret b.
Proof.
  intros [[k1 H1] [k2 H2]].
  unfold s3_ops, getenv. rewrite H1, H2.
  rewrite !bind_eq. cbn [res final events app ret try].
  match goal with |- context [res (?m w)] => destruct (res (m w)) end;
    cbn [res final events app ret print bind]; eauto.
Qed.

(** X1.  s3_ops raises exactly when one of the two credential variables is
    missing from the environment: it then raises KeyError for the first one
    that is missing, before it prints or calls the bucket.  Every failure of
    the bucket call itself comes back as False. *)
Theorem s3_ops_raises_without_credentials filename_local filename_s3 action (w : world R) :
  let o := s3_ops net environ filename_local filename_s3 action w in
  ((exists e, res o = Raise e) <-> ~ aws_env_ok environ) /\
  (environ !! "aws_bucket_key_id" = None ->
   o = Out (Raise (KeyError "aws_bucket_key_id")) w []) /\
  (is_Some (environ !! "aws_bucket_key_id") ->
   environ !! "aws_bucket_secret_key" = None ->
   o = Out (Raise (KeyError "aws_bucket_secret_key")) w []).
Proof.
  cbv zeta. split; [split|split].
  - intros [e He] Henv.
    destruct (s3_ops_returns filename_local filename_s3 action w Henv) as [b Hb].
    congruence.
  - intros Hno.
    destruct (s3_ops_no_env net environ filename_local filename_s3 action w Hno) as [k ->].
    eauto.
  - intros H1. unfold s3_ops, getenv. by rewrite H1.
  - intros [k1 H1] H2. unfold s3_ops, getenv. by rewrite H1, H2.
Qed.

(** X2.  With the credentials configured, s3_ops "upload" never raises and
    never changes a local file.  It returns True exactly when it stored the
    content of the local file under the key, and False with the bucket as it
    was; a local file that does not exist gives False. *)
Theorem s3_ops_upload_effect filename key (w : world R) :
  aws_env_ok environ ->
  let o := s3_ops net environ filename key "upload" w in
  tmp (final o) = tmp w /\
  ((res o = Ret true /\
    exists c, tmp w !! filename = Some c /\ bucket (final o) = <[key := c]> (bucket w) /\
              In (EvUpload filename key (Ret c)) (events o)) \/
   (res o = Ret false /\ bucket (final o) = bucket w /\
    exists e, In (EvPrint (LExn e)) (events o))) /\
  (tmp w !! filename = None -> res o = Ret false).
Proof.
  intros Henv.
  destruct (s3_ops_upload_cases net environ filename key w Henv)
    as [(e & x & ->)|(c & x & Hc & ->)]; cbn [res final events tmp bucket].
  - split; [done|]. split; [|done]. right. repeat split. exists e. simpl; auto.
  - split; [done|]. split; [|congruence]. left. split; [done|].
    exists c. repeat split; simpl; auto.
Qed.

(** X3.  With the credentials configured, s3_ops "download" never raises and
    never changes the bucket.  It returns True exactly when it copied the
    object under the key to the local file, and False with the local files as
    they were; a key that is not in the bucket gives False. *)
Theorem s3_ops_download_effect filename key (w : world R) :
  aws_env_ok environ ->
  let o := s3_ops net environ filename key "download" w in
  bucket (final o) = bucket w /\
  ((res o = Ret true /\
    exists c, bucket w !! key = Some c /\ tmp (final o) = <[filename := c]> (tmp w) /\
              In (EvDownload filename key (Ret c)) (events o)) \/
   (res o = Ret false /\ tmp (final o) = tmp w /\
    exists e, In (EvPrint (LExn e)) (events o))) /\
  (bucket w !! key = None -> res o = Ret false).
Proof.
  intros Henv.
  destruct (s3_ops_download_cases filename key w Henv)
    as [(e & x & ->)|(c & x & Hc & ->)]; cbn [res final events tmp bucket].
  - split; [done|]. split; [|done]. right. repeat split. exists e. simpl; auto.
  - split; [done|]. split; [|congruence]. left. split; [done|].
    exists c. repeat split; simpl; auto.
Qed.

End S3_ops.

Lemma staged_world_file : tmp Samples.staged_world !! "/tmp/a.txt" = Some (Bytes "content").
Proof. reflexivity. Qed.

Lemma s3_ops_upload_effect_witness :
  let o := s3_ops Cases.a_net Runs.env "/tmp/a.txt" "/Invoices/a.txt" "upload"
             Samples.staged_world in
  aws_env_ok Runs.env /\
  res o = Ret true /\
  bucket (final o) !! "/Invoices/a.txt" = Some (Bytes "content") /\
  tmp (final o) = tmp Samples.staged_world.
Proof.
  pose proof (s3_ops_upload_effect Cases.a_net Runs.env "/tmp/a.txt" "/Invoices/a.txt"
                Samples.staged_world runs_env_ok) as H.
  cbv zeta in H. destruct H as (Ht & [(Hr & c & Hc & Hb & _)|(Hr & _)] & _).
  - split; [exact runs_env_ok|]. split; [exact Hr|]. split; [|exact Ht].
    rewrite Hb, lookup_insert_eq. rewrite staged_world_file in Hc. by injection Hc as <-.
  - exfalso. vm_compute in Hr. discriminate Hr.
Defined.

Lemma s3_ops_download_effect_witness :
  let o := s3_ops Cases.a_net Runs.env "/tmp/deltaLink.json" "deltaLink.json" "download"
             Samples.resumed in
  aws_env_ok Runs.env /\
  res o = Ret true /\
  tmp (final o) !! "/tmp/deltaLink.json" = Some (DeltaLinkJson "page2") /\
  bucket (final o) = bucket Samples.resumed.
Proof.
  pose proof (s3_ops_download_effect Cases.a_net Runs.env "/tmp/deltaLink.json"
                "deltaLink.json" Samples.resumed runs_env_ok) as H.
  cbv zeta in H. destruct H as (Hb & [(Hr & c & Hc & Ht & _)|(Hr & _)] & _).
  - split; [exact runs_env_ok|]. split; [exact Hr|]. split; [|exact Hb].
    rewrite Ht, lookup_insert_eq.
    assert (bucket Samples.resumed !! "deltaLink.json" = Some (DeltaLinkJson "page2")) as Hk
      by reflexivity.
    rewrite Hk in Hc. by injection Hc as <-.
  - exfalso. vm_compute in Hr. discriminate Hr.
Defined.

(** ** token_gains and the start of main *)

Section Token.

Context {R : Type} (net : oracle R) (environ : gmap string string).

(** X4.  With its three variables configured, token_gains sends exactly one
    request: the client-credentials form with the application id and secret,
    to the token endpoint of the tenant.  It returns the access_token of the
    answer, raises KeyError when the answer has none, and lets the exception
    of a failed request through.  It touches neither the local files nor the
    bucket. *)
Theorem token_gains_request appId appSecret tenantId (w : world R) :
  environ !! "appId" = Some appId ->
  environ !! "appSecret" = Some appSecret ->
  environ !! "tenantId" = Some tenantId ->
  let o := token_gains net environ w in
  exists r,
    events o = [EvPostToken (token_url tenantId) (token_body appId appSecret) r] /\
    res o = match r with
            | Ret resp => subscript "access_token" (access_token resp)
            | Raise e => Raise e
            end /\
    tmp (final o) = tmp w /\ bucket (final o) = bucket w.
Proof.
  intros H1 H2 H3. unfold token_gains, getenv. rewrite H1, H2, H3.
  do 3 (rewrite bind_eq; cbn [res final events app ret raise]).
  rewrite bind_eq. unfold requests_post_json, token_url, token_body.
  match goal with |- context [aad_post net ?u ?b (ext w)] =>
    destruct (aad_post net u b (ext w)) as [[resp|e] x] end;
    cbn [res final events app ret raise tmp bucket].
  - exists (Ret resp). unfold subscript.
    destruct (access_token resp); cbn [res final events app ret raise tmp bucket];
      rewrite ?app_nil_r; auto.
  - exists (Raise e). auto.
Qed.

(** Whatever token_gains does, the bucket and the local files stay as they
    were. *)
Lemma token_gains_frame (w : world R) :
  tmp (final (token_gains net environ w)) = tmp w /\
  bucket (final (token_gains net environ w)) = bucket w.
Proof.
  unfold token_gains, getenv.
  destruct (environ !! "appId"); rewrite bind_eq;
    cbn [res final events app ret raise]; [|done].
  destruct (environ !! "appSecret"); rewrite bind_eq;
    cbn [res final events app ret raise]; [|done].
  destruct (environ !! "tenantId"); rewrite bind_eq;
    cbn [res final events app ret raise]; [|done].
  rewrite bind_eq. unfold requests_post_json.
  match goal with |- context [aad_post net ?u ?b (ext w)] =>
    destruct (aad_post net u b (ext w)) as [[resp|e] x] end;
    cbn [res final events app ret raise tmp bucket]; [|done].
  destruct (access_token resp); cbn [res final events app ret raise tmp bucket]; done.
Qed.

(** X5.  When token_gains fails at the start of main, for whatever reason,
    main prints the failure and then stops with UnboundLocalError for
    aadToken: the handler does not assign the token the next statement reads.
    Nothing is requested from Graph or from the bucket, and the closing line
    is not printed. *)
Theorem main_token_failure recursion_limit (w : world R) e :
  res (token_gains net environ w) = Raise e ->
  main net environ recursion_limit w =
  Out (Raise (UnboundLocalError "aadToken")) (final (token_gains net environ w))
    (EvPrint LScriptStarted :: events (token_gains net environ w) ++
     [EvPrint LTokenError; EvPrint (LExn e)]).
Proof.
  intros He. unfold main. step. step.
  destruct (token_gains net environ w) as [r w1 evt]; cbn [res final events app] in *.
  subst r. do 4 step. by rewrite ?app_nil_r.
Qed.

(** X6.  When the token was obtained and driveId_prod is not configured, main
    stops with KeyError for that variable right after the token request:
    the bucket is not contacted and no page is requested. *)
Theorem main_missing_drive_id recursion_limit (w : world R) t :
  res (token_gains net environ w) = Ret t ->
  environ !! "driveId_prod" = None ->
  main net environ recursion_limit w =
  Out (Raise (KeyError "driveId_prod")) (final (token_gains net environ w))
    (EvPrint LScriptStarted :: events (token_gains net environ w)).
Proof.
  intros Ht Hd. unfold main. step. step.
  destruct (token_gains net environ w) as [r w1 evt]; cbn [res final events app] in *.
  subst r. do 2 step. rewrite bind_eq. unfold getenv. rewrite Hd.
  cbn [res final events app ret raise]. by rewrite ?app_nil_r.
Qed.

End Token.

Lemma token_gains_request_witness :
  let o := token_gains Cases.a_net Runs.env Runs.fresh in
  Runs.env !! "appId" = Some "app" /\
  Runs.env !! "appSecret" = Some "app-secret" /\
  Runs.env !! "tenantId" = Some "tenant" /\
  events o = [EvPostToken "https://login.microsoftonline.com/tenant/oauth2/v2.0/token"
                (token_body "app" "app-secret") Runs.granted] /\
  res o = Ret "token".
Proof.
  assert (Runs.env !! "appId" = Some "app") as H1 by reflexivity.
  assert (Runs.env !! "appSecret" = Some "app-secret") as H2 by reflexivity.
  assert (Runs.env !! "tenantId" = Some "tenant") as H3 by reflexivity.
  destruct (token_gains_request Cases.a_net Runs.env "app" "app-secret" "tenant" Runs.fresh
              H1 H2 H3) as (r & Hev & Hres & _).
  assert (events (token_gains Cases.a_net Runs.env Runs.fresh) =
          [EvPostToken (token_url "tenant") (token_body "app" "app-secret") Runs.granted])
    as Hev' by (vm_compute; reflexivity).
  rewrite Hev' in Hev. injection Hev as <-.
  split; [exact H1|]. split; [exact H2|]. split; [exact H3|]. split; [exact Hev'|].
  exact Hres.
Defined.

Lemma token_down : res (token_gains Samples.token_down_net Runs.env Runs.fresh) =
                   Raise ConnectionError.
Proof. vm_compute. reflexivity. Qed.

Lemma main_token_failure_witness :
  let o := main Samples.token_down_net Runs.env 10 Runs.fresh in
  res (token_gains Samples.token_down_net Runs.env Runs.fresh) = Raise ConnectionError /\
  res o = Raise (UnboundLocalError "aadToken") /\
  List.length (events o) = 4 /\ bucket (final o) = ∅ /\
  ~ In (EvPrint LScriptExited) (events o).
Proof.
  split; [exact token_down|].
  rewrite (main_token_failure Samples.token_down_net Runs.env 10 Runs.fresh ConnectionError
             token_down).
  cbn [res final events]. split; [reflexivity|].
  split; [vm_compute; reflexivity|]. split; [vm_compute; reflexivity|].
  vm_compute. intros [H|[H|[H|[H|[]]]]]; discriminate H.
Defined.

Lemma token_granted : res (token_gains Cases.a_net Samples.env_no_drive Runs.fresh) =
                      Ret "token".
Proof. vm_compute. reflexivity. Qed.

Lemma main_missing_drive_id_witness :
  let o := main Cases.a_net Samples.env_no_drive 10 Runs.fresh in
  res (token_gains Cases.a_net Samples.env_no_drive Runs.fresh) = Ret "token" /\
  Samples.env_no_drive !! "driveId_prod" = None /\
  res o = Raise (KeyError "driveId_prod") /\
  List.length (events o) = 2.
Proof.
  assert (Samples.env_no_drive !! "driveId_prod" = None) as Hd by reflexivity.
  split; [exact token_granted|]. split; [exact Hd|].
  rewrite (main_missing_drive_id Cases.a_net Samples.env_no_drive 10 Runs.fresh "token"
             token_granted Hd).
  cbn [res final events]. split; [reflexivity | vm_compute; reflexivity].
Defined.

(** ** The stored deltaLink: save_deltaLink and load_deltaLink *)

Section Cursor_file.

Context {R : Type} (net : oracle R) (environ : gmap string string).

Lemma json_load_cases path (w : world R) :
  exists r x, json_load net path w = Out r (World x (tmp w) (bucket w)) [EvRead path r] /\
              forall c, r = Ret c -> tmp w !! path = Some c.
Proof.
  unfold json_load. destruct (io_fault net (IoRead path) (ext w)) as [[e|] x].
  - eexists _, _. split; [reflexivity | discriminate].
  - eexists _, _. split; [reflexivity|].
    destruct (tmp w !! path) as [[b|l|i]|]; intros c Hc; congruence.
Qed.

Lemma Exists_here {A} (Q : A -> Prop) x (l1 l2 : list A) : Q x -> Exists Q (l1 ++ x :: l2).
Proof. intros. apply Exists_app. right. by constructor. Qed.

(** What load_deltaLink can do.  It gives the URL it was given when the
    credentials are missing, when the download or the reading failed, or when
    the object is not a stored deltaLink; else it gives the stored link, and
    the local copy is gone unless its removal failed. *)
Lemma load_deltaLink_cases delta_url (w : world R) :
  let o := load_deltaLink net environ delta_url w in
  bucket (final o) = bucket w /\
  ((res o = Ret delta_url /\
    (~ aws_env_ok environ \/ Exists failed (events o) \/
     exists c, bucket w !! "deltaLink.json" = Some c /\ forall l, c <> DeltaLinkJson l)) \/
   (exists l, res o = Ret l /\ bucket w !! "deltaLink.json" = Some (DeltaLinkJson l) /\
      (tmp (final o) !! "/tmp/deltaLink.json" = None \/
       exists e, In (EvRemove "/tmp/deltaLink.json" (Raise e)) (events o)))).
Proof.
  cbv zeta. unfold load_deltaLink. rewrite bind_eq, try_eq.
  destruct (aws_env_dec environ) as [Henv|Henv].
  2:{ destruct (s3_ops_no_env net environ "/tmp/deltaLink.json" "deltaLink.json" "download"
                  w Henv) as [k ->].
      cbn [res final events app]. do 2 step. cbn [res final events app ret]. auto. }
  destruct (s3_ops_download_cases net environ "/tmp/deltaLink.json" "deltaLink.json" w Henv)
    as [(e & x & ->)|(c & x & Hc & ->)]; cbn [res final events app ret bucket].
  { split; [done|]. left. split; [done|]. right; left. by constructor. }
  rewrite bind_eq. unfold os_path_exists. cbn [res final events app tmp].
  rewrite lookup_insert_eq, bool_decide_eq_true_2 by eauto.
  rewrite bind_eq, try_eq, bind_eq.
  match goal with |- context [json_load net ?p ?w0] =>
    destruct (json_load_cases p w0) as (r & x1 & -> & Hr) end.
  cbn [res final events app tmp bucket] in *.
  destruct r as [c'|e]; cbn [res final events app ret raise bucket].
  2:{ do 2 step. cbn [res final events app ret bucket]. split; [done|]. left.
      split; [done|]. right; left.
      apply (Exists_here failed _ [_; _]). exact I. }
  specialize (Hr c' eq_refl). rewrite lookup_insert_eq in Hr. injection Hr as <-.
  destruct c as [b|l|i]; cbn [res final events app ret raise bucket].
  - do 2 step. cbn [res final events app ret bucket]. split; [done|]. left.
    split; [done|]. right; right. exists (Bytes b). split; [done | discriminate].
  - rewrite bind_eq, try_eq.
    match goal with |- context [os_remove net ?p ?w0] =>
      destruct (os_remove_cases net p w0) as [(e & x2 & ->)|(x2 & _ & ->)] end;
      cbn [res final events app ret bucket tmp].
    + do 2 step. cbn [res final events app ret bucket]. split; [done|]. right.
      exists l. split; [done|]. split; [done|]. right. exists e. simpl. tauto.
    + split; [done|]. right. exists l. split; [done|]. split; [done|]. left.
      apply lookup_delete_eq.
  - do 2 step. cbn [res final events app ret bucket]. split; [done|]. left.
    split; [done|]. right; right. exists (ItemJson i). split; [done | discriminate].
Qed.

Lemma Forall_Exists_neg_contra {A} (Q : A -> Prop) (l : list A) :
  Forall (fun x => ~ Q x) l -> Exists Q l -> False.
Proof. induction 1; inversion 1; subst; auto. Qed.

(** X7.  With the credentials configured and a deltaLink stored in the bucket
    under "deltaLink.json", load_deltaLink returns that link whatever URL it
    was given, when none of its calls fails; the copy it made in /tmp is
    removed and the bucket is as it was. *)
Theorem load_deltaLink_resumes delta_url l (w : world R) :
  aws_env_ok environ ->
  bucket w !! "deltaLink.json" = Some (DeltaLinkJson l) ->
  let o := load_deltaLink net environ delta_url w in
  Forall (fun e => ~ failed e) (events o) ->
  res o = Ret l /\ bucket (final o) = bucket w /\
  tmp (final o) !! "/tmp/deltaLink.json" = None.
Proof.
  intros Henv Hl o Hok.
  destruct (load_deltaLink_cases delta_url w) as [Hb [[_ H]|(l' & Hres & Hl' & H)]];
    fold o in Hb, H |- *.
  - exfalso. destruct H as [H|[H|(c & Hc & H)]]; [done| |].
    + by eapply Forall_Exists_neg_contra.
    + rewrite Hl in Hc. injection Hc as <-. by apply (H l).
  - fold o in Hres. rewrite Hl in Hl'. injection Hl' as <-.
    split; [done|]. split; [done|].
    destruct H as [H|[e He]]; [done|]. exfalso.
    by apply (Forall_In _ _ _ Hok He).
Qed.

(** X8.  load_deltaLink never raises and never changes the bucket.  It
    returns either the URL it was given or the link stored in the bucket
    under "deltaLink.json"; without such an object it returns the URL it was
    given. *)
Theorem load_deltaLink_falls_back delta_url (w : world R) :
  let o := load_deltaLink net environ delta_url w in
  bucket (final o) = bucket w /\
  exists u, res o = Ret u /\
    (u = delta_url \/ bucket w !! "deltaLink.json" = Some (DeltaLinkJson u)) /\
    (bucket w !! "deltaLink.json" = None -> u = delta_url).
Proof.
  intros o.
  destruct (load_deltaLink_cases delta_url w) as [Hb [[Hres _]|(l & Hres & Hl & _)]];
    fold o in Hb, Hres |- *; (split; [done|]).
  - exists delta_url. auto.
  - exists l. split; [done|]. split; [auto|]. congruence.
Qed.

(** X9.  With the credentials configured, save_deltaLink either fails to
    write its scratch file and raises with nothing changed, or returns.  When
    it returns, either the bucket holds the new link under "deltaLink.json",
    or the upload failed: then the bucket is as it was and the scratch file
    stays in /tmp with the new link.  The scratch file is removed only after
    an upload that succeeded. *)
Theorem save_deltaLink_effect deltaLink (w : world R) :
  aws_env_ok environ ->
  let o := save_deltaLink net environ deltaLink w in
  (exists e, res o = Raise e /\ bucket (final o) = bucket w /\ tmp (final o) = tmp w /\
             events o = [EvWrite "/tmp/deltaLink.json" (DeltaLinkJson deltaLink) (Raise e)]) \/
  (res o = Ret tt /\
   ((bucket (final o) = <["deltaLink.json" := DeltaLinkJson deltaLink]> (bucket w) /\
     (tmp (final o) !! "/tmp/deltaLink.json" = None \/
      In (EvPrint LDeltaRemoveError) (events o))) \/
    (bucket (final o) = bucket w /\
     tmp (final o) !! "/tmp/deltaLink.json" = Some (DeltaLinkJson deltaLink) /\
     Forall (fun e => ~ is_remove e) (events o) /\
     exists e, In (EvUpload "/tmp/deltaLink.json" "deltaLink.json" (Raise e)) (events o)))).
Proof.
  intros Henv. cbv zeta. unfold save_deltaLink. rewrite bind_eq.
  destruct (open_write_cases net "/tmp/deltaLink.json" (DeltaLinkJson deltaLink) w)
    as [(e & x & ->)|(x & ->)]; cbn [res final events app bucket tmp].
  { left. exists e. auto. }
  right. rewrite bind_eq.
  destruct (s3_ops_upload_cases net environ "/tmp/deltaLink.json" "deltaLink.json"
              (World x (<["/tmp/deltaLink.json":=DeltaLinkJson deltaLink]> (tmp w))
                 (bucket w)) Henv) as [(e & x' & ->)|(c & x' & Hc & ->)];
    cbn [res final events app ret tmp bucket] in *.
  - split; [done|]. right. split; [done|]. split; [apply lookup_insert_eq|].
    split; [repeat constructor; simpl; tauto|]. exists e. simpl. tauto.
  - rewrite lookup_insert_eq in Hc. injection Hc as <-.
    rewrite bind_eq, try_eq.
    match goal with |- context [os_remove net ?p ?w0] =>
      destruct (os_remove_cases net p w0) as [(e & x'' & ->)|(x'' & _ & ->)] end;
      cbn [res final events app ret print tmp bucket].
    + split; [done|]. left. split; [done|]. right. simpl. tauto.
    + split; [done|]. left. split; [done|]. left. apply lookup_delete_eq.
Qed.

(** X10.  The link written by save_deltaLink is the link load_deltaLink
    reads back: when no call of the two fails, load_deltaLink returns the
    saved link whatever URL it is given, the bucket keeps the link and the
    scratch file is gone. *)
Theorem cursor_round_trip deltaLink delta_url (w : world R) :
  aws_env_ok environ ->
  let o1 := save_deltaLink net environ deltaLink w in
  let o2 := load_deltaLink net environ delta_url (final o1) in
  Forall (fun e => ~ failed e) (events o1 ++ events o2) ->
  res o1 = Ret tt /\ res o2 = Ret deltaLink /\
  bucket (final o2) !! "deltaLink.json" = Some (DeltaLinkJson deltaLink) /\
  tmp (final o2) !! "/tmp/deltaLink.json" = None.
Proof.
  intros Henv o1 o2 Hok. apply Forall_app in Hok as [Hok1 Hok2].
  assert (res o1 = Ret tt /\
          bucket (final o1) !! "deltaLink.json" = Some (DeltaLinkJson deltaLink))
    as [Hr1 Hb1].
  { subst o1. revert Hok1. unfold save_deltaLink. rewrite bind_eq.
    destruct (open_write_cases net "/tmp/deltaLink.json" (DeltaLinkJson deltaLink) w)
      as [(e & x & ->)|(x & ->)]; cbn [res final events app bucket tmp].
    { intros H. inversion H; subst. by exfalso. }
    rewrite bind_eq.
    destruct (s3_ops_upload_cases net environ "/tmp/deltaLink.json" "deltaLink.json"
                (World x (<["/tmp/deltaLink.json":=DeltaLinkJson deltaLink]> (tmp w))
                   (bucket w)) Henv) as [(e & x' & ->)|(c & x' & Hc & ->)];
      cbn [res final events app ret tmp bucket] in *.
    { intros H. inversion H as [|? ? _ H']; subst. inversion H'; subst. by exfalso. }
    rewrite lookup_insert_eq in Hc. injection Hc as <-.
    rewrite bind_eq, try_eq.
    match goal with |- context [os_remove net ?p ?w0] =>
      destruct (os_remove_cases net p w0) as [(e & x'' & ->)|(x'' & _ & ->)] end;
      cbn [res final events app ret print tmp bucket]; intros _;
      (split; [done | apply lookup_insert_eq]). }
  split; [done|].
  destruct (load_deltaLink_cases delta_url (final o1)) as [Hb [[_ H]|(l' & Hres & Hl' & H)]];
    fold o2 in Hb, H |- *.
  - exfalso. destruct H as [H|[H|(c & Hc & H)]]; [done| |].
    + by eapply Forall_Exists_neg_contra.
    + rewrite Hb1 in Hc. injection Hc as <-. by apply (H deltaLink).
  - fold o2 in Hres. rewrite Hb1 in Hl'. injection Hl' as <-.
    split; [done|]. split; [by rewrite Hb|].
    destruct H as [H|[e He]]; [done|]. exfalso.
    by apply (Forall_In _ _ _ Hok2 He).
Qed.

End Cursor_file.

(** No event of a list of events that is known is a failure. *)
Ltac no_failure :=
  vm_compute; repeat first [apply List.Forall_nil | apply List.Forall_cons; [tauto|]].

Lemma resumed_link :
  bucket Samples.resumed !! "deltaLink.json" = Some (DeltaLinkJson "page2").
Proof. reflexivity. Qed.

Lemma load_deltaLink_resumes_witness :
  let o := load_deltaLink Cases.a_net Runs.env Runs.start_url Samples.resumed in
  aws_env_ok Runs.env /\
  bucket Samples.resumed !! "deltaLink.json" = Some (DeltaLinkJson "page2") /\
  Forall (fun e => ~ failed e) (events o) /\
  res o = Ret "page2" /\ tmp (final o) !! "/tmp/deltaLink.json" = None.
Proof.
  assert (Forall (fun e => ~ failed e)
            (events (load_deltaLink Cases.a_net Runs.env Runs.start_url Samples.resumed)))
    as Hok by no_failure.
  destruct (load_deltaLink_resumes Cases.a_net Runs.env Runs.start_url "page2"
              Samples.resumed runs_env_ok resumed_link Hok) as (Hr & _ & Ht).
  split; [exact runs_env_ok|]. split; [exact resumed_link|]. split; [exact Hok|].
  split; [exact Hr | exact Ht].
Defined.

Lemma save_deltaLink_effect_witness :
  let o := save_deltaLink Cases.a_net Runs.env "delta-5" Runs.fresh in
  aws_env_ok Runs.env /\
  res o = Ret tt /\
  bucket (final o) = <["deltaLink.json" := DeltaLinkJson "delta-5"]> (bucket Runs.fresh).
Proof.
  split; [exact runs_env_ok|].
  destruct (save_deltaLink_effect Cases.a_net Runs.env "delta-5" Runs.fresh runs_env_ok)
    as [(e & Hr & _)|(Hr & [(Hb & _)|(_ & _ & _ & e & He)])].
  - exfalso. vm_compute in Hr. discriminate Hr.
  - split; [exact Hr | exact Hb].
  - exfalso. vm_compute in He. destruct He as [He|[He|[He|[He|[]]]]]; discriminate He.
Defined.

Lemma cursor_round_trip_witness :
  let o1 := save_deltaLink Cases.a_net Runs.env "delta-5" Runs.fresh in
  let o2 := load_deltaLink Cases.a_net Runs.env Runs.start_url (final o1) in
  aws_env_ok Runs.env /\
  Forall (fun e => ~ failed e) (events o1 ++ events o2) /\
  res o2 = Ret "delta-5" /\
  bucket (final o2) !! "deltaLink.json" = Some (DeltaLinkJson "delta-5").
Proof.
  assert (Forall (fun e => ~ failed e)
            (events (save_deltaLink Cases.a_net Runs.env "delta-5" Runs.fresh) ++
             events (load_deltaLink Cases.a_net Runs.env Runs.start_url
                       (final (save_deltaLink Cases.a_net Runs.env "delta-5" Runs.fresh)))))
    as Hok by no_failure.
  destruct (cursor_round_trip Cases.a_net Runs.env "delta-5" Runs.start_url Runs.fresh
              runs_env_ok Hok) as (_ & Hr & Hb & _).
  split; [exact runs_env_ok|]. split; [exact Hok|]. split; [exact Hr | exact Hb].
Defined.

(** ** Where main starts to read the feed *)

Lemma feed_requests_app a b : feed_requests (a ++ b) = feed_requests a ++ feed_requests b.
Proof. apply flat_map_app. Qed.

Lemma feed_requests_none (Q : event -> Prop) evs :
  (forall e, Q e -> ~ is_feed_fetch e) -> Forall Q evs -> feed_requests evs = [].
Proof.
  intros HQ. induction 1 as [|e evs He _ IH]; [reflexivity|].
  apply HQ in He. destruct e; simpl in *; try exact IH. by destruct He.
Qed.

Lemma prologue_no_feed e : prologue_event e -> ~ is_feed_fetch e.
Proof. destruct e; simpl; tauto. Qed.

Lemma transfer_no_feed e : transfer_event e -> ~ is_feed_fetch e.
Proof. destruct e; simpl; tauto. Qed.

Lemma page_fetch_first_request url h evf r :
  page_fetch url h evf r -> exists rest, feed_requests evf = url :: rest.
Proof. intros H; inversion H; subst; simpl; eauto. Qed.

(** A traversal that requests a page at all requests the page at its URL
    first. *)
Lemma gather_first_request environ h url cs evs r :
  gather environ h url cs evs r ->
  feed_requests evs = [] \/ exists rest, feed_requests evs = url :: rest.
Proof.
  intros H; inversion H; subst; [by left|..]; right;
    match goal with Hp : page_fetch _ _ _ _ |- _ =>
      apply page_fetch_first_request in Hp as [rest Hp];
      rewrite ?feed_requests_app, Hp; simpl; eauto
    end.
Qed.

Section Start.

Context {R : Type} (net : oracle R) (environ : gmap string string).

(** X11.  The first page main requests is the full scan of the configured
    drive, or the link stored in the bucket under "deltaLink.json" when the
    run started.  Without such an object it is the full scan; with the
    credentials configured, a stored link and a run in which no call fails, it
    is the stored link. *)
Theorem main_first_feed_request recursion_limit (w : world R) driveID url :
  environ !! "driveId_prod" = Some driveID ->
  let o := main net environ recursion_limit w in
  first_feed_request (events o) = Some url ->
  (url = root_delta_url driveID \/
   bucket w !! "deltaLink.json" = Some (DeltaLinkJson url)) /\
  (bucket w !! "deltaLink.json" = None -> url = root_delta_url driveID) /\
  (forall l, aws_env_ok environ ->
     bucket w !! "deltaLink.json" = Some (DeltaLinkJson l) ->
     Forall (fun e => ~ failed e) (events o) -> url = l).
Proof.
  intros Hd. cbv zeta. unfold first_feed_request, main. step. step.
  pose proof (token_gains_trace net environ w) as Ht.
  apply token_trace_prologue in Ht.
  apply (feed_requests_none _ _ prologue_no_feed) in Ht.
  pose proof (token_gains_frame net environ w) as [_ Hb].
  destruct (token_gains net environ w) as [[t|e] w1 evt]; cbn [res final events app] in *.
  2:{ do 4 step. rewrite ?app_nil_r.
      change (feed_requests (EvPrint LScriptStarted :: ?l)) with (feed_requests l).
      rewrite feed_requests_app, Ht. discriminate. }
  do 2 step. rewrite bind_eq. unfold getenv. rewrite Hd.
  cbn [res final events app ret raise]. rewrite bind_eq.
  change ("https://graph.microsoft.com/v1.0/drives/" +:+ driveID +:+ "/root/delta")
    with (root_delta_url driveID).
  pose proof (load_deltaLink_cases net environ (root_delta_url driveID) w1) as Hl.
  pose proof (load_deltaLink_prologue net environ (root_delta_url driveID) w1) as Hp.
  apply (feed_requests_none _ _ prologue_no_feed) in Hp.
  cbv zeta in Hl. rewrite Hb in Hl.
  destruct (load_deltaLink net environ (root_delta_url driveID) w1) as [rl w2 evl].
  cbn [res final events app] in *.
  assert (exists u, rl = Ret u) as [u ->].
  { destruct Hl as [_ [[-> _]|(l & -> & _)]]; eauto. }
  rewrite bind_eq.
  pose proof (delta_gather_trace net environ recursion_limit u (bearer_headers t) [] w2)
    as Hg.
  apply gather_first_request in Hg.
  match goal with |- head (feed_requests ?E) = Some url -> _ =>
    assert (exists tail, feed_requests tail = [] /\
              E = EvPrint LScriptStarted :: evt ++ evl ++
                  events (delta_gather net environ recursion_limit u (bearer_headers t) []
                            w2) ++ tail) as (tail & Htail & ->)
  end.
  { destruct (delta_gather net environ recursion_limit u (bearer_headers t) [] w2)
      as [[cs|e] w3 evg]; cbn [res final events app] in *.
    - eexists. split; [|reflexivity].
      rewrite bind_eq.
      pose proof (transfer_changes_trace net environ (bearer_headers t) cs w3) as Htr.
      apply transfer_trace_events, (feed_requests_none _ _ transfer_no_feed) in Htr.
      destruct (transfer_changes net environ (bearer_headers t) cs w3) as [[[]|e] w4 evtr];
        cbn [res final events app print] in *; rewrite ?feed_requests_app, Htr; reflexivity.
    - exists []. by rewrite app_nil_r. }
  set (evg := events (delta_gather net environ recursion_limit u (bearer_headers t) [] w2))
    in *.
  change (feed_requests (EvPrint LScriptStarted :: ?l)) with (feed_requests l).
  rewrite !feed_requests_app, Ht, Hp, Htail. cbn [app].
  intros Hfirst.
  assert (url = u) as ->.
  { destruct Hg as [Hg|[rest Hg]]; rewrite Hg in Hfirst; cbn [app head] in Hfirst;
      congruence. }
  destruct Hl as [_ [[[= ->] Hl]|(l & [= ->] & Hl & _)]].
  - split; [by left|]. split; [done|]. intros l Henv Hk Hok.
    exfalso. destruct Hl as [Hl|[Hl|(c & Hc & Hl)]]; [done| |].
    + inversion Hok as [|? ? _ Hok']; subst.
      apply Forall_app in Hok' as [_ Hok']. apply Forall_app in Hok' as [Hok' _].
      by eapply Forall_Exists_neg_contra.
    + rewrite Hk in Hc. injection Hc as <-. by apply (Hl l).
  - split; [by right|]. split; [congruence|]. intros l' _ Hk _. congruence.
Qed.

End Start.

Lemma runs_drive : Runs.env !! "driveId_prod" = Some Runs.drive.
Proof. reflexivity. Qed.

Lemma main_first_feed_request_witness :
  let o := main Cases.two_page_net Runs.env 10 Samples.resumed in
  Runs.env !! "driveId_prod" = Some Runs.drive /\
  first_feed_request (events o) = Some "page2" /\
  bucket Samples.resumed !! "deltaLink.json" = Some (DeltaLinkJson "page2") /\
  feed_requests (events o) = ["page2"].
Proof.
  assert (first_feed_request (events (main Cases.two_page_net Runs.env 10 Samples.resumed)) =
          Some "page2") as Hfirst by (vm_compute; reflexivity).
  destruct (main_first_feed_request Cases.two_page_net Runs.env 10 Samples.resumed
              Runs.drive "page2" runs_drive Hfirst) as ([Hroot|Hk] & _).
  - exfalso. vm_compute in Hroot. discriminate Hroot.
  - split; [exact runs_drive|]. split; [exact Hfirst|]. split; [exact Hk|].
    vm_compute. reflexivity.
Defined.

(** ** The transfer of one item and of the change dictionary *)

(** A list of events without a failure holds no failed event. *)
Ltac refute Hok :=
  exfalso; try (eapply (Forall_Exists_neg_contra failed _ Hok); eassumption);
  repeat match type of Hok with
         | Forall _ (_ :: _) =>
             let H := fresh "Hq" in
             apply List.Forall_cons_iff in Hok as [H Hok]; try exact (H I)
         | Forall _ (_ ++ _) =>
             let H := fresh "Hq" in
             apply List.Forall_app in Hok as [H Hok];
             try (eapply (Forall_Exists_neg_contra failed _ H); eassumption)
         end;
  try (eapply (Forall_Exists_neg_contra failed _ Hok); eassumption).

Lemma str_app_json_ne (a : string) : a <> a +:+ ".json".
Proof.
  intros Heq. apply (f_equal String.length) in Heq.
  rewrite str_app_length in Heq. simpl in Heq. lia.
Qed.

Section Item.

Context {R : Type} (net : oracle R) (environ : gmap string string).

Lemma fetch_content_cases h fm url (w : world R) :
  (exists resp x, fetch_content net environ h fm url w =
     Out (Ret resp) (World x (tmp w) (bucket w)) [EvGetContent url h (Ret resp)]) \/
  Exists failed (events (fetch_content net environ h fm url w)).
Proof.
  unfold fetch_content. rewrite bind_eq, try_eq.
  destruct (requests_get_content_eq net url h w) as (r & x & ->).
  cbn [res final events app]. destruct r as [resp|e]; cbn [res final events app ret].
  - left. eauto.
  - right. by constructor.
Qed.

Lemma stage_files_cases local_path resp fm (w : world R) :
  (exists x, stage_files net local_path resp fm w =
     Out (Ret tt)
       (World x (<[local_path +:+ ".json" := ItemJson fm]>
                   (<[local_path := Bytes resp]> (tmp w))) (bucket w))
       [EvWrite local_path (Bytes resp) (Ret tt);
        EvWrite (local_path +:+ ".json") (ItemJson fm) (Ret tt)]) \/
  (exists w', res (stage_files net local_path resp fm w) = Ret tt /\
              final (stage_files net local_path resp fm w) = w' /\
              Exists failed (events (stage_files net local_path resp fm w))).
Proof.
  unfold stage_files. rewrite bind_eq, try_eq, bind_eq.
  destruct (open_write_cases net local_path (Bytes resp) w) as [(e & x & ->)|(x & ->)];
    cbn [res final events app ret print bind].
  { right. eexists. split; [done|]. split; [done|]. by constructor. }
  match goal with |- context [open_write net ?p ?c ?w0] =>
    destruct (open_write_cases net p c w0) as [(e & x' & ->)|(x' & ->)] end;
    cbn [res final events app ret print bind tmp bucket].
  - right. eexists. split; [done|]. split; [done|].
    apply (Exists_here failed _ [_]). exact I.
  - left. eauto.
Qed.

Lemma cleanup_cases local_path (w : world R) :
  (exists x, cleanup net local_path w =
     Out (Ret tt)
       (World x (delete (local_path +:+ ".json") (delete local_path (tmp w))) (bucket w))
       [EvRemove local_path (Ret tt); EvRemove (local_path +:+ ".json") (Ret tt)]) \/
  (res (cleanup net local_path w) = Ret tt /\
   bucket (final (cleanup net local_path w)) = bucket w /\
   Exists failed (events (cleanup net local_path w))).
Proof.
  unfold cleanup. rewrite bind_eq, try_eq, bind_eq.
  destruct (os_remove_cases net local_path w) as [(e & x & ->)|(x & _ & ->)];
    cbn [res final events app ret print bind bucket].
  { right. split; [done|]. split; [done|]. by constructor. }
  match goal with |- context [os_remove net ?p ?w0] =>
    destruct (os_remove_cases net p w0) as [(e & x' & ->)|(x' & _ & ->)] end;
    cbn [res final events app ret print bind tmp bucket].
  - right. split; [done|]. split; [done|]. apply (Exists_here failed _ [_]). exact I.
  - left. eauto.
Qed.

(** The whole of onedrive_download when no call fails. *)
Lemma onedrive_download_ok h fm (w : world R) url n key :
  aws_env_ok environ ->
  content_url fm = Ret url -> i_name fm = Some n -> filename_s3_of fm n = Ret key ->
  Forall (fun e => ~ failed e) (events (onedrive_download net environ h fm w)) ->
  exists resp x,
    onedrive_download net environ h fm w =
    Out (Ret tt)
      (World x
         (delete (("/tmp/" +:+ n) +:+ ".json")
            (delete ("/tmp/" +:+ n)
               (<[("/tmp/" +:+ n) +:+ ".json" := ItemJson fm]>
                  (<["/tmp/" +:+ n := Bytes resp]> (tmp w)))))
         (<[key +:+ ".json" := ItemJson fm]> (<[key := Bytes resp]> (bucket w))))
      [EvGetContent url h (Ret resp);
       EvWrite ("/tmp/" +:+ n) (Bytes resp) (Ret tt);
       EvWrite (("/tmp/" +:+ n) +:+ ".json") (ItemJson fm) (Ret tt);
       EvUpload ("/tmp/" +:+ n) key (Ret (Bytes resp));
       EvPrint (LS3Success "upload" ("/tmp/" +:+ n));
       EvUpload (("/tmp/" +:+ n) +:+ ".json") (key +:+ ".json") (Ret (ItemJson fm));
       EvPrint (LS3Success "upload" (("/tmp/" +:+ n) +:+ ".json"));
       EvRemove ("/tmp/" +:+ n) (Ret tt);
       EvRemove (("/tmp/" +:+ n) +:+ ".json") (Ret tt)].
Proof.
  intros Henv Hurl Hn Hkey.
  unfold onedrive_download. rewrite bind_eq. unfold lift.
  rewrite Hurl. cbn [res final events app subscript].
  rewrite bind_eq.
  destruct (fetch_content_cases h fm url w) as [(resp & x & ->)|Hf].
  2:{ destruct (fetch_content net environ h fm url w) as [[resp|e] w1 evf];
        cbn [res final events app] in *; intros Hok; refute Hok. }
  cbn [res final events app subscript].
  rewrite bind_eq, Hn. cbn [res final events app subscript].
  rewrite bind_eq.
  match goal with |- context [stage_files net ?p ?r ?f ?w0] =>
    destruct (stage_files_cases p r f w0) as [(x1 & ->)|(w' & Hr & _ & Hf)] end.
  2:{ match goal with |- context [stage_files net ?p ?r ?f ?w0] =>
        destruct (stage_files net p r f w0) as [rs w1 evs] end.
      cbn [res final events app] in *. subst rs. cbn [res final events app].
      intros Hok. refute Hok. }
  cbn [res final events app subscript tmp bucket].
  rewrite bind_eq, Hkey. cbn [res final events app subscript].
  rewrite bind_eq.
  match goal with |- context [s3_ops net environ ?f ?k "upload" ?w0] =>
    destruct (s3_ops_upload_cases net environ f k w0 Henv)
      as [(e & x2 & ->)|(c & x2 & Hc & ->)] end;
    cbn [res final events app subscript tmp bucket] in *.
  { intros Hok. refute Hok. }
  rewrite lookup_insert_ne, lookup_insert_eq in Hc
    by apply not_eq_sym, str_app_json_ne.
  injection Hc as <-.
  rewrite bind_eq.
  match goal with |- context [s3_ops net environ ?f ?k "upload" ?w0] =>
    destruct (s3_ops_upload_cases net environ f k w0 Henv)
      as [(e & x3 & ->)|(c & x3 & Hc & ->)] end;
    cbn [res final events app subscript tmp bucket] in *.
  { intros Hok. refute Hok. }
  rewrite lookup_insert_eq in Hc. injection Hc as <-.
  match goal with |- context [cleanup net ?p ?w0] =>
    destruct (cleanup_cases p w0) as [(x4 & ->)|(Hr & _ & Hf)] end.
  2:{ match goal with |- context [cleanup net ?p ?w0] =>
        destruct (cleanup net p w0) as [rc w1 evc] end.
      cbn [res final events app] in *. subst rc. cbn [res final events app].
      intros Hok. refute Hok. }
  cbn [res final events app subscript tmp bucket]. intros _. eauto.
Qed.

(** X12.  When no call fails, onedrive_download of an item that carries the
    keys it reads stores the content fetched from the item's content URL
    under path_relative/name and the item's metadata under that key with
    ".json" added; the two files it staged in /tmp are removed and every
    other local file and object is as it was. *)
Theorem onedrive_download_effect h fm (w : world R) url n key :
  aws_env_ok environ ->
  content_url fm = Ret url -> i_name fm = Some n -> filename_s3_of fm n = Ret key ->
  let o := onedrive_download net environ h fm w in
  Forall (fun e => ~ failed e) (events o) ->
  exists resp,
    res o = Ret tt /\
    In (EvGetContent url h (Ret resp)) (events o) /\
    content_requests (events o) = [url] /\
    bucket (final o) !! key = Some (Bytes resp) /\
    bucket (final o) !! (key +:+ ".json") = Some (ItemJson fm) /\
    (forall k, k <> key -> k <> key +:+ ".json" ->
               bucket (final o) !! k = bucket w !! k) /\
    tmp (final o) !! ("/tmp/" +:+ n) = None /\
    tmp (final o) !! (("/tmp/" +:+ n) +:+ ".json") = None /\
    (forall p, p <> "/tmp/" +:+ n -> p <> ("/tmp/" +:+ n) +:+ ".json" ->
               tmp (final o) !! p = tmp w !! p).
Proof.
  intros Henv Hurl Hn Hkey o Hok. subst o.
  destruct (onedrive_download_ok h fm w url n key Henv Hurl Hn Hkey Hok)
    as (resp & x & ->).
  cbn [res final events tmp bucket]. exists resp.
  pose proof (str_app_json_ne key) as Hne.
  pose proof (str_app_json_ne ("/tmp/" +:+ n)) as Hne'.
  split; [done|]. split; [simpl; tauto|]. split; [reflexivity|].
  split; [by rewrite lookup_insert_ne, lookup_insert_eq|].
  split; [apply lookup_insert_eq|].
  split; [intros k Hk1 Hk2; by rewrite !lookup_insert_ne|].
  split; [by rewrite lookup_delete_ne, lookup_delete_eq|].
  split; [apply lookup_delete_eq|].
  intros p Hp1 Hp2. by rewrite !lookup_delete_ne, !lookup_insert_ne.
Qed.

(** X13.  main hands to onedrive_download only the entries that carry the
    'file' key: the loop over the change dictionary does on the whole
    dictionary what it does on its entries with that key, in the same order. *)
Theorem transfer_changes_skips_folders h cs (w : world R) :
  transfer_changes net environ h cs w =
  transfer_changes net environ h (file_entries cs) w.
Proof.
  revert w. induction cs as [|[k v] cs IH]; intros w; [reflexivity|].
  change (file_entries ((k, v) :: cs))
    with (if i_file v then (k, v) :: file_entries cs else file_entries cs).
  cbn [transfer_changes]. destruct (i_file v) eqn:Hv; cbn [transfer_changes].
  - rewrite Hv, !bind_eq.
    destruct (onedrive_download net environ h v w) as [[[]|e] w1 evs];
      cbn [res final events]; [|done].
    by rewrite IH.
  - rewrite bind_eq. cbn [res final events app ret]. rewrite IH.
    by destruct (transfer_changes net environ h (file_entries cs) w).
Qed.

End Item.

Lemma onedrive_download_effect_witness :
  let o := onedrive_download Cases.a_net Runs.env Runs.the_headers (stored Runs.item_a)
             Runs.fresh in
  aws_env_ok Runs.env /\
  content_url (stored Runs.item_a) = Ret Cases.content_url_a /\
  i_name (stored Runs.item_a) = Some "a.txt" /\
  filename_s3_of (stored Runs.item_a) "a.txt" = Ret "/Invoices/a.txt" /\
  Forall (fun e => ~ failed e) (events o) /\
  bucket (final o) !! "/Invoices/a.txt" = Some (Bytes "content") /\
  bucket (final o) !! "/Invoices/a.txt.json" = Some (ItemJson (stored Runs.item_a)) /\
  tmp (final o) !! "/tmp/a.txt" = None.
Proof.
  assert (content_url (stored Runs.item_a) = Ret Cases.content_url_a) as Hurl
    by (vm_compute; reflexivity).
  assert (i_name (stored Runs.item_a) = Some "a.txt") as Hn by reflexivity.
  assert (filename_s3_of (stored Runs.item_a) "a.txt" = Ret "/Invoices/a.txt") as Hkey
    by (vm_compute; reflexivity).
  assert (Forall (fun e => ~ failed e)
            (events (onedrive_download Cases.a_net Runs.env Runs.the_headers
                       (stored Runs.item_a) Runs.fresh))) as Hok by no_failure.
  destruct (onedrive_download_effect Cases.a_net Runs.env Runs.the_headers
              (stored Runs.item_a) Runs.fresh _ _ _ runs_env_ok Hurl Hn Hkey Hok)
    as (resp & _ & Hin & _ & Hb1 & Hb2 & _ & Ht & _).
  assert (resp = "content") as ->.
  { vm_compute in Hin.
    repeat (destruct Hin as [Hin|Hin]; [try discriminate Hin|]); [|destruct Hin].
    by injection Hin as <-. }
  cbv zeta. split; [exact runs_env_ok|]. split; [exact Hurl|]. split; [exact Hn|].
  split; [exact Hkey|]. split; [exact Hok|]. split; [exact Hb1|].
  split; [exact Hb2 | exact Ht].
Defined.

(** ** What a run requests and what it leaves in the bucket *)

Lemma content_requests_app a b :
  content_requests (a ++ b) = content_requests a ++ content_requests b.
Proof. apply flat_map_app. Qed.

Lemma token_requests_app a b :
  token_requests (a ++ b) = token_requests a ++ token_requests b.
Proof. apply flat_map_app. Qed.

Lemma content_fetch_requests url h fm evs r :
  content_fetch url h fm evs r ->
  List.length (content_requests evs) <= 2 /\ List.length (token_requests evs) <= 1.
Proof.
  intros H; inversion H; subst;
    try match goal with Ht : token_trace _ _ |- _ => inversion Ht; subst end;
    simpl; lia.
Qed.

Lemma staged_requests local_path resp fm evs :
  staged local_path resp fm evs -> content_requests evs = [] /\ token_requests evs = [].
Proof. intros H; inversion H; subst; done. Qed.

Lemma upload_trace_requests filename key evs b :
  upload_trace filename key evs b -> content_requests evs = [] /\ token_requests evs = [].
Proof. intros H; inversion H; subst; done. Qed.

Lemma cleaned_requests local_path evs :
  cleaned local_path evs -> content_requests evs = [] /\ token_requests evs = [].
Proof. intros H; inversion H; subst; done. Qed.

(** One item costs at most two requests for its content and one for a
    token. *)
Lemma item_trace_requests environ h fm evs r :
  item_trace environ h fm evs r ->
  List.length (content_requests evs) <= 2 /\ List.length (token_requests evs) <= 1.
Proof.
  intros H; inversion H; subst;
    repeat match goal with
           | Hc : content_fetch _ _ _ _ _ |- _ => apply content_fetch_requests in Hc as [? ?]
           | Hs : staged _ _ _ _ |- _ => apply staged_requests in Hs as [? ?]
           | Hu : upload_trace _ _ _ _ |- _ => apply upload_trace_requests in Hu as [? ?]
           | Hc : cleaned _ _ |- _ => apply cleaned_requests in Hc as [? ?]
           end;
    rewrite ?content_requests_app, ?token_requests_app, ?length_app;
    repeat match goal with Hq : _ = [] |- _ => rewrite Hq end;
    simpl; lia.
Qed.

Lemma transfer_trace_requests environ h cs evs r :
  transfer_trace environ h cs evs r ->
  List.length (content_requests evs) <= 2 * List.length (file_entries cs) /\
  List.length (token_requests evs) <= List.length (file_entries cs).
Proof.
  induction 1 as [|k v rest evs r Hv _ IH|k v rest evs e Hv Hi|k v rest evs1 evs2 r Hv Hi _ IH];
    try change (file_entries ((k, v) :: rest))
      with (if i_file v then (k, v) :: file_entries rest else file_entries rest);
    rewrite ?Hv; try apply item_trace_requests in Hi;
    rewrite ?content_requests_app, ?token_requests_app, ?length_app; simpl in *; lia.
Qed.

Lemma run_trace_events environ evs r : run_trace environ evs r -> Forall run_event evs.
Proof.
  intros H; inversion H; subst; repeat apply Forall_app_2.
  - eapply Forall_impl; [eassumption|]. intros ? ?. by left.
  - eapply Forall_impl; [eassumption|]. intros ? ?. by left.
  - eapply Forall_impl; [by eapply gather_events|]. intros ? ?. right. by left.
  - eapply Forall_impl; [eassumption|]. intros ? ?. by left.
  - eapply Forall_impl; [by eapply gather_events|]. intros ? ?. right. by left.
  - eapply Forall_impl; [by eapply transfer_trace_events|]. intros ? ?. right. right. by left.
  - destruct r; [|constructor]. constructor; [|constructor]. right. right. by right.
Qed.

Lemma replay_keeps k evs b :
  is_Some (b !! k) -> is_Some (replay_bucket evs b !! k).
Proof.
  revert b. induction evs as [|e evs IH]; intros b Hb; [done|].
  apply IH. destruct e as [| | | | | |f key [c|]| |]; try done.
  simpl. destruct (decide (key = k)) as [->|Hne].
  - rewrite lookup_insert_eq. eauto.
  - by rewrite lookup_insert_ne.
Qed.

Lemma run_exit_line environ evs r :
  run_trace environ evs r ->
  (In (EvPrint LScriptExited) evs <-> r = Ret tt) /\
  (r = Ret tt ->
   exists front, evs = front ++ [EvPrint LScriptExited] /\
                 ~ In (EvPrint LScriptExited) front).
Proof.
  intros H.
  assert (forall evs, Forall prologue_event evs -> ~ In (EvPrint LScriptExited) evs) as Hp.
  { intros evs' Hf Hin. by apply (Forall_In _ _ _ Hf) in Hin. }
  assert (forall evs, Forall gather_event evs -> ~ In (EvPrint LScriptExited) evs) as Hg.
  { intros evs' Hf Hin. by apply (Forall_In _ _ _ Hf) in Hin. }
  assert (forall evs, Forall transfer_event evs -> ~ In (EvPrint LScriptExited) evs) as Ht.
  { intros evs' Hf Hin. by apply (Forall_In _ _ _ Hf) in Hin. }
  inversion H as [evp e Hevp|evp h url evg e Hevp Hgt|evp h url evg cs evt r' Hevp Hgt Htt];
    subst.
  - split; [split; [intros Hin; by apply Hp in Hin | discriminate] | discriminate].
  - apply gather_events in Hgt.
    split; [split; [|discriminate] | discriminate].
    intros Hin. apply in_app_or in Hin as [Hin|Hin]; [by apply Hp in Hin | by apply Hg in Hin].
  - apply gather_events in Hgt. apply transfer_trace_events in Htt.
    destruct r as [[]|e].
    + split; [split; [done|intros _; rewrite !in_app_iff; simpl; tauto]|].
      intros _. exists (evp ++ evg ++ evt). split; [by rewrite <- !app_assoc|].
      rewrite !in_app_iff. intros [Hin|[Hin|Hin]];
        [by apply Hp in Hin | by apply Hg in Hin | by apply Ht in Hin].
    + split; [split; [|discriminate] | discriminate].
      rewrite !app_nil_r, !in_app_iff. intros [Hin|[Hin|Hin]];
        [by apply Hp in Hin | by apply Hg in Hin | by apply Ht in Hin].
Qed.

Section Whole_run.

Context {R : Type} (net : oracle R) (environ : gmap string string).

(** X14.  The transfer of a change dictionary sends at most two requests for
    content and at most one request for a token for each entry that carries
    the 'file' key: a failed download is tried again once and never more. *)
Theorem transfer_requests_bounded h cs (w : world R) :
  let o := transfer_changes net environ h cs w in
  List.length (content_requests (events o)) <= 2 * List.length (file_entries cs) /\
  List.length (token_requests (events o)) <= List.length (file_entries cs).
Proof. cbv zeta. eapply transfer_trace_requests, transfer_changes_trace. Qed.

(** X15.  A run only adds to the bucket.  An object that was there at the
    start is still there at the end, an object under a key to which the run
    uploaded nothing is unchanged, and the run uploads only to
    "deltaLink.json" and to keys made of a relative path, a slash and a
    name. *)
Theorem main_only_adds_objects recursion_limit (w : world R) :
  let o := main net environ recursion_limit w in
  (forall k, is_Some (bucket w !! k) -> is_Some (bucket (final o) !! k)) /\
  (forall k, (forall f c, ~ In (EvUpload f k (Ret c)) (events o)) ->
             bucket (final o) !! k = bucket w !! k) /\
  (forall f k r, In (EvUpload f k r) (events o) ->
                 k = "deltaLink.json" \/ exists rel name, k = rel +:+ "/" +:+ name).
Proof.
  cbv zeta. pose proof (tracks_main net environ recursion_limit w) as Hb.
  split; [|split].
  - intros k Hk. rewrite Hb. by apply replay_keeps.
  - intros k Hk. rewrite Hb. by apply replay_lookup_unchanged.
  - intros f k r Hin.
    pose proof (run_trace_events _ _ _ (main_trace net environ recursion_limit w)) as Hev.
    apply (Forall_In _ _ _ Hev) in Hin as [Hp|[Hg|[Ht|He]]];
      simpl in *; [done|left; tauto|by right|discriminate].
Qed.

(** X16.  main prints the closing line "Script exited successfully." exactly
    when it returns without an exception, and then once, as its last
    event. *)
Theorem main_exit_line recursion_limit (w : world R) :
  let o := main net environ recursion_limit w in
  (In (EvPrint LScriptExited) (events o) <-> res o = Ret tt) /\
  (res o = Ret tt ->
   exists front, events o = front ++ [EvPrint LScriptExited] /\
                 ~ In (EvPrint LScriptExited) front).
Proof. cbv zeta. eapply run_exit_line, main_trace. Qed.

End Whole_run.

(** ** What delta_gather keeps in the change dictionary *)

Lemma dict_update_Forall {V} (Q : string * V -> Prop) k v (d : dict V) :
  Q (k, v) -> Forall Q d -> Forall Q (dict_update k v d).
Proof.
  intros Hv. induction 1 as [|[k' v'] d Hx Hd IH]; simpl; [by repeat constructor|].
  destruct (String.eqb k' k); by constructor.
Qed.

Lemma stored_well_stored tf td j k n :
  i_id j = Some k -> i_name j = Some n -> relevant tf td j -> well_stored (k, stored j).
Proof.
  intros Hk Hn (p & Hp & _). unfold well_stored. cbn [fst snd].
  split; [by rewrite stored_id|].
  destruct (stored_path_relative j p Hp) as (pr & Hpr & Hpath & Hrel).
  exists n, pr, p. rewrite stored_name. repeat (split; [done|]).
  unfold filename_s3_of, subscript. by rewrite Hpr, Hrel.
Qed.

Lemma filter_records_well_stored tf td cs l cs' :
  filter_records tf td cs l = Ret cs' -> Forall well_stored cs -> Forall well_stored cs'.
Proof.
  revert cs. induction l as [|j l IH]; intros cs; simpl; [by intros [= <-]|].
  destruct (filter_record tf td cs j) as [cs1|e] eqn:Hj; [|done].
  intros Hl Hcs. apply (IH _ Hl).
  destruct (filter_record_Ret _ _ _ _ _ Hj) as [->|(k & Hk & Hrel & ->)]; [done|].
  destruct Hrel as (p & Hp & Hrel).
  destruct (filter_record_Ret_name _ _ _ _ _ _ Hj Hp) as [n Hn].
  apply dict_update_Forall; [|done].
  eapply stored_well_stored; eauto. by exists p.
Qed.

Lemma accumulate_page_Some environ cs p cs1 :
  accumulate_page environ cs p = Ret (Some cs1) ->
  exists tf td v, filter_records tf td cs v = Ret cs1.
Proof.
  unfold accumulate_page.
  destruct (environ !! "target_folder_prod") as [tf|]; [|done].
  destruct (environ !! "target_driveID_prod") as [td|]; [|done].
  destruct (p_value p) as [v|]; [|done].
  destruct (Nat.ltb 0 (List.length v)); [|done].
  destruct (filter_records tf td cs v) as [cs'|] eqn:Hf; [|done].
  intros [= <-]. eauto.
Qed.

(** A relation between change dictionaries that every run of the filter over
    a page respects is respected by a whole traversal. *)
Lemma gather_invariant environ (P : dict drive_item -> dict drive_item -> Prop) :
  (forall cs, P cs cs) ->
  (forall a b c, P a b -> P b c -> P a c) ->
  (forall tf td cs l cs', filter_records tf td cs l = Ret cs' -> P cs cs') ->
  forall h url cs evs r,
    gather environ h url cs evs r -> forall cs', r = Ret cs' -> P cs cs'.
Proof.
  intros Hrefl Htrans Hstep h url cs evs r.
  induction 1 as [| | | |url cs evf p cs1 evs r _ Hacc _ _
                  | |url cs evf p cs1 nextLink evn cs2 evs r _ Hacc _ _ IH _];
    intros cs'; try discriminate.
  - intros [= <-]. apply Hrefl.
  - destruct r; [|discriminate]. intros [= <-].
    apply accumulate_page_Some in Hacc as (tf & td & v & Hv). eauto.
  - destruct r; [|discriminate]. intros [= <-].
    apply accumulate_page_Some in Hacc as (tf & td & v & Hv). eauto.
Qed.

Section Dictionary.

Context {R : Type} (net : oracle R) (environ : gmap string string).

(** X17.  Every entry of the dictionary delta_gather returns is stored under
    the id of its record and carries a name, a parent path and the relative
    path cut from it, provided the entries it was given do; so the key under
    which onedrive_download uploads such an entry is always defined, and it
    is path[80:], a slash and the name. *)
Theorem delta_gather_entries_well_stored depth url h cs cs' (w : world R) :
  Forall well_stored cs ->
  res (delta_gather net environ depth url h cs w) = Ret cs' ->
  Forall well_stored cs'.
Proof.
  intros Hcs Hres. revert Hcs.
  apply (gather_invariant environ
           (fun a b => Forall well_stored a -> Forall well_stored b))
    with h url (events (delta_gather net environ depth url h cs w))
         (res (delta_gather net environ depth url h cs w)); auto.
  - intros tf td a l b. apply filter_records_well_stored.
  - apply delta_gather_trace.
Qed.

(** X18.  delta_gather never removes an entry from the change dictionary
    and never moves one: the keys it returns are the keys it was given, in
    the same order, followed by the ids it added. *)
Theorem delta_gather_keeps_entries depth url h cs cs' (w : world R) :
  res (delta_gather net environ depth url h cs w) = Ret cs' ->
  exists new, dict_keys cs' = dict_keys cs ++ new.
Proof.
  intros Hres.
  apply (gather_invariant environ
           (fun a b => exists new, dict_keys b = dict_keys a ++ new))
    with h url (events (delta_gather net environ depth url h cs w))
         (res (delta_gather net environ depth url h cs w)); auto.
  - intros a. exists []. by rewrite app_nil_r.
  - intros a b c [n1 H1] [n2 H2]. exists (n1 ++ n2). by rewrite H2, H1, app_assoc.
  - intros tf td a l b. apply filter_records_keys_prefix.
  - apply delta_gather_trace.
Qed.

(** X19.  A page without the 'value' key stops delta_gather with KeyError
    for that key, after the page was requested and the two target variables
    were read; the deltaLink the page may carry is not saved. *)
Theorem page_without_value depth url h cs (w : world R) p :
  res (fetch_page net url h w) = Ret p -> p_value p = None ->
  is_Some (environ !! "target_folder_prod") ->
  is_Some (environ !! "target_driveID_prod") ->
  delta_gather net environ (S depth) url h cs w =
  Out (Raise (KeyError "value")) (final (fetch_page net url h w))
    (events (fetch_page net url h w)).
Proof.
  intros Hp Hv [tf Htf] [td Htd]. cbn [delta_gather]. rewrite bind_eq.
  destruct (fetch_page net url h w) as [r w1 evf]; cbn [res final events app] in *.
  subst r. unfold getenv, lift, subscript. rewrite Htf, Htd, Hv.
  do 3 (rewrite bind_eq; cbn [res final events app ret raise]).
  by rewrite ?app_nil_r.
Qed.

End Dictionary.

(** X20.  A relevant record whose parent path has at most 80 characters is
    stored with an empty relative path: the slice raises nothing, and the
    content of the item is uploaded under a slash followed by its name. *)
Theorem short_parent_path_key tf td cs i k n p :
  i_id i = Some k -> i_name i = Some n -> parent_path i = Some p ->
  relevant tf td i -> str_len p <= 80 ->
  filter_record tf td cs i = Ret (dict_update k (stored i) cs) /\
  (exists pr, i_parentReference (stored i) = Some pr /\ pr_path_relative pr = Some "") /\
  filename_s3_of (stored i) n = Ret ("/" +:+ n).
Proof.
  intros Hk Hn Hp Hrel Hlen.
  split; [by apply filter_record_relevant with n|].
  destruct (stored_path_relative i p Hp) as (pr & Hpr & _ & Hr).
  rewrite str_drop_short in Hr by done.
  split; [by exists pr|].
  unfold filename_s3_of, subscript. by rewrite Hpr, Hr.
Qed.

Lemma two_page_result :
  res (delta_gather Cases.two_page_net Runs.env 10 Runs.start_url Runs.the_headers []
         Runs.fresh) =
  Ret [("A", stored Cases.item_a_moved); ("B", stored Runs.item_b)].
Proof. vm_compute. reflexivity. Qed.

Lemma delta_gather_entries_well_stored_witness :
  let o := delta_gather Cases.two_page_net Runs.env 10 Runs.start_url Runs.the_headers []
             Runs.fresh in
  Forall well_stored [] /\
  res o = Ret [("A", stored Cases.item_a_moved); ("B", stored Runs.item_b)] /\
  Forall well_stored [("A", stored Cases.item_a_moved); ("B", stored Runs.item_b)].
Proof.
  split; [constructor|]. split; [exact two_page_result|].
  exact (delta_gather_entries_well_stored Cases.two_page_net Runs.env 10 Runs.start_url
           Runs.the_headers [] _ Runs.fresh (List.Forall_nil _) two_page_result).
Defined.

Lemma two_page_result_from_b :
  res (delta_gather Cases.two_page_net Runs.env 10 Runs.start_url Runs.the_headers
         [("B", stored Runs.item_b)] Runs.fresh) =
  Ret [("B", stored Runs.item_b); ("A", stored Cases.item_a_moved)].
Proof. vm_compute. reflexivity. Qed.

Lemma delta_gather_keeps_entries_witness :
  let o := delta_gather Cases.two_page_net Runs.env 10 Runs.start_url Runs.the_headers
             [("B", stored Runs.item_b)] Runs.fresh in
  res o = Ret [("B", stored Runs.item_b); ("A", stored Cases.item_a_moved)] /\
  exists new, ["B"; "A"] = ["B"] ++ new.
Proof.
  split; [exact two_page_result_from_b|].
  exact (delta_gather_keeps_entries Cases.two_page_net Runs.env 10 Runs.start_url
           Runs.the_headers [("B", stored Runs.item_b)] _ Runs.fresh two_page_result_from_b).
Defined.

Lemma no_value_fetched :
  res (fetch_page Samples.no_value_net Runs.start_url Runs.the_headers Runs.fresh) =
  Ret Samples.no_value_page.
Proof. vm_compute. reflexivity. Qed.

Lemma page_without_value_witness :
  let o := delta_gather Samples.no_value_net Runs.env 10 Runs.start_url Runs.the_headers []
             Runs.fresh in
  res (fetch_page Samples.no_value_net Runs.start_url Runs.the_headers Runs.fresh) =
    Ret Samples.no_value_page /\
  p_value Samples.no_value_page = None /\
  is_Some (Runs.env !! "target_folder_prod") /\
  is_Some (Runs.env !! "target_driveID_prod") /\
  res o = Raise (KeyError "value") /\
  p_deltaLink Samples.no_value_page = Some "delta-7" /\ bucket (final o) = ∅.
Proof.
  assert (is_Some (Runs.env !! "target_folder_prod")) as Htf by (eexists; reflexivity).
  assert (is_Some (Runs.env !! "target_driveID_prod")) as Htd by (eexists; reflexivity).
  cbv zeta.
  rewrite (page_without_value Samples.no_value_net Runs.env 9 Runs.start_url Runs.the_headers
             [] Runs.fresh Samples.no_value_page no_value_fetched eq_refl Htf Htd).
  cbn [res final]. split; [exact no_value_fetched|]. split; [reflexivity|].
  split; [exact Htf|]. split; [exact Htd|]. split; [reflexivity|].
  split; [reflexivity | vm_compute; reflexivity].
Defined.

Lemma short_item_relevant : relevant "Invoices" Runs.drive Samples.short_item.
Proof. exists "/drive/root:". split; [reflexivity | by left]. Qed.

Lemma short_parent_path_key_witness :
  i_id Samples.short_item = Some "S" /\ i_name Samples.short_item = Some "Invoices" /\
  parent_path Samples.short_item = Some "/drive/root:" /\
  relevant "Invoices" Runs.drive Samples.short_item /\
  str_len "/drive/root:" <= 80 /\
  filter_record "Invoices" Runs.drive [] Samples.short_item =
    Ret [("S", stored Samples.short_item)] /\
  filename_s3_of (stored Samples.short_item) "Invoices" = Ret "/Invoices".
Proof.
  assert (str_len "/drive/root:" <= 80) as Hlen by (vm_compute; lia).
  destruct (short_parent_path_key "Invoices" Runs.drive [] Samples.short_item "S" "Invoices"
              "/drive/root:" eq_refl eq_refl eq_refl short_item_relevant Hlen)
    as (Hf & _ & Hkey).
  split; [reflexivity|]. split; [reflexivity|]. split; [reflexivity|].
  split; [exact short_item_relevant|]. split; [exact Hlen|]. split; [exact Hf | exact Hkey].
Defined.

(** ** The pages of a traversal and the headers of a run *)

Lemma page_fetch_headers url h evf r u h' x :
  page_fetch url h evf r -> In (EvGetFeed u h' x) evf -> u = url /\ h' = h.
Proof. intros H Hin; inversion H; subst; in_list; by injection Hin as -> -> _. Qed.

Lemma gather_headers environ h url cs evs r :
  gather environ h url cs evs r ->
  forall u h' x, In (EvGetFeed u h' x) evs -> h' = h.
Proof.
  induction 1; intros u h' x Hin; in_list;
    try (by eapply page_fetch_headers);
    try (exfalso; by eapply link_save_no_feed); eauto.
Qed.

Lemma granted_in_app_l evs1 evs2 t : granted_in evs1 t -> granted_in (evs1 ++ evs2) t.
Proof. intros (u & b & resp & Hin & Ht). exists u, b, resp. rewrite in_app_iff. auto. Qed.

Lemma granted_in_app_r evs1 evs2 t : granted_in evs2 t -> granted_in (evs1 ++ evs2) t.
Proof. intros (u & b & resp & Hin & Ht). exists u, b, resp. rewrite in_app_iff. auto. Qed.

Lemma content_fetch_headers url h fm evs r u h' x :
  content_fetch url h fm evs r -> In (EvGetContent u h' x) evs ->
  h' = h \/ exists t, granted_in evs t /\ h' = bearer_headers t.
Proof.
  intros H Hin; inversion H; subst;
    try match goal with Ht : token_trace _ _ |- _ => inversion Ht; subst end;
    in_list; try (injection Hin as <- <- <-); auto.
  right. eexists. split; [|reflexivity].
  eexists _, _, _. split; [|eassumption]. simpl. tauto.
Qed.

Lemma item_trace_headers environ h fm evs r u h' x :
  item_trace environ h fm evs r -> In (EvGetContent u h' x) evs ->
  h' = h \/ exists t, granted_in evs t /\ h' = bearer_headers t.
Proof.
  intros H Hin; inversion H; subst; in_list;
    try (by eapply content_fetch_headers);
    try (match goal with Hc : content_fetch _ _ _ _ _ |- _ =>
           destruct (content_fetch_headers _ _ _ _ _ _ _ _ Hc Hin) as [?|(t & ? & ?)];
           [by left | right; exists t; split; [by apply granted_in_app_l | done]] end);
    exfalso;
    repeat match goal with
           | Hs : staged _ _ _ ?l, Hi : In _ ?l |- _ =>
               destruct (staged_plain _ _ _ _ _ Hs Hi) as [[? ?]|(? & ? & ? & ?)];
               discriminate
           | Hs : upload_trace _ _ ?l _, Hi : In _ ?l |- _ =>
               destruct (upload_trace_plain _ _ _ _ _ Hs Hi) as [[? ?]|[? ?]]; discriminate
           | Hs : cleaned _ ?l, Hi : In _ ?l |- _ =>
               destruct (cleaned_plain _ _ _ Hs Hi) as [[? ?]|(? & ? & ?)]; discriminate
           end.
Qed.

Lemma transfer_trace_headers environ h cs evs r :
  transfer_trace environ h cs evs r ->
  forall u h' x, In (EvGetContent u h' x) evs ->
    h' = h \/ exists t, granted_in evs t /\ h' = bearer_headers t.
Proof.
  induction 1 as [|k v rest evs r Hv _ IH|k v rest evs e Hv Hi
                  |k v rest evs1 evs2 r Hv Hi _ IH]; intros u h' x Hin.
  - destruct Hin.
  - eauto.
  - by eapply item_trace_headers.
  - apply in_app_or in Hin as [Hin|Hin].
    + destruct (item_trace_headers _ _ _ _ _ _ _ _ Hi Hin) as [?|(t & ? & ?)];
        [by left | right; exists t; split; [by apply granted_in_app_l | done]].
    + destruct (IH _ _ _ Hin) as [?|(t & ? & ?)];
        [by left | right; exists t; split; [by apply granted_in_app_r | done]].
Qed.

Section Headers.

Context {R : Type} (net : oracle R) (environ : gmap string string).

(** A run that obtained its token is made of a prologue, a traversal of the
    feed with the headers built from the token, and a transfer with the same
    headers, closed by the last line when the transfer returned. *)
Lemma main_segments recursion_limit (w : world R) t :
  res (token_gains net environ w) = Ret t ->
  exists evp evg cs evt r,
    Forall prologue_event evp /\
    Forall gather_event evg /\
    (forall u h' x, In (EvGetFeed u h' x) evg -> h' = bearer_headers t) /\
    transfer_trace environ (bearer_headers t) cs evt r /\
    (events (main net environ recursion_limit w) = evp ++ evg ++ evt \/
     events (main net environ recursion_limit w) =
       evp ++ evg ++ evt ++ [EvPrint LScriptExited]).
Proof.
  intros Hres. unfold main. step. step.
  pose proof (token_gains_trace net environ w) as Ht.
  apply token_trace_prologue in Ht.
  destruct (token_gains net environ w) as [rt w1 evtok]; cbn [res final events app] in *.
  subst rt. do 2 step. rewrite bind_eq. unfold getenv.
  destruct (environ !! "driveId_prod") as [driveID|];
    cbn [res final events app ret raise].
  2:{ exists (EvPrint LScriptStarted :: evtok), [], [], [], (Ret tt).
      split; [by constructor|]. split; [constructor|]. split; [by intros ? ? ? []|].
      split; [constructor|]. left. by rewrite !app_nil_r. }
  rewrite bind_eq.
  match goal with |- context [load_deltaLink net environ ?u ?w0] =>
    pose proof (load_deltaLink_prologue net environ u w0) as Hl;
    destruct (load_deltaLink_total net environ u w0) as [u' Hu];
    destruct (load_deltaLink net environ u w0) as [rl w2 evl] end.
  cbn [res final events app] in *. subst rl. rewrite bind_eq.
  pose proof (delta_gather_trace net environ recursion_limit u' (bearer_headers t) [] w2)
    as Hg.
  assert (Forall prologue_event (EvPrint LScriptStarted :: evtok ++ evl)) as Hp.
  { constructor; [done|]. by apply Forall_app. }
  destruct (delta_gather net environ recursion_limit u' (bearer_headers t) [] w2)
    as [[cs|e] w3 evg]; cbn [res final events app] in *.
  - rewrite bind_eq.
    pose proof (transfer_changes_trace net environ (bearer_headers t) cs w3) as Htr.
    destruct (transfer_changes net environ (bearer_headers t) cs w3) as [r w4 evtr];
      cbn [res final events app print] in *.
    exists (EvPrint LScriptStarted :: evtok ++ evl), evg, cs, evtr, r.
    split; [done|]. split; [by eapply gather_events|].
    split; [by eapply gather_headers|]. split; [done|].
    destruct r as [[]|e]; cbn [res final events app print];
      [right | left]; cbn [app]; by rewrite <- ?app_assoc, ?app_nil_r.
  - exists (EvPrint LScriptStarted :: evtok ++ evl), evg, [], [], (Ret tt).
    split; [done|]. split; [by eapply gather_events|].
    split; [by eapply gather_headers|]. split; [constructor|].
    left. cbn [app]. by rewrite <- ?app_assoc, ?app_nil_r.
Qed.

(** X21.  Every request for a page of the feed carries the headers built
    from the token main obtained at its start, the second request for a page
    included.  Every request for the content of an item carries those headers
    or the headers built from a token granted later in the same run. *)
Theorem main_requests_carry_the_token recursion_limit (w : world R) t :
  res (token_gains net environ w) = Ret t ->
  let o := main net environ recursion_limit w in
  (forall url h r, In (EvGetFeed url h r) (events o) -> h = bearer_headers t) /\
  (forall url h r, In (EvGetContent url h r) (events o) ->
     h = bearer_headers t \/
     exists t', granted_in (events o) t' /\ h = bearer_headers t').
Proof.
  intros Hres o.
  destruct (main_segments recursion_limit w t Hres)
    as (evp & evg & cs & evt & r & Hp & Hg & Hh & Htr & Hev).
  fold o in Hev.
  assert (exists tail, events o = evp ++ evg ++ evt ++ tail /\
                       (tail = [] \/ tail = [EvPrint LScriptExited]))
    as (tail & -> & Htail).
  { destruct Hev as [Hev|Hev]; [exists [] | exists [EvPrint LScriptExited]];
      rewrite Hev, ?app_nil_r; auto. }
  pose proof (transfer_trace_events _ _ _ _ _ Htr) as Hte.
  split.
  - intros url h x Hin. in_list.
    + by apply (Forall_In _ _ _ Hp) in Hin.
    + eauto.
    + by apply (Forall_In _ _ _ Hte) in Hin.
    + destruct Htail as [->| ->]; in_list.
  - intros url h x Hin. in_list.
    + by apply (Forall_In _ _ _ Hp) in Hin.
    + by apply (Forall_In _ _ _ Hg) in Hin.
    + destruct (transfer_trace_headers _ _ _ _ _ Htr _ _ _ Hin) as [?|(t' & Hgr & ?)];
        [by left|]. right. exists t'. split; [|done].
      by apply granted_in_app_r, granted_in_app_r, granted_in_app_l.
    + destruct Htail as [->| ->]; in_list.
Qed.

(** X22.  The result of delta_gather is the filter of lines 109-114 run over
    the records of all the pages it read, in the order it read them, starting
    from the dictionary it was given: pages compose as their
    concatenation. *)
Theorem delta_gather_folds_pages depth url h cs cs' tf td (w : world R) :
  environ !! "target_folder_prod" = Some tf ->
  environ !! "target_driveID_prod" = Some td ->
  let o := delta_gather net environ depth url h cs w in
  res o = Ret cs' ->
  filter_records tf td cs (records_of (events o)) = Ret cs'.
Proof.
  intros Htf Htd o Hres.
  by apply (gather_records environ h url cs (events o) (res o) tf td Htf Htd
              (delta_gather_trace net environ depth url h cs w)).
Qed.

End Headers.

Lemma delta_gather_folds_pages_witness :
  let o := delta_gather Cases.two_page_net Runs.env 10 Runs.start_url Runs.the_headers []
             Runs.fresh in
  Runs.env !! "target_folder_prod" = Some "Invoices" /\
  Runs.env !! "target_driveID_prod" = Some Runs.drive /\
  res o = Ret [("A", stored Cases.item_a_moved); ("B", stored Runs.item_b)] /\
  records_of (events o) = [Runs.item_a; Runs.item_b; Cases.item_a_moved] /\
  filter_records "Invoices" Runs.drive [] [Runs.item_a; Runs.item_b; Cases.item_a_moved] =
    Ret [("A", stored Cases.item_a_moved); ("B", stored Runs.item_b)].
Proof.
  assert (Runs.env !! "target_folder_prod" = Some "Invoices") as Htf by reflexivity.
  assert (Runs.env !! "target_driveID_prod" = Some Runs.drive) as Htd by reflexivity.
  assert (records_of (events (delta_gather Cases.two_page_net Runs.env 10 Runs.start_url
                                Runs.the_headers [] Runs.fresh)) =
          [Runs.item_a; Runs.item_b; Cases.item_a_moved]) as Hrec
    by (vm_compute; reflexivity).
  pose proof (delta_gather_folds_pages Cases.two_page_net Runs.env 10 Runs.start_url
                Runs.the_headers [] _ "Invoices" Runs.drive Runs.fresh Htf Htd
                two_page_result) as H.
  cbv zeta in H. rewrite Hrec in H.
  cbv zeta. split; [exact Htf|]. split; [exact Htd|]. split; [exact two_page_result|].
  split; [exact Hrec | exact H].
Defined.

Lemma main_requests_carry_the_token_witness :
  let o := main Cases.a_net Runs.env 10 Runs.fresh in
  res (token_gains Cases.a_net Runs.env Runs.fresh) = Ret "token" /\
  feed_requests (events o) = [Runs.start_url] /\
  forall url h r, In (EvGetFeed url h r) (events o) -> h = Runs.the_headers.
Proof.
  assert (res (token_gains Cases.a_net Runs.env Runs.fresh) = Ret "token")
    as Hres by (vm_compute; reflexivity).
  split; [exact Hres|]. split; [vm_compute; reflexivity|].
  exact (proj1 (main_requests_carry_the_token Cases.a_net Runs.env 10
                  Runs.fresh "token" Hres)).
Defined.

(** ** A run without the bucket credentials *)

Section No_credentials.

Context {R : Type} (net : oracle R) (environ : gmap string string).

Lemma onedrive_download_no_env h fm (w : world R) :
  ~ aws_env_ok environ ->
  exists e, res (onedrive_download net environ h fm w) = Raise e.
Proof.
  intros Hno. unfold onedrive_download. rewrite bind_eq. unfold lift.
  cbn [res final events app subscript].
  destruct (content_url fm) as [url|e]; cbn [res final events app subscript]; [|eauto].
  rewrite bind_eq.
  destruct (fetch_content net environ h fm url w) as [[resp|e] w1 evf];
    cbn [res final events app subscript]; [|eauto].
  rewrite bind_eq. cbn [res final events app subscript].
  destruct (i_name fm) as [n|]; cbn [res final events app subscript]; [|eauto].
  rewrite bind_eq.
  destruct (stage_files_trace net ("/tmp/" +:+ n) resp fm w1) as [Hsr _].
  destruct (stage_files net ("/tmp/" +:+ n) resp fm w1) as [rs w2 evs];
    cbn [res final events app subscript] in *; subst rs.
  rewrite bind_eq. cbn [res final events app subscript].
  destruct (filename_s3_of fm n) as [key|e]; cbn [res final events app subscript]; [|eauto].
  rewrite bind_eq.
  destruct (s3_ops_no_env net environ ("/tmp/" +:+ n) key "upload" w2 Hno) as [k ->].
  cbn [res final events app subscript]. eauto.
Qed.

(** X23.  Without the two bucket credentials in the environment, the block
    of main that loads the stored deltaLink catches the KeyError, prints it
    and goes on with the URL it was given, while saving a deltaLink and
    transferring an item raise: the same missing configuration is logged
    before the feed is read and fatal after it.  The bucket is never
    changed. *)
Theorem missing_credentials (w : world R) :
  ~ aws_env_ok environ ->
  (forall delta_url, exists k,
     load_deltaLink net environ delta_url w =
     Out (Ret delta_url) w [EvPrint LDeltaFileError; EvPrint (LExn (KeyError k))]) /\
  (forall deltaLink,
     let o := save_deltaLink net environ deltaLink w in
     (exists e, res o = Raise e) /\ bucket (final o) = bucket w) /\
  (forall h fm,
     let o := onedrive_download net environ h fm w in
     (exists e, res o = Raise e) /\ bucket (final o) = bucket w).
Proof.
  intros Hno. split; [|split].
  - intros delta_url. unfold load_deltaLink. rewrite bind_eq, try_eq.
    destruct (s3_ops_no_env net environ "/tmp/deltaLink.json" "deltaLink.json" "download"
                w Hno) as [k ->].
    cbn [res final events app]. do 2 step. cbn [res final events app ret]. eauto.
  - intros deltaLink. cbv zeta. unfold save_deltaLink. rewrite bind_eq.
    destruct (open_write_cases net "/tmp/deltaLink.json" (DeltaLinkJson deltaLink) w)
      as [(e & x & ->)|(x & ->)]; cbn [res final events app bucket]; [eauto|].
    rewrite bind_eq.
    match goal with |- context [s3_ops net environ ?f ?k "upload" ?w0] =>
      destruct (s3_ops_no_env net environ f k "upload" w0 Hno) as [k' ->] end.
    cbn [res final events app bucket]. eauto.
  - intros h fm o. split; [by apply onedrive_download_no_env|].
    subst o. rewrite (tracks_onedrive_download net environ h fm w).
    apply replay_no_upload.
    destruct (onedrive_download_no_env h fm w Hno) as [e He].
    pose proof (onedrive_download_trace net environ h fm w) as Ht.
    rewrite He in Ht. inversion Ht; subst; repeat apply Forall_app_2;
      eauto using content_fetch_no_upload, staged_no_upload.
Qed.

End No_credentials.

Lemma no_credentials : ~ aws_env_ok Samples.env_no_credentials.
Proof. intros [_ [k Hk]]. vm_compute in Hk. discriminate Hk. Qed.

Lemma missing_credentials_witness :
  ~ aws_env_ok Samples.env_no_credentials /\
  res (load_deltaLink Cases.a_net Samples.env_no_credentials Runs.start_url Samples.resumed) =
    Ret Runs.start_url /\
  (exists e, res (save_deltaLink Cases.a_net Samples.env_no_credentials "delta-5"
                    Samples.resumed) = Raise e).
Proof.
  destruct (missing_credentials Cases.a_net Samples.env_no_credentials Samples.resumed
              no_credentials) as (Hl & Hs & _).
  split; [exact no_credentials|]. split.
  - destruct (Hl Runs.start_url) as [k ->]. reflexivity.
  - exact (proj1 (Hs "delta-5")).
Defined.
